(** * piclab: a shallow embedding of [piclab.cpp]

    The program adds a bottom label to a PNG.  This development embeds the
    parts of [piclab.cpp] that the specification talks about:

    - the string helpers [Trim], [PathWithSuffixBeforeExt],
      [GetTempSiblingPath] and [GetEncoderClsid];
    - the label geometry and the GDI+ calls issued by [ProcessAndSave];
    - the save protocol of [ProcessAndSave] over an explicit file system;
    - the dispatcher [wWinMain].

    Conventions.  A [std::wstring] is a list of UTF-16 code units.  A
    position returned by [find_last_of] is an [option nat], [None] standing
    for [std::wstring::npos].  A [REAL] or [double] value is the rational it
    denotes, and every conversion and operation rounds to the format, to
    nearest with ties to even (section Floating point).  Calls into
    Win32, the CRT and GDI+ are not part of [piclab.cpp]; what they answer is
    an input of the model (the record [Platform] and the fields of the
    sections below), and what they do to the file system follows their
    documented contract. *)

From Stdlib Require Import ZArith NArith QArith Qround Qpower Qabs Qminmax Lia Lqa.
From Stdlib Require Import String Ascii DecimalString DecimalN.
From stdpp Require Import base option list gmap.

Local Open Scope Z_scope.

(** ** Wide strings *)

Module WStr.

Abbreviation wchar := N.
Abbreviation wstring := (list N).

Definition wc (a : ascii) : wchar := N_of_ascii a.

(** [L "text"] is the wide literal [L"text"]. *)
Definition L (s : string) : wstring := map wc (list_ascii_of_string s).

Definition wchar_in (c : wchar) (chars : wstring) : bool :=
  existsb (N.eqb c) chars.

(** [s.find_last_of(chars)]: the last position of [s] that holds one of
    [chars]; [None] is [npos]. *)
Fixpoint find_last_of (chars s : wstring) : option nat :=
  match s with
  | [] => None
  | c :: rest =>
      match find_last_of chars rest with
      | Some j => Some (S j)
      | None => if wchar_in c chars then Some 0%nat else None
      end
  end.

(** [s.insert(pos, t)] for [pos <= s.size()]. *)
Definition winsert (pos : nat) (t s : wstring) : wstring :=
  take pos s ++ t ++ drop pos s.

(** [std::to_wstring] on an unsigned value, and the [%u] conversion. *)
Definition to_wstring (n : N) : wstring :=
  L (NilZero.string_of_uint (N.to_uint n)).

(** [std::to_wstring] on an [int]. *)
Definition to_wstring_int (z : Z) : wstring :=
  if z <? 0 then wc "-" :: to_wstring (Z.to_N (- z)) else to_wstring (Z.to_N z).

Definition is_digit (c : wchar) : bool := (48 <=? c)%N && (c <=? 57)%N.

(** No character of [s] is one of [chars]. *)
Definition free_of (chars s : wstring) : Prop :=
  Forall (fun c => wchar_in c chars = false) s.

Arguments wc : simpl never.
Arguments L : simpl never.
Arguments to_wstring : simpl never.

End WStr.
Import WStr.

(** ** Helpers of piclab.cpp *)

Definition DOT : wstring := L ".".
Definition SEPARATORS : wstring := L "\/".

(** [Trim], over the CRT's [iswspace].  The first loop advances [a] over the
    leading white space, the second moves [b] back over the trailing white
    space of what is left, and [substr(a, b - a)] is what lies between. *)
Section Trim.
Variable iswspace : wchar -> bool.

Fixpoint skip_leading (s : wstring) : wstring :=
  match s with
  | [] => []
  | c :: rest => if iswspace c then skip_leading rest else s
  end.

Fixpoint skip_trailing (s : wstring) : wstring :=
  match s with
  | [] => []
  | c :: rest =>
      match skip_trailing rest with
      | [] => if iswspace c then [] else [c]
      | kept => c :: kept
      end
  end.

Definition Trim (s : wstring) : wstring := skip_trailing (skip_leading s).
End Trim.

(** [PathWithSuffixBeforeExt] *)
Definition PathWithSuffixBeforeExt (path suffix : wstring) : wstring :=
  let dot := find_last_of DOT path in
  let slash := find_last_of SEPARATORS path in
  match dot, slash with
  | None, _ => path ++ suffix                        (* dot == npos *)
  | Some d, Some s =>
      if (d <? s)%nat then path ++ suffix            (* slash != npos && dot < slash *)
      else winsert d suffix path
  | Some d, None => winsert d suffix path
  end.

(** ** The CRT path functions used by [GetTempSiblingPath]

    [_wsplitpath_s], [_wmakepath_s] and [swprintf_s] belong to the C runtime,
    and the buffer sizes to its headers.  They are modelled after their
    documentation: [_wsplitpath_s] cuts the path into drive, directory, base
    name and extension, and clears all four buffers (returning [ERANGE], which
    the caller ignores) when a part does not fit its buffer; [_wmakepath_s]
    and [swprintf_s] invoke the invalid-parameter handler, which ends the
    process, when the result does not fit. *)
Module Crt.

Definition _MAX_DRIVE : nat := 3.
Definition _MAX_DIR : nat := 256.
Definition _MAX_FNAME : nat := 256.
Definition _MAX_EXT : nat := 256.
Definition MAX_PATH : nat := 260.

Record SplitPath := mkSplitPath {
  sp_drive : wstring;
  sp_dir : wstring;
  sp_fname : wstring;
  sp_ext : wstring
}.

(** A drive is one character followed by a colon. *)
Definition split_drive (path : wstring) : wstring * wstring :=
  match path with
  | c :: colon :: rest =>
      if N.eqb colon (wc ":") then ([c; colon], rest) else ([], path)
  | _ => ([], path)
  end.

(** The directory runs up to and including the last separator. *)
Definition split_dir (rest : wstring) : wstring * wstring :=
  match find_last_of SEPARATORS rest with
  | Some i => (take (S i) rest, drop (S i) rest)
  | None => ([], rest)
  end.

(** The extension starts at the last dot of the last component. *)
Definition split_ext (name : wstring) : wstring * wstring :=
  match find_last_of DOT name with
  | Some d => (take d name, drop d name)
  | None => (name, [])
  end.

Definition wsplitpath (path : wstring) : SplitPath :=
  let '(drive, rest) := split_drive path in
  let '(dir, name) := split_dir rest in
  let '(fname, ext) := split_ext name in
  mkSplitPath drive dir fname ext.

(** A string of [n] characters needs [n + 1] elements. *)
Definition fits (s : wstring) (size : nat) : bool := (length s <? size)%nat.

Definition wsplitpath_s (path : wstring) : SplitPath :=
  let sp := wsplitpath path in
  if fits (sp_drive sp) _MAX_DRIVE && fits (sp_dir sp) _MAX_DIR
     && fits (sp_fname sp) _MAX_FNAME && fits (sp_ext sp) _MAX_EXT
  then sp
  else mkSplitPath [] [] [] [].

Definition wmakepath (drive dir fname ext : wstring) : wstring :=
  (match drive with
   | [] => []
   | c :: _ => [c; wc ":"]
   end)
  ++ (match last dir with
      | None => []
      | Some c => if wchar_in c SEPARATORS then dir else dir ++ L "\"
      end)
  ++ fname
  ++ (match ext with
      | [] => []
      | c :: _ => if N.eqb c (wc ".") then ext else wc "." :: ext
      end).

(** [None]: the invalid-parameter handler was invoked. *)
Definition wmakepath_s (size : nat) (drive dir fname ext : wstring) : option wstring :=
  let r := wmakepath drive dir fname ext in
  if fits r size then Some r else None.

(** [swprintf_s(buffer, ...)] on a buffer of [size] elements, given the
    formatted text. *)
Definition swprintf_s (size : nat) (formatted : wstring) : option wstring :=
  if fits formatted size then Some formatted else None.

End Crt.
Import Crt.

(** [GetTempSiblingPath]; [tick] is what [GetTickCount()] answers.  [None]:
    the process was ended by the CRT. *)
Definition GetTempSiblingPath (original : wstring) (tick : N) : option wstring :=
  let sp := wsplitpath_s original in
  match wmakepath_s MAX_PATH (sp_drive sp) (sp_dir sp) (L "") (L "") with
  | None => None
  | Some folder =>
      swprintf_s MAX_PATH
        (folder ++ sp_fname sp ++ L "_label_tmp_" ++ to_wstring tick ++ L ".png")
  end.

(** ** Encoder selection *)

Definition Status := Z.
Definition Ok : Status := 0.

Definition CLSID := N.

(** The fields of [ImageCodecInfo] that [GetEncoderClsid] reads. *)
Record ImageCodecInfo := mkCodec {
  Clsid : CLSID;
  MimeType : wstring
}.

(** What GDI+ answers to [GetImageEncodersSize] and [GetImageEncoders]:
    the byte size reported, the status of the enumeration and the array it
    fills, whose length is [num]. *)
Record EncoderEnum := mkEncoderEnum {
  enum_size : N;
  enum_status : Status;
  enum_encoders : list ImageCodecInfo
}.

Definition wcscmp_eq (a b : wstring) : bool := bool_decide (a = b).

(** The conversion [(int)j] of a [UINT]. *)
Definition int_of_UINT (j : Z) : Z :=
  let r := j mod 2 ^ 32 in
  if r <? 2 ^ 31 then r else r - 2 ^ 32.

(** The [for] loop of [GetEncoderClsid], from index [j] on. *)
Fixpoint encoder_loop (format : wstring) (enc : list ImageCodecInfo) (j : Z)
  : option (Z * CLSID) :=
  match enc with
  | [] => None
  | e :: rest =>
      if wcscmp_eq (MimeType e) format then Some (j, Clsid e)
      else encoder_loop format rest (j + 1)
  end.

(** [GetEncoderClsid(format, pClsid)]: the value returned and the value of
    [*pClsid] afterwards. *)
Definition GetEncoderClsid (gdi : EncoderEnum) (format : wstring) (pClsid : CLSID)
  : Z * CLSID :=
  if N.eqb (enum_size gdi) 0 then (-1, pClsid)
  else if negb (enum_status gdi =? Ok) then (-1, pClsid)
  else match encoder_loop format (enum_encoders gdi) 0 with
       | Some (j, clsid) => (int_of_UINT j, clsid)
       | None => (-1, pClsid)
       end.

(** ** Floating point

    [REAL] is [float], the IEEE 754 binary32 format with a significand of 24
    bits, and [double] is binary64 with 53 bits.  A finite value of either
    format is the rational it denotes.  A conversion to the format, and every
    arithmetic operation in it, gives the value of the format nearest to the
    exact result, the one with the even significand when two are equally
    near.  The exponent range of the formats is not modelled: the values the
    program computes from the [UINT] width and height of a bitmap stay below
    [2 ^ 33] in size, and a sum or difference of two values of a format is
    never rounded in the subnormal range. *)

Module Float.
Local Open Scope Q_scope.

(** [2 ^ k] for an exponent of either sign. *)
Definition pow2 (k : Z) : Q := 2 ^ k.

(** For [0 < x], the exponent [e] with [2 ^ e <= x < 2 ^ (e + 1)]. *)
Definition ilog2 (x : Q) : Z :=
  let e0 := (Z.log2 (Qnum x) - Z.log2 (Zpos (Qden x)))%Z in
  if Qle_bool (pow2 e0) x then e0 else (e0 - 1)%Z.

(** The integer nearest to [m]; of two that are equally near, the even one. *)
Definition nearest_even (m : Q) : Z :=
  let f := Qfloor m in
  match Qcompare (m - inject_Z f) (1 # 2) with
  | Lt => f
  | Gt => (f + 1)%Z
  | Eq => if Z.even f then f else (f + 1)%Z
  end.

(** [0 < x] rounded to a significand of [p] bits. *)
Definition round_pos (p : Z) (x : Q) : Q :=
  let u := (ilog2 x - p + 1)%Z in
  inject_Z (nearest_even (x * pow2 (- u))) * pow2 u.

Definition round (p : Z) (x : Q) : Q :=
  let x := Qred x in
  match Qnum x with
  | Z0 => 0
  | Zpos _ => Qred (round_pos p x)
  | Zneg _ => Qred (- round_pos p (- x))
  end.

End Float.

(** [(REAL)x] and [(double)x], and the rounding of every operation in these
    types. *)
Definition to_REAL : Q -> Q := Float.round 24.
Definition to_double : Q -> Q := Float.round 53.

(** ** GDI+ values *)

Module Gdiplus.

Local Open Scope Q_scope.

(** [(a < b)] on [double]. *)
Definition Qltb (a b : Q) : bool := negb (Qle_bool b a).

(** [std::max(a, b)] is [(a < b) ? b : a]; [std::min(a, b)] is
    [(b < a) ? b : a]. *)
Definition std_max (a b : Q) : Q := if Qltb a b then b else a.
Definition std_min (a b : Q) : Q := if Qltb b a then b else a.

Record RectF := mkRectF { X : Q; Y : Q; Width : Q; Height : Q }.

Record Color := mkColor { A : Z; R : Z; G : Z; B : Z }.

Inductive FontStyle := FontStyleRegular | FontStyleBold.
Inductive Unit := UnitPixel | UnitPoint.

Record Font := mkFont {
  family : list N;
  emSize : Q;
  style : FontStyle;
  unit : Unit
}.

Inductive StringFormatFlags :=
  | StringFormatFlagsNoWrap
  | StringFormatFlagsLineLimit
  | StringFormatFlagsNoClip.

Inductive StringAlignment :=
  | StringAlignmentNear
  | StringAlignmentCenter
  | StringAlignmentFar.

Inductive StringTrimming :=
  | StringTrimmingNone
  | StringTrimmingCharacter
  | StringTrimmingWord
  | StringTrimmingEllipsisCharacter
  | StringTrimmingEllipsisWord
  | StringTrimmingEllipsisPath.

Record StringFormat := mkStringFormat {
  formatFlags : list StringFormatFlags;
  alignment : StringAlignment;
  lineAlignment : StringAlignment;
  trimming : StringTrimming
}.

Definition has_flag (f : StringFormatFlags) (sf : StringFormat) : bool :=
  existsb (fun g => match f, g with
                    | StringFormatFlagsNoWrap, StringFormatFlagsNoWrap
                    | StringFormatFlagsLineLimit, StringFormatFlagsLineLimit
                    | StringFormatFlagsNoClip, StringFormatFlagsNoClip => true
                    | _, _ => false
                    end) (formatFlags sf).

(** The calls that draw into the bitmap. *)
Inductive DrawCall :=
  | FillRectangle (brush : Color) (rect : RectF)
  | DrawString (text : list N) (font : Font) (layoutRect : RectF)
               (format : StringFormat) (brush : Color).

(** A 32-bit ARGB bitmap: its size and the value of each pixel. *)
Record Bitmap := mkBitmap {
  GetWidth : Z;
  GetHeight : Z;
  pixel : Z -> Z -> N
}.

End Gdiplus.
Import Gdiplus.

(** ** The label geometry of [ProcessAndSave]

    [w] and [h] are the width and height of the bitmap, both [UINT], and
    [boundsHeight] is [bounds.Height] as [MeasureString] reported it.  The
    products with [0.012], [0.042], [0.05] and [0.15] and the calls of
    [std::max] and [std::min] are in [double]; the casts to [REAL] and the
    sums and differences of [REAL] values round to [REAL]. *)
Section Geometry.
Local Open Scope Q_scope.
Variables w h : Z.

Definition pad : Q :=
  to_REAL (std_max 8.0 (to_double (to_double (inject_Z h) * to_double 0.012))).
Definition fontPt : Q :=
  to_REAL (std_max 10.0 (to_double (to_double (inject_Z h) * to_double 0.042))).

Definition layoutRect : RectF :=
  mkRectF 0 0 (to_REAL (to_REAL (inject_Z w) - to_REAL (2 * pad))) 1000.

Variable boundsHeight : Q.

Definition scrimH : Q :=
  let scrimH := to_REAL (boundsHeight + to_REAL (2 * pad)) in
  let scrimH :=
    to_REAL (std_max scrimH
               (std_max (to_double (to_double (inject_Z h) * to_double 0.05)) 18.0)) in
  to_REAL (std_min scrimH (to_double (to_double (inject_Z h) * to_double 0.15))).

Definition scrimRect : RectF :=
  mkRectF 0 (to_REAL (to_REAL (inject_Z h) - scrimH)) (to_REAL (inject_Z w)) scrimH.

Definition textRect : RectF :=
  mkRectF pad
          (to_REAL (to_REAL (to_REAL (inject_Z h) - scrimH) + pad))
          (to_REAL (to_REAL (inject_Z w) - to_REAL (2 * pad)))
          (to_REAL (scrimH - to_REAL (2 * pad))).

(** [shadowRect = textRect; shadowRect.X += 1; shadowRect.Y += 1] *)
Definition shadowRect : RectF :=
  mkRectF (to_REAL (X textRect + 1)) (to_REAL (Y textRect + 1))
          (Width textRect) (Height textRect).
End Geometry.

Definition label_format : StringFormat :=
  mkStringFormat [StringFormatFlagsNoClip]      (* StringFormat sf(StringFormatFlagsNoClip) *)
                 StringAlignmentNear             (* sf.SetAlignment *)
                 StringAlignmentCenter           (* sf.SetLineAlignment *)
                 StringTrimmingEllipsisCharacter (* sf.SetTrimming *).

Definition label_font (segoe_available : bool) (h : Z) : Font :=
  mkFont (if segoe_available then L "Segoe UI" else L "Arial")
         (fontPt h) FontStyleBold UnitPoint.

Definition scrim_brush : Color := mkColor 120 0 0 0.
Definition white_brush : Color := mkColor 255 255 255 255.
Definition shadow_brush : Color := mkColor 160 0 0 0.

(** The drawing calls of [ProcessAndSave], in program order. *)
Definition draw_calls (w h : Z) (label : list N) (font : Font) (boundsHeight : Q)
  : list DrawCall :=
  [ FillRectangle scrim_brush (scrimRect w h boundsHeight);
    DrawString label font (shadowRect w h boundsHeight) label_format shadow_brush;
    DrawString label font (textRect w h boundsHeight) label_format white_brush ].

(** ** What a drawing call can paint

    GDI+ rasterises; the model keeps its contract.  [FillRectangle] paints
    inside its rectangle.  [DrawString] lays the text out as a block, placed
    in the layout rectangle by the line alignment, and paints inside that
    block; the block is cut to the layout rectangle unless the format carries
    [StringFormatFlagsNoClip].  The block has the height [MeasureString]
    reported, [textHeight]: this is so for a label of one line, and for any
    label when the layout rectangle is at least that high.  With the
    smoothing the program asks for, a pixel that the rectangle or the block
    covers in part is painted as well.  Which value a painted pixel takes is
    the rasteriser's answer [raster]. *)
Section Rendering.
Local Open Scope Q_scope.

(** The vertical extent (top, bottom) of what a call can paint. *)
Definition painted_rows (textHeight : Q) (c : DrawCall) : Q * Q :=
  match c with
  | FillRectangle _ r => (Y r, Y r + Height r)
  | DrawString _ _ r sf _ =>
      let top :=
        match lineAlignment sf with
        | StringAlignmentNear => Y r
        | StringAlignmentCenter => Y r + (Height r - textHeight) / 2
        | StringAlignmentFar => Y r + Height r - textHeight
        end in
      if has_flag StringFormatFlagsNoClip sf then (top, top + textHeight)
      else (std_max top (Y r), std_min (top + textHeight) (Y r + Height r))
  end.

(** Pixel row [y] spans [y, y + 1); it is painted when the extent reaches
    into it. *)
Definition row_painted (textHeight : Q) (c : DrawCall) (y : Z) : bool :=
  let '(top, bottom) := painted_rows textHeight c in
  Qltb top (inject_Z y + 1) && Qltb (inject_Z y) bottom.

Variable raster : DrawCall -> Z -> Z -> N -> N.

Definition apply_call (textHeight : Q) (bmp : Bitmap) (c : DrawCall) : Bitmap :=
  mkBitmap (GetWidth bmp) (GetHeight bmp)
    (fun x y => if row_painted textHeight c y
                then raster c x y (pixel bmp x y)
                else pixel bmp x y).

Definition render (textHeight : Q) (calls : list DrawCall) (bmp : Bitmap) : Bitmap :=
  fold_left (apply_call textHeight) calls bmp.
End Rendering.

(** ** The platform

    The file system maps a path to the bytes of the file stored there.  The
    record [Platform] collects what the platform answers during one run. *)

Abbreviation FS := (gmap (list N) (list Byte.byte)).

Inductive PromptEvent :=
  | CreateWindowFailed              (* CreateWindowExW returned NULL *)
  | PressOK (edit_text : wstring)   (* WM_COMMAND, IDOK *)
  | PressCancel                     (* WM_COMMAND, IDCANCEL *)
  | CloseWindow.                    (* WM_CLOSE *)

Record Platform := mkPlatform {
  (* shell and user *)
  argv : list wstring;
  PathFileExistsW : wstring -> bool;
  iswspace : wchar -> bool;
  prompt_event : PromptEvent;
  MessageBox_choice : Z;
  (* GDI+ *)
  GdiplusStartup : Status;
  Bitmap_FromFile : option (list Byte.byte) -> option Bitmap;
  Segoe_IsAvailable : bool;
  MeasureString : wstring -> Font -> RectF -> StringFormat -> RectF;
  raster : DrawCall -> Z -> Z -> N -> N;
  ImageEncoders : EncoderEnum;
  Bitmap_Save : Bitmap -> wstring -> CLSID -> option (list Byte.byte)
                -> Status * option (list Byte.byte);
  (* Win32 *)
  GetTickCount : N;
  MoveFileExW_error : wstring -> wstring -> FS -> option N;
  DeleteFileW_ok : wstring -> FS -> bool;
  FormatMessageW : N -> option wstring
}.

Definition IDCANCEL : Z := 2.
Definition IDYES : Z := 6.
Definition IDNO : Z := 7.
Definition ERROR_FILE_NOT_FOUND : N := 2.

Section Calls.
Variable pf : Platform.

(** [bmp->Save(path, &clsid, nullptr)]: the encoder answers a status and
    what it leaves at [path]; no other file changes. *)
Definition Save (bmp : Bitmap) (path : wstring) (clsid : CLSID) (fs : FS)
  : Status * FS :=
  let '(s, written) := Bitmap_Save pf bmp path clsid (fs !! path) in
  (s, match written with
      | Some bytes => <[path := bytes]> fs
      | None => delete path fs
      end).

(** [MoveFileExW(existing, new, MOVEFILE_REPLACE_EXISTING |
    MOVEFILE_COPY_ALLOWED)]: [None] on success, when [new] holds what
    [existing] held and [existing] is gone; the error code on failure, when
    nothing has changed. *)
Definition MoveFileExW (existing new : wstring) (fs : FS) : option N * FS :=
  match fs !! existing with
  | None => (Some ERROR_FILE_NOT_FOUND, fs)
  | Some bytes =>
      match MoveFileExW_error pf existing new fs with
      | Some e => (Some e, fs)
      | None => (None, <[new := bytes]> (delete existing fs))
      end
  end.

Definition DeleteFileW (path : wstring) (fs : FS) : FS :=
  if DeleteFileW_ok pf path fs then delete path fs else fs.

(** [LastErrorText(err)] *)
Definition LastErrorText (err : N) : wstring :=
  match FormatMessageW pf err with
  | Some buf => buf
  | None => L ""
  end.
End Calls.

(** ** [ProcessAndSave] *)

(** The value returned and the two strings passed by reference, which the
    caller hands over empty. *)
Record SaveResult := mkSaveResult {
  ok : bool;
  outSavedPath : wstring;
  outError : wstring
}.

Definition failed (err : wstring) : SaveResult := mkSaveResult false (L "") err.
Definition saved (path : wstring) : SaveResult := mkSaveResult true path (L "").

(** How a call ends: it returns, or the CRT ends the process inside it. *)
Inductive Outcome (T : Type) :=
  | Returned (v : T)
  | Terminated.
Arguments Returned {T} v.
Arguments Terminated {T}.

(** The GDI+ calls of [ProcessAndSave] on the [Graphics] of the bitmap, run
    in a monad that records every call with its arguments, in program
    order. *)
Inductive GdiCall :=
  | MeasureStringCall (text : wstring) (font : Font) (layoutRect : RectF)
                      (format : StringFormat)
  | DrawingCall (c : DrawCall).

Definition Gdi (T : Type) : Type := list GdiCall -> T * list GdiCall.

Definition gdi_ret {T : Type} (v : T) : Gdi T := fun calls => (v, calls).

Definition gdi_bind {T U : Type} (m : Gdi T) (k : T -> Gdi U) : Gdi U :=
  fun calls => let '(v, calls) := m calls in k v calls.

Notation "x <- m ;; k" := (gdi_bind m (fun x => k))
  (at level 100, m at next level, right associativity).

Section Graphics.
Variable pf : Platform.

Definition g_MeasureString (text : wstring) (font : Font) (layoutRect : RectF)
    (format : StringFormat) : Gdi RectF :=
  fun calls => (MeasureString pf text font layoutRect format,
                calls ++ [MeasureStringCall text font layoutRect format]).

Definition g_FillRectangle (brush : Color) (rect : RectF) : Gdi Datatypes.unit :=
  fun calls => (tt, calls ++ [DrawingCall (FillRectangle brush rect)]).

Definition g_DrawString (text : wstring) (font : Font) (layoutRect : RectF)
    (format : StringFormat) (brush : Color) : Gdi Datatypes.unit :=
  fun calls => (tt, calls ++ [DrawingCall (DrawString text font layoutRect format brush)]).

(** Lines 226 to 264, for a bitmap of [w] by [h] pixels: the value returned
    is [bounds.Height]. *)
Definition draw_label (label : wstring) (w h : Z) : Gdi Q :=
  let font := label_font (Segoe_IsAvailable pf) h in
  bounds <- g_MeasureString label font (layoutRect w h) label_format ;;
  _ <- g_FillRectangle scrim_brush (scrimRect w h (Height bounds)) ;;
  _ <- g_DrawString label font (shadowRect w h (Height bounds)) label_format shadow_brush ;;
  _ <- g_DrawString label font (textRect w h (Height bounds)) label_format white_brush ;;
  gdi_ret (Height bounds).
End Graphics.

(** The calls made while the label is drawn, and those among them that
    draw. *)
Definition gdi_calls (pf : Platform) (label : wstring) (w h : Z) : list GdiCall :=
  snd (draw_label pf label w h []).

Definition drawing_calls (calls : list GdiCall) : list DrawCall :=
  omap (fun c => match c with
                 | DrawingCall d => Some d
                 | MeasureStringCall _ _ _ _ => None
                 end) calls.

(** The bitmap after the scrim and the two text passes: what the recorded
    drawing calls paint, a text block being as high as [MeasureString]
    reported. *)
Definition composite (pf : Platform) (label : wstring) (bmp : Bitmap) : Bitmap :=
  let '(textHeight, calls) := draw_label pf label (GetWidth bmp) (GetHeight bmp) [] in
  render (raster pf) textHeight (drawing_calls calls) bmp.

Definition ProcessAndSave (pf : Platform) (srcPath label : wstring) (overwrite : bool)
    (fs : FS) : Outcome SaveResult * FS :=
  if negb (GdiplusStartup pf =? Ok) then
    (Returned (failed (L "GDI+ startup failed.")), fs)
  else
    match Bitmap_FromFile pf (fs !! srcPath) with
    | None => (Returned (failed (L "Failed to load image. Is it a valid PNG?")), fs)
    | Some loaded =>
        let bmp := composite pf label loaded in
        let '(found, pngClsid) := GetEncoderClsid (ImageEncoders pf) (L "image/png") 0%N in
        if found =? -1 then
          (Returned (failed (L "PNG encoder not found (GDI+).")), fs)
        else if overwrite then
          match GetTempSiblingPath srcPath (GetTickCount pf) with
          | None => (Terminated, fs)
          | Some tmp =>
              let '(s, fs) := Save pf bmp tmp pngClsid fs in
              if negb (s =? Ok) then
                (Returned (failed (L "Save to temp failed (status " ++ to_wstring_int s
                                   ++ L ").")), fs)
              else
                match MoveFileExW pf tmp srcPath fs with
                | (None, fs) => (Returned (saved srcPath), fs)
                | (Some e, fs) =>
                    let fs := DeleteFileW pf tmp fs in
                    (Returned (failed (L "Replace original failed. Win32 error "
                                       ++ to_wstring e ++ L ": " ++ LastErrorText pf e)), fs)
                end
          end
        else
          let dst := PathWithSuffixBeforeExt srcPath (L "_labeled") in
          let '(s, fs) := Save pf bmp dst pngClsid fs in
          if s =? Ok then (Returned (saved dst), fs)
          else (Returned (failed (L "Save copy failed (status " ++ to_wstring_int s
                                  ++ L ").")), fs)
    end.

(** ** The prompt and the entry point *)

(** [PromptForText]: the value returned and [out] afterwards. *)
Definition PromptForText (pf : Platform) (out : wstring) : bool * wstring :=
  match prompt_event pf with
  | CreateWindowFailed => (false, out)
  | PressOK edit_text =>
      let buf := take 1023 edit_text in      (* GetWindowTextW(hEdit, buf, 1024) *)
      let result := Trim (iswspace pf) buf in
      let accepted := negb (bool_decide (result = [])) in
      (accepted, if accepted then result else out)
  | PressCancel | CloseWindow => (false, out)
  end.

(** What the user and the shell get to see. *)
Inductive Effect :=
  | MsgBox (text : wstring)
  | RefreshShellFor (path : wstring).

(** [wWinMain]: the exit code, the file system and the effects of the run. *)
Definition wWinMain (pf : Platform) (fs : FS) : Outcome Z * FS * list Effect :=
  match argv pf with
  | [] | [_] => (Returned 1, fs, [MsgBox (L "Usage:" ++ [10%N] ++ L "  piclab.exe <image.png>")])
  | _ :: path :: _ =>
      if negb (PathFileExistsW pf path) then
        (Returned 2, fs, [MsgBox (L "File not found:" ++ [10%N] ++ path)])
      else
        let '(accepted, label) := PromptForText pf (L "") in
        if negb accepted then (Returned 0, fs, [])
        else
          let choice := MessageBox_choice pf in
          if choice =? IDCANCEL then (Returned 0, fs, [])
          else
            let overwrite := choice =? IDYES in
            match ProcessAndSave pf path label overwrite fs with
            | (Terminated, fs) => (Terminated, fs, [])
            | (Returned r, fs) =>
                if negb (ok r) then
                  (Returned 3, fs,
                   [MsgBox (L "Failed to write image:" ++ [10%N] ++ outError r)])
                else
                  (Returned 0, fs,
                   [RefreshShellFor (outSavedPath r);
                    MsgBox (L "Saved:" ++ [10%N] ++ outSavedPath r)])
            end
  end.

(** ** Vocabulary of the specification *)

(** The final extension of a path: a dot of the last component with no dot
    after it, that is, a dot followed only by characters that are neither
    dots nor separators. *)
Definition has_extension (P : wstring) : Prop :=
  exists stem ext, P = stem ++ wc "." :: ext /\ free_of (DOT ++ SEPARATORS) ext.

(** The second character of [s] is not a colon: [s] starts with no drive. *)
Definition no_drive (s : wstring) : bool :=
  match s with
  | _ :: colon :: _ => negb (N.eqb colon (wc ":"))
  | _ => true
  end.

(** What [_wsplitpath_s] hands out: a drive is a character and a colon, a
    directory ends in a separator, the base name and the extension hold no
    separator, and an extension is a dot followed by no other dot. *)
Record well_split (sp : SplitPath) : Prop := mkWellSplit {
  ws_drive : sp_drive sp = [] \/ exists c, sp_drive sp = [c; wc ":"];
  ws_no_drive : sp_drive sp = [] ->
                no_drive (sp_dir sp ++ sp_fname sp ++ sp_ext sp) = true;
  ws_dir : sp_dir sp = [] \/
           exists d c, sp_dir sp = d ++ [c] /\ wchar_in c SEPARATORS = true;
  ws_fname : free_of SEPARATORS (sp_fname sp);
  ws_ext : (sp_ext sp = [] /\ free_of DOT (sp_fname sp)) \/
           exists e, sp_ext sp = wc "." :: e /\ free_of (DOT ++ SEPARATORS) e
}.

Definition join (sp : SplitPath) : wstring :=
  sp_drive sp ++ sp_dir sp ++ sp_fname sp ++ sp_ext sp.

(** The parts of the temporary sibling of a path split as [sp]. *)
Definition temp_parts (sp : SplitPath) (tick : N) : SplitPath :=
  mkSplitPath (sp_drive sp) (sp_dir sp)
              (sp_fname sp ++ L "_label_tmp_" ++ to_wstring tick) (L ".png").

(** Two successive readings of [GetTickCount]: the counter counts the
    milliseconds since the system started and moves with the system timer, so
    a later reading is not smaller, and is the same within one timer period. *)
Definition successive_ticks (t1 t2 : N) : Prop := (t1 <= t2)%N.

(** The clamp of the specification: the lower bound first, the upper bound
    last. *)
Definition clamp_upper_last (x lo hi : Q) : Q := Qmin (Qmax x lo) hi.

(** The width or height of a bitmap: a [UINT]. *)
Definition UINT_range (n : Z) : Prop := (0 <= n < 2 ^ 32)%Z.

(** [x] is [y] up to a relative error of [2 ^ -23]. *)
Definition close_to (x y : Q) : Prop :=
  (Qabs (x - y) <= Qabs y * (1 # 8388608))%Q.

(** The two bounds of the scrim height, as the [REAL] values that the casts
    of lines 252 and 253 make of them. *)
Definition scrim_lower (h : Z) : Q :=
  to_REAL (std_max (to_double (to_double (inject_Z h) * to_double 0.05)) 18.0)%Q.
Definition scrim_upper (h : Z) : Q :=
  to_REAL (to_double (to_double (inject_Z h) * to_double 0.15))%Q.

(** The row at which what a call paints starts. *)
Definition block_top (textHeight : Q) (c : DrawCall) : Q :=
  fst (painted_rows textHeight c).

(** What the specification says of a drawing call on a bitmap [h] pixels
    high whose label measures [t] high: it paints no row of
    [[0, H - Hscrim)]. *)
Definition spares_rows_above (h : Z) (t : Q) (c : DrawCall) : Prop :=
  forall y : Z, (0 <= y)%Z -> (inject_Z y < inject_Z h - scrimH h t)%Q ->
                row_painted t c y = false.

(** The rectangle [inner] lies within [outer]. *)
Definition rect_within (inner outer : RectF) : Prop :=
  (X outer <= X inner /\ X inner + Width inner <= X outer + Width outer
   /\ Y outer <= Y inner /\ Y inner + Height inner <= Y outer + Height outer)%Q.

(** A font of the given size in points, bold. *)
Definition bold_points (size : Q) (f : Font) : Prop :=
  (emSize f == size)%Q /\ style f = FontStyleBold /\ unit f = UnitPoint.

(** The font a call takes, if it takes one. *)
Definition font_of (c : GdiCall) : option Font :=
  match c with
  | MeasureStringCall _ f _ _ => Some f
  | DrawingCall (DrawString _ f _ _ _) => Some f
  | DrawingCall (FillRectangle _ _) => None
  end.





(** The bottom band of an image [h] pixels high with a scrim [s] high. *)
Definition band_rows (h : Z) (s : Q) : Q * Q := ((inject_Z h - s)%Q, inject_Z h).

(** A run of [ProcessAndSave] succeeded: it returned [true]. *)
Definition succeeded (out : Outcome SaveResult) : bool :=
  match out with
  | Returned r => ok r
  | Terminated => false
  end.

(** The user gave no label: the prompt was cancelled or closed, could not be
    shown, or was confirmed with a text whose first 1023 characters, which
    are what [GetWindowTextW] copies, are all white space. *)
Definition no_label (pf : Platform) : Prop :=
  match prompt_event pf with
  | PressOK edit_text => Forall (fun c => iswspace pf c = true) (take 1023 edit_text)
  | _ => True
  end.

(** A text of white space only. *)
Definition blank (iswspace : wchar -> bool) (s : wstring) : Prop :=
  Forall (fun c => iswspace c = true) s.

(** A text that neither starts nor ends with white space. *)
Definition trimmed (iswspace : wchar -> bool) (s : wstring) : Prop :=
  match s with
  | [] => True
  | c :: _ => iswspace c = false
  end
  /\ match last s with
     | None => True
     | Some c => iswspace c = false
     end.

(** ** A sample platform, for the examples *)

Module Sample.

Definition iswspace (c : wchar) : bool :=
  (c =? 32)%N || ((9 <=? c)%N && (c <=? 13)%N).

Definition argb (c : Color) : N :=
  Z.to_N (A c * 2 ^ 24 + R c * 2 ^ 16 + G c * 2 ^ 8 + B c).

Definition red : N := Z.to_N (255 * 2 ^ 24 + 255 * 2 ^ 16).

(** A stand-in for the rasteriser, so that the examples compute: it answers
    the brush colour for every pixel it is asked for.  No property below
    depends on it; an example in which a pixel keeps its value shows that no
    call reached its row. *)
Definition raster (c : DrawCall) (x y : Z) (old : N) : N :=
  match c with
  | FillRectangle brush _ => argb brush
  | DrawString _ _ _ _ brush => argb brush
  end.

Definition bitmap (w h : Z) : Bitmap := mkBitmap w h (fun _ _ => red).

Definition encoders : EncoderEnum :=
  mkEncoderEnum 1040%N Ok
    [mkCodec 1%N (L "image/bmp"); mkCodec 2%N (L "image/jpeg"); mkCodec 3%N (L "image/png")].

Definition png_bytes : list Byte.byte := [Byte.x89; Byte.x50; Byte.x4e; Byte.x47].
Definition old_bytes : list Byte.byte := [Byte.x89; Byte.x50; Byte.x00].

Definition photo : wstring := L "C:\pics\photo.png".

(** A path of 247 characters. *)
Definition long_photo : wstring := L "C:\" ++ repeat (wc "a") 240 ++ L ".png".

(** A platform on which the program is started on the image [image], which
    exists and decodes to a red bitmap of [w] by [h] pixels, the label
    measures [textHeight] pixels high, the user does [ev] at the prompt and
    answers [choice], the PNG encoder answers [save_status], and replacing the
    original fails with [move_error], if any. *)
Definition platform (image : wstring) (w h : Z) (textHeight : Q) (ev : PromptEvent)
    (choice : Z) (enc : EncoderEnum) (save_status : Status) (move_error : option N)
  : Platform :=
  mkPlatform
    [L "piclab.exe"; image]
    (fun path => bool_decide (path = image))
    iswspace
    ev
    choice
    Ok
    (fun content => match content with
                    | Some (_ :: _) => Some (bitmap w h)
                    | _ => None
                    end)
    true
    (fun _ _ r _ => mkRectF 0 0 (Width r) textHeight)
    raster
    enc
    (fun _ _ _ old => if save_status =? Ok then (Ok, Some png_bytes) else (save_status, old))
    1000%N
    (fun _ _ _ => move_error)
    (fun _ _ => true)
    (fun e => if (e =? 5)%N then Some (L "Access is denied.") else None).

Definition disk : FS := {[ photo := old_bytes ]}.

End Sample.

(** * Properties *)

(** ** Searching a wide string *)

Section FindLastOf.
Variable chars : wstring.

Lemma free_of_app (s t : wstring) :
  free_of chars (s ++ t) <-> free_of chars s /\ free_of chars t.
Proof. unfold free_of. apply Forall_app. Qed.

Lemma find_last_of_None (s : wstring) :
  find_last_of chars s = None <-> free_of chars s.
Proof.
  unfold free_of. induction s as [|c s IH]; simpl.
  - split; [constructor | reflexivity].
  - destruct (find_last_of chars s) as [j|] eqn:E.
    + split; [discriminate |].
      intros H. apply Forall_cons in H as [_ H]. apply IH in H. discriminate.
    + destruct (wchar_in c chars) eqn:Ec.
      * split; [discriminate |].
        intros H. apply Forall_cons in H as [H _]. congruence.
      * split; [| reflexivity].
        intros _. constructor; [exact Ec | apply IH; reflexivity].
Qed.

Lemma find_last_of_app_free (s t : wstring) :
  free_of chars t -> find_last_of chars (s ++ t) = find_last_of chars s.
Proof.
  intros Ht. induction s as [|c s IH]; simpl.
  - apply find_last_of_None, Ht.
  - rewrite IH. reflexivity.
Qed.

Lemma find_last_of_app_Some (s t : wstring) (j : nat) :
  find_last_of chars t = Some j ->
  find_last_of chars (s ++ t) = Some (length s + j)%nat.
Proof.
  intros Ht. induction s as [|c s IH]; simpl.
  - exact Ht.
  - rewrite IH. reflexivity.
Qed.

Lemma find_last_of_at (s t : wstring) (c : wchar) :
  wchar_in c chars = true -> free_of chars t ->
  find_last_of chars (s ++ c :: t) = Some (length s).
Proof.
  intros Hc Ht.
  rewrite (find_last_of_app_Some s (c :: t) 0).
  - f_equal. lia.
  - simpl. apply find_last_of_None in Ht. rewrite Ht, Hc. reflexivity.
Qed.

Lemma find_last_of_Some (s : wstring) (i : nat) :
  find_last_of chars s = Some i ->
  exists c t, s = take i s ++ c :: t /\ length (take i s) = i
              /\ wchar_in c chars = true /\ free_of chars t.
Proof.
  revert i. induction s as [|c s IH]; simpl; intros i Hi; [discriminate |].
  destruct (find_last_of chars s) as [j|] eqn:E.
  - injection Hi as <-. destruct (IH j eq_refl) as (c' & t & Hs & Hl & Hc & Ht).
    exists c', t. simpl. rewrite Hl. split; [congruence | auto].
  - destruct (wchar_in c chars) eqn:Ec; [| discriminate].
    injection Hi as <-. exists c, s. simpl.
    split; [reflexivity |]. split; [reflexivity |].
    split; [exact Ec | apply find_last_of_None, E].
Qed.
End FindLastOf.

Lemma free_of_chars_app (cs ds s : wstring) :
  free_of (cs ++ ds) s <-> free_of cs s /\ free_of ds s.
Proof.
  unfold free_of. rewrite <- Forall_and. apply Forall_iff. intros c.
  unfold wchar_in. rewrite existsb_app, orb_false_iff. reflexivity.
Qed.

Lemma winsert_at (s t u : wstring) : winsert (length s) t (s ++ u) = s ++ t ++ u.
Proof.
  unfold winsert. rewrite take_app_length, drop_app_length. reflexivity.
Qed.

(** ** [PathWithSuffixBeforeExt] *)

(** A path with an extension: the name ends in a dot followed by characters
    that are neither dots nor separators. *)
Lemma PathWithSuffixBeforeExt_ext (stem ext sfx : wstring) :
  free_of (DOT ++ SEPARATORS) ext ->
  PathWithSuffixBeforeExt (stem ++ wc "." :: ext) sfx = stem ++ sfx ++ wc "." :: ext.
Proof.
  intros Hfree. apply free_of_chars_app in Hfree as [Hd Hs].
  unfold PathWithSuffixBeforeExt.
  rewrite (find_last_of_at DOT stem ext (wc ".")) by (reflexivity || exact Hd).
  assert (Hsl : find_last_of SEPARATORS (stem ++ wc "." :: ext)
                = find_last_of SEPARATORS stem).
  { apply (find_last_of_app_free SEPARATORS stem (wc "." :: ext)).
    constructor; [reflexivity | exact Hs]. }
  rewrite Hsl.
  destruct (find_last_of SEPARATORS stem) as [k|] eqn:Ek.
  - apply find_last_of_Some in Ek as (c & t & Hstem & Hlen & _ & _).
    assert (Hk : (k < length stem)%nat).
    { rewrite Hstem at 1. rewrite length_app, Hlen. simpl. lia. }
    destruct (length stem <? k)%nat eqn:Hcmp.
    + apply Nat.ltb_lt in Hcmp. lia.
    + apply winsert_at.
  - apply winsert_at.
Qed.

(** A path without a dot. *)
Lemma PathWithSuffixBeforeExt_no_dot (P sfx : wstring) :
  free_of DOT P -> PathWithSuffixBeforeExt P sfx = P ++ sfx.
Proof.
  intros H. unfold PathWithSuffixBeforeExt.
  apply find_last_of_None in H. rewrite H. reflexivity.
Qed.

Lemma separator_not_dot (c : wchar) :
  wchar_in c SEPARATORS = true -> wchar_in c DOT = false.
Proof.
  unfold wchar_in, SEPARATORS, DOT, L, wc. cbn. rewrite !orb_false_r.
  intros H. apply orb_true_iff in H as [H|H]; apply N.eqb_eq in H; subst; reflexivity.
Qed.

(** A path whose last separator has no dot after it. *)
Lemma PathWithSuffixBeforeExt_dir_dot (dir name sfx : wstring) (c : wchar) :
  wchar_in c SEPARATORS = true -> free_of DOT name ->
  PathWithSuffixBeforeExt (dir ++ c :: name) sfx = (dir ++ c :: name) ++ sfx.
Proof.
  intros Hc Hname. unfold PathWithSuffixBeforeExt.
  assert (Hd : find_last_of DOT (dir ++ c :: name) = find_last_of DOT dir).
  { apply find_last_of_app_free. constructor; [| exact Hname].
    apply separator_not_dot, Hc. }
  rewrite Hd.
  destruct (find_last_of DOT dir) as [d|] eqn:Ed; [| reflexivity].
  apply find_last_of_Some in Ed as (c' & t & Hdir & Hlen & _ & _).
  assert (Hlt : (d < length dir)%nat).
  { rewrite Hdir at 1. rewrite length_app, Hlen. simpl. lia. }
  destruct (find_last_of SEPARATORS name) as [j|] eqn:Ej.
  - rewrite (find_last_of_app_Some SEPARATORS dir (c :: name) (S j)).
    + destruct (d <? length dir + S j)%nat eqn:Hcmp; [reflexivity |].
      apply Nat.ltb_ge in Hcmp. lia.
    + simpl. rewrite Ej. reflexivity.
  - apply find_last_of_None in Ej.
    rewrite (find_last_of_at SEPARATORS dir name c Hc Ej).
    destruct (d <? length dir)%nat eqn:Hcmp; [reflexivity |].
    apply Nat.ltb_ge in Hcmp. lia.
Qed.

Lemma PathWithSuffixBeforeExt_no_ext (P sfx : wstring) :
  ~ has_extension P -> PathWithSuffixBeforeExt P sfx = P ++ sfx.
Proof.
  intros Hno.
  destruct (find_last_of DOT P) as [d|] eqn:Ed.
  - apply find_last_of_Some in Ed as (c & t & HP & _ & Hc & Ht).
    assert (c = wc ".") as ->.
    { unfold wchar_in, DOT, L, wc in Hc. cbn in Hc. rewrite orb_false_r in Hc.
      apply N.eqb_eq in Hc. exact Hc. }
    destruct (find_last_of SEPARATORS t) as [j|] eqn:Ej.
    + apply find_last_of_Some in Ej as (c' & u & Ht' & _ & Hc' & Hu).
      rewrite Ht' in HP. rewrite HP.
      replace (take d P ++ wc "." :: take j t ++ c' :: u)
        with ((take d P ++ wc "." :: take j t) ++ c' :: u)
        by (rewrite <- app_assoc; reflexivity).
      apply PathWithSuffixBeforeExt_dir_dot; [exact Hc' |].
      rewrite Ht' in Ht. apply free_of_app in Ht as [_ Ht].
      apply Forall_cons in Ht as [_ Ht]. exact Ht.
    + exfalso. apply Hno. exists (take d P), t. split; [exact HP |].
      apply free_of_chars_app. split; [exact Ht | apply find_last_of_None, Ej].
  - apply PathWithSuffixBeforeExt_no_dot, find_last_of_None, Ed.
Qed.

Lemma in_DOT (c : wchar) : wchar_in c DOT = true -> c = wc ".".
Proof.
  unfold wchar_in, DOT, L, wc. cbn. rewrite orb_false_r. apply N.eqb_eq.
Qed.

Lemma no_dot_no_extension (P : wstring) : free_of DOT P -> ~ has_extension P.
Proof.
  intros H (stem & ext & -> & _).
  apply free_of_app in H as [_ H]. apply Forall_cons in H as [H _]. discriminate.
Qed.

(** Whether a path has a final extension can be told from the positions the
    code computes. *)
Lemma has_extension_decide (P : wstring) : has_extension P \/ ~ has_extension P.
Proof.
  destruct (find_last_of DOT P) as [d|] eqn:Ed.
  - pose proof Ed as Ed'.
    apply find_last_of_Some in Ed' as (c & t & HP & Hlen & Hc & Ht).
    apply in_DOT in Hc. subst c.
    destruct (find_last_of SEPARATORS t) as [j|] eqn:Ej.
    + right. intros (stem & ext & Heq & Hext).
      apply free_of_chars_app in Hext as [Hd Hs].
      pose proof (find_last_of_at DOT stem ext (wc ".") eq_refl Hd) as Hat.
      rewrite <- Heq, Ed in Hat. injection Hat as Hat.
      rewrite Heq in HP at 1. rewrite <- Hlen in Hat.
      apply app_inj_1 in HP as [_ HP]; [| symmetry; exact Hat].
      injection HP as <-. apply find_last_of_None in Hs. congruence.
    + left. exists (take d P), t. split; [exact HP |].
      apply free_of_chars_app. split; [exact Ht | apply find_last_of_None, Ej].
  - right. apply no_dot_no_extension, find_last_of_None, Ed.
Qed.

(** C5.  [PathWithSuffixBeforeExt P S] inserts [S] just before the final dot
    of [P] when that dot comes after the last separator, and is [P ++ S]
    otherwise: for a path without a dot, for a path whose dots all lie before
    its last separator, for a path that ends in a separator; and [a.b.c]
    becomes [a.b<S>.c]. *)
Theorem suffix_before_extension_cases (P sfx : wstring) :
  (has_extension P \/ ~ has_extension P)
  /\ (forall stem ext, P = stem ++ wc "." :: ext -> free_of (DOT ++ SEPARATORS) ext ->
     PathWithSuffixBeforeExt P sfx = stem ++ sfx ++ wc "." :: ext)
  /\ (~ has_extension P -> PathWithSuffixBeforeExt P sfx = P ++ sfx)
  /\ (free_of DOT P -> PathWithSuffixBeforeExt P sfx = P ++ sfx)
  /\ (forall dir c name, P = dir ++ c :: name -> wchar_in c SEPARATORS = true ->
        free_of DOT name -> PathWithSuffixBeforeExt P sfx = P ++ sfx)
  /\ (forall dir c, P = dir ++ [c] -> wchar_in c SEPARATORS = true ->
        PathWithSuffixBeforeExt P sfx = P ++ sfx)
  /\ (forall a b c, P = a ++ wc "." :: b ++ wc "." :: c ->
        free_of (DOT ++ SEPARATORS) c ->
        PathWithSuffixBeforeExt P sfx = a ++ wc "." :: b ++ sfx ++ wc "." :: c).
Proof.
  split; [apply has_extension_decide |]. repeat split.
  - intros stem ext -> H. apply PathWithSuffixBeforeExt_ext, H.
  - apply PathWithSuffixBeforeExt_no_ext.
  - apply PathWithSuffixBeforeExt_no_dot.
  - intros dir c name -> Hc H. apply PathWithSuffixBeforeExt_dir_dot; assumption.
  - intros dir c -> Hc. apply PathWithSuffixBeforeExt_dir_dot; [exact Hc | constructor].
  - intros a b c -> H.
    replace (a ++ wc "." :: b ++ wc "." :: c) with ((a ++ wc "." :: b) ++ wc "." :: c)
      by (rewrite <- app_assoc; reflexivity).
    rewrite PathWithSuffixBeforeExt_ext by exact H.
    rewrite <- app_assoc. reflexivity.
Qed.

Lemma suffix_before_extension_cases_witness :
  PathWithSuffixBeforeExt (L "C:\a.b\c.d.png") (L "_labeled") = L "C:\a.b\c.d_labeled.png"
  /\ PathWithSuffixBeforeExt (L "C:\a.b\noext") (L "_labeled") = L "C:\a.b\noext_labeled"
  /\ PathWithSuffixBeforeExt (L "C:\pics.d\") (L "_labeled") = L "C:\pics.d\_labeled".
Proof.
  split; [| split].
  - apply (proj1 (proj2 (suffix_before_extension_cases (L "C:\a.b\c.d.png") (L "_labeled")))
             (L "C:\a.b\c.d") (L "png")).
    + reflexivity.
    + repeat constructor.
  - apply (proj1 (proj2 (proj2 (proj2 (proj2
             (suffix_before_extension_cases (L "C:\a.b\noext") (L "_labeled"))))))
             (L "C:\a.b") (wc "\") (L "noext")).
    + reflexivity.
    + reflexivity.
    + repeat constructor.
  - apply (proj1 (proj2 (proj2 (proj2 (proj2 (proj2
             (suffix_before_extension_cases (L "C:\pics.d\") (L "_labeled")))))))
             (L "C:\pics.d") (wc "\")); reflexivity.
Defined.

(** ** Inserting two suffixes in a row *)

Lemma no_extension_app (P sfx : wstring) :
  ~ has_extension P -> free_of DOT sfx -> ~ has_extension (P ++ sfx).
Proof.
  intros Hno Hsfx (stem & ext & Heq & Hext).
  apply app_eq_app in Heq as [l [[HP Hr] | [Hstem Hs]]].
  - destruct l as [|c l].
    + simpl in Hr. rewrite <- Hr in Hsfx.
      apply Forall_cons in Hsfx as [Hdot _]. discriminate.
    + simpl in Hr. injection Hr as <- ->.
      apply Hno. exists stem, l. split; [exact HP |].
      apply free_of_app in Hext as [Hl _]. exact Hl.
  - rewrite Hs in Hsfx. apply free_of_app in Hsfx as [_ Hsfx].
    apply Forall_cons in Hsfx as [Hdot _]. discriminate.
Qed.

(** A path whose last component holds no dot has no final extension. *)
Lemma last_component_no_extension (dir name : wstring) (c : wchar) :
  wchar_in c SEPARATORS = true -> free_of DOT name -> ~ has_extension (dir ++ c :: name).
Proof.
  intros Hc Hname (stem & ext & Heq & Hext).
  apply free_of_chars_app in Hext as [Hdot Hsep].
  apply app_eq_app in Heq as [l [[Hl Hr] | [Hl Hr]]].
  - destruct l as [|k l]; simpl in Hr.
    + injection Hr as <- _. apply separator_not_dot in Hc. discriminate Hc.
    + injection Hr as _ ->. apply free_of_app in Hsep as [_ Hsep].
      apply Forall_cons in Hsep as [H _]. rewrite Hc in H. discriminate H.
  - destruct l as [|k l]; simpl in Hr.
    + injection Hr as -> _. apply separator_not_dot in Hc. discriminate Hc.
    + injection Hr as _ ->. apply free_of_app in Hname as [_ Hname].
      apply Forall_cons in Hname as [H _]. discriminate H.
Qed.

(** C7, as the code has it.  When [P] has a final extension, inserting [S1]
    and then [S2] is [P] with [S1 ++ S2] before that extension.  When [P] has
    none, the first insertion gives [P ++ S1]: if that has no final extension
    either, the result is [P ++ S1 ++ S2]; if it has one, brought by [S1],
    [S2] goes before it. *)
Theorem suffix_before_extension_twice (P S1 S2 : wstring) :
  (forall stem ext, P = stem ++ wc "." :: ext -> free_of (DOT ++ SEPARATORS) ext ->
     PathWithSuffixBeforeExt (PathWithSuffixBeforeExt P S1) S2
     = stem ++ (S1 ++ S2) ++ wc "." :: ext)
  /\ (~ has_extension P -> ~ has_extension (P ++ S1) ->
      PathWithSuffixBeforeExt (PathWithSuffixBeforeExt P S1) S2 = P ++ (S1 ++ S2))
  /\ (~ has_extension P ->
      forall stem ext, P ++ S1 = stem ++ wc "." :: ext -> free_of (DOT ++ SEPARATORS) ext ->
        PathWithSuffixBeforeExt (PathWithSuffixBeforeExt P S1) S2
        = stem ++ S2 ++ wc "." :: ext).
Proof.
  split; [| split].
  - intros stem ext -> Hext.
    rewrite PathWithSuffixBeforeExt_ext by exact Hext.
    replace (stem ++ S1 ++ wc "." :: ext) with ((stem ++ S1) ++ wc "." :: ext)
      by (rewrite <- app_assoc; reflexivity).
    rewrite PathWithSuffixBeforeExt_ext by exact Hext.
    rewrite <- !app_assoc. reflexivity.
  - intros Hno Hno1.
    rewrite (PathWithSuffixBeforeExt_no_ext P S1 Hno).
    rewrite PathWithSuffixBeforeExt_no_ext by exact Hno1.
    rewrite <- app_assoc. reflexivity.
  - intros Hno stem ext Heq Hext.
    rewrite (PathWithSuffixBeforeExt_no_ext P S1 Hno), Heq.
    apply PathWithSuffixBeforeExt_ext, Hext.
Qed.

Lemma suffix_before_extension_twice_witness :
  PathWithSuffixBeforeExt (PathWithSuffixBeforeExt (L "C:\a\photo.png") (L "_v2")) (L "_labeled")
  = L "C:\a\photo_v2_labeled.png"
  /\ PathWithSuffixBeforeExt (PathWithSuffixBeforeExt (L "noext") (L ".d/x")) (L "_labeled")
     = L "noext.d/x_labeled"
  /\ PathWithSuffixBeforeExt (PathWithSuffixBeforeExt (L "noext") (L ".v2")) (L "_labeled")
     = L "noext_labeled.v2".
Proof.
  split; [| split].
  - apply (proj1 (suffix_before_extension_twice (L "C:\a\photo.png") (L "_v2") (L "_labeled"))
             (L "C:\a\photo") (L "png")).
    + reflexivity.
    + repeat constructor.
  - apply (proj1 (proj2 (suffix_before_extension_twice (L "noext") (L ".d/x") (L "_labeled")))).
    + apply no_dot_no_extension. repeat constructor.
    + change (L "noext" ++ L ".d/x") with (L "noext.d" ++ wc "/" :: L "x").
      apply last_component_no_extension; [reflexivity | repeat constructor].
  - apply (proj2 (proj2 (suffix_before_extension_twice (L "noext") (L ".v2") (L "_labeled")))
             ltac:(apply no_dot_no_extension; repeat constructor) (L "noext") (L "v2")).
    + reflexivity.
    + repeat constructor.
Defined.

(** C7 as stated fails: [noext] has no extension, and inserting [.v2] and then
    [_labeled] does not give [noext.v2_labeled]. *)
Lemma suffix_before_extension_twice_counterexample :
  ~ has_extension (L "noext")
  /\ PathWithSuffixBeforeExt (PathWithSuffixBeforeExt (L "noext") (L ".v2")) (L "_labeled")
     = L "noext_labeled.v2"
  /\ PathWithSuffixBeforeExt (PathWithSuffixBeforeExt (L "noext") (L ".v2")) (L "_labeled")
     <> L "noext" ++ (L ".v2" ++ L "_labeled").
Proof.
  split; [| split].
  - apply no_dot_no_extension. repeat constructor.
  - reflexivity.
  - discriminate.
Qed.

(** ** Decimal text *)

Lemma L_inj (s t : string) : L s = L t -> s = t.
Proof.
  unfold L. intros H.
  rewrite <- (string_of_list_ascii_of_string s), <- (string_of_list_ascii_of_string t).
  f_equal. revert H.
  generalize (list_ascii_of_string s) (list_ascii_of_string t).
  induction l as [|a l IH]; intros [|b l']; simpl; try discriminate; [reflexivity |].
  intros H. injection H as Hab Hl. f_equal; [| apply IH, Hl].
  rewrite <- (ascii_N_embedding a), <- (ascii_N_embedding b).
  unfold wc in Hab. rewrite Hab. reflexivity.
Qed.

Lemma N_to_uint_nonnil (n : N) : N.to_uint n <> Decimal.Nil.
Proof.
  destruct n as [|p]; simpl; [discriminate | apply DecimalPos.Unsigned.to_uint_nonnil].
Qed.

Lemma to_wstring_inj (n m : N) : to_wstring n = to_wstring m -> n = m.
Proof.
  unfold to_wstring. intros H. apply L_inj in H.
  apply Unsigned.to_uint_inj.
  assert (Hn := NilZero.usu _ (N_to_uint_nonnil n)).
  assert (Hm := NilZero.usu _ (N_to_uint_nonnil m)).
  rewrite H in Hn. congruence.
Qed.

Lemma string_of_uint_digits (d : Decimal.uint) :
  Forall (fun c => is_digit c = true) (L (NilEmpty.string_of_uint d)).
Proof. induction d; simpl; constructor; (reflexivity || assumption). Qed.

Lemma to_wstring_digits (n : N) : Forall (fun c => is_digit c = true) (to_wstring n).
Proof.
  unfold to_wstring, NilZero.string_of_uint.
  assert (Hn := N_to_uint_nonnil n).
  destruct (N.to_uint n) eqn:E; [congruence | ..]; rewrite <- E; apply string_of_uint_digits.
Qed.

Lemma digit_not_path_char (c : wchar) :
  is_digit c = true -> wchar_in c (DOT ++ SEPARATORS) = false.
Proof.
  unfold is_digit, wchar_in, SEPARATORS, DOT, L, wc. cbn. intros H.
  apply andb_true_iff in H as [H1 H2].
  apply N.leb_le in H1. apply N.leb_le in H2.
  repeat (apply orb_false_iff; split); try reflexivity; apply N.eqb_neq; lia.
Qed.

Lemma to_wstring_free (n : N) : free_of (DOT ++ SEPARATORS) (to_wstring n).
Proof.
  unfold free_of. eapply Forall_impl; [apply to_wstring_digits |].
  intros c. apply digit_not_path_char.
Qed.

(** ** The CRT path functions *)

Lemma split_drive_spec (path drive rest : wstring) :
  split_drive path = (drive, rest) ->
  path = drive ++ rest
  /\ ((drive = [] /\ no_drive rest = true) \/ exists c, drive = [c; wc ":"]).
Proof.
  unfold split_drive, no_drive.
  destruct path as [|c [|colon path]]; try (intros [= <- <-]; auto).
  destruct (N.eqb_spec colon (wc ":")) as [->|Hne]; intros [= <- <-].
  - split; [reflexivity | right; eauto].
  - split; [reflexivity | left]. split; [reflexivity |].
    apply negb_true_iff, N.eqb_neq, Hne.
Qed.

Lemma split_dir_spec (rest dir name : wstring) :
  split_dir rest = (dir, name) ->
  rest = dir ++ name /\ free_of SEPARATORS name
  /\ (dir = [] \/ exists d c, dir = d ++ [c] /\ wchar_in c SEPARATORS = true).
Proof.
  unfold split_dir. destruct (find_last_of SEPARATORS rest) as [i|] eqn:E.
  - intros [= <- <-]. split; [symmetry; apply take_drop |].
    apply find_last_of_Some in E as (c & t & Hrest & Hlen & Hc & Ht).
    assert (Htake : take (S i) rest = take i rest ++ [c]).
    { rewrite Hrest at 1. rewrite <- Hlen at 1.
      replace (S (length (take i rest))) with (length (take i rest ++ [c]))
        by (rewrite length_app; simpl; lia).
      replace (take i rest ++ c :: t) with ((take i rest ++ [c]) ++ t)
        by (rewrite <- app_assoc; reflexivity).
      apply take_app_length. }
    assert (Hdrop : drop (S i) rest = t).
    { rewrite Hrest at 1. rewrite <- Hlen at 1.
      replace (S (length (take i rest))) with (length (take i rest ++ [c]))
        by (rewrite length_app; simpl; lia).
      replace (take i rest ++ c :: t) with ((take i rest ++ [c]) ++ t)
        by (rewrite <- app_assoc; reflexivity).
      apply drop_app_length. }
    rewrite Hdrop. split; [exact Ht |]. right. eauto.
  - intros [= <- <-]. split; [reflexivity |].
    split; [apply find_last_of_None, E | left; reflexivity].
Qed.

Lemma split_ext_spec (name fname ext : wstring) :
  free_of SEPARATORS name ->
  split_ext name = (fname, ext) ->
  name = fname ++ ext /\ free_of SEPARATORS fname
  /\ ((ext = [] /\ free_of DOT fname)
      \/ exists e, ext = wc "." :: e /\ free_of (DOT ++ SEPARATORS) e).
Proof.
  intros Hsep. unfold split_ext. destruct (find_last_of DOT name) as [d|] eqn:E.
  - intros [= <- <-]. split; [symmetry; apply take_drop |].
    rewrite <- (take_drop d name) in Hsep. apply free_of_app in Hsep as [Hf He].
    split; [exact Hf |]. right.
    apply find_last_of_Some in E as (c & t & Hname & Hlen & Hc & Ht).
    apply in_DOT in Hc. subst c.
    assert (Hdrop : drop d name = wc "." :: t).
    { rewrite Hname at 1. rewrite <- Hlen at 1. apply drop_app_length. }
    rewrite Hdrop in *. exists t. split; [reflexivity |].
    apply free_of_chars_app. split; [exact Ht |].
    apply Forall_cons in He as [_ He]. exact He.
  - intros [= <- <-]. rewrite app_nil_r. split; [reflexivity |].
    split; [exact Hsep |]. left. split; [reflexivity | apply find_last_of_None, E].
Qed.

Lemma wsplitpath_well_split (path : wstring) :
  well_split (wsplitpath path) /\ join (wsplitpath path) = path.
Proof.
  unfold wsplitpath, join.
  destruct (split_drive path) as [drive rest] eqn:Ed.
  destruct (split_dir rest) as [dir name] eqn:Edir.
  destruct (split_ext name) as [fname ext] eqn:Eext.
  apply split_drive_spec in Ed as [Hpath Hdrive].
  apply split_dir_spec in Edir as (Hrest & Hname & Hdir).
  apply (split_ext_spec _ _ _ Hname) in Eext as (Hn & Hf & He).
  simpl. split.
  - constructor; simpl.
    + destruct Hdrive as [[-> _]|H]; auto.
    + intros ->. destruct Hdrive as [[_ H]|[c H]]; [| discriminate].
      rewrite <- Hn, <- Hrest. exact H.
    + exact Hdir.
    + exact Hf.
    + exact He.
  - rewrite <- Hn, <- Hrest. symmetry. exact Hpath.
Qed.

Lemma well_split_cleared : well_split (mkSplitPath [] [] [] []).
Proof.
  constructor; simpl;
    [left; reflexivity | reflexivity | left; reflexivity | constructor |].
  left. split; [reflexivity | constructor].
Qed.

Lemma wsplitpath_s_well_split (path : wstring) : well_split (wsplitpath_s path).
Proof.
  unfold wsplitpath_s.
  destruct (_ && _); [apply wsplitpath_well_split | apply well_split_cleared].
Qed.

(** With what [_wsplitpath_s] hands out, [_wmakepath_s] adds neither a colon
    nor a separator. *)
Lemma wmakepath_folder (sp : SplitPath) :
  well_split sp -> wmakepath (sp_drive sp) (sp_dir sp) (L "") (L "") = sp_drive sp ++ sp_dir sp.
Proof.
  intros [Hdrive _ Hdir _ _]. unfold wmakepath.
  change (L "") with (@nil N). rewrite !app_nil_r.
  f_equal.
  - destruct Hdrive as [->|[c ->]]; reflexivity.
  - destruct Hdir as [->|(d & c & -> & Hc)]; [reflexivity |].
    rewrite last_snoc. cbv beta iota. rewrite Hc. reflexivity.
Qed.

(** Splitting undoes joining. *)
Lemma wsplitpath_join (sp : SplitPath) : well_split sp -> wsplitpath (join sp) = sp.
Proof.
  destruct sp as [drive dir fname ext]. intros [Hdrive Hnd Hdir Hfname Hext].
  cbn [sp_drive sp_dir sp_fname sp_ext] in *.
  unfold wsplitpath, join. cbn [sp_drive sp_dir sp_fname sp_ext].
  assert (Hname : free_of SEPARATORS (fname ++ ext)).
  { apply free_of_app. split; [exact Hfname |].
    destruct Hext as [[-> _]|(e & -> & He)]; [constructor |].
    apply free_of_chars_app in He as [_ He]. constructor; [reflexivity | exact He]. }
  assert (E1 : split_drive (drive ++ dir ++ fname ++ ext) = (drive, dir ++ fname ++ ext)).
  { destruct Hdrive as [->|[c ->]].
    - specialize (Hnd eq_refl).
      change ([] ++ dir ++ fname ++ ext) with (dir ++ fname ++ ext).
      unfold split_drive. unfold no_drive in Hnd.
      destruct (dir ++ fname ++ ext) as [|a [|b r]]; try reflexivity.
      apply negb_true_iff in Hnd. rewrite Hnd. reflexivity.
    - reflexivity. }
  rewrite E1.
  assert (E2 : split_dir (dir ++ fname ++ ext) = (dir, fname ++ ext)).
  { unfold split_dir. destruct Hdir as [->|(d & c & -> & Hc)].
    - simpl. apply find_last_of_None in Hname. rewrite Hname. reflexivity.
    - rewrite <- (app_assoc d [c]). simpl.
      rewrite (find_last_of_at SEPARATORS d (fname ++ ext) c Hc Hname).
      replace (d ++ c :: fname ++ ext) with ((d ++ [c]) ++ fname ++ ext)
        by (rewrite <- app_assoc; reflexivity).
      replace (S (length d)) with (length (d ++ [c]))
        by (rewrite length_app; simpl; lia).
      rewrite take_app_length, drop_app_length. reflexivity. }
  rewrite E2.
  assert (E3 : split_ext (fname ++ ext) = (fname, ext)).
  { unfold split_ext. destruct Hext as [[-> Hf]|(e & -> & He)].
    - rewrite app_nil_r. apply find_last_of_None in Hf. rewrite Hf. reflexivity.
    - apply free_of_chars_app in He as [He _].
      rewrite (find_last_of_at DOT fname e (wc ".") eq_refl He).
      rewrite take_app_length, drop_app_length. reflexivity. }
  rewrite E3. reflexivity.
Qed.

Lemma no_drive_temp (a ext rest : wstring) :
  no_drive (a ++ ext) = true -> no_drive (a ++ L "_label_tmp_" ++ rest) = true.
Proof.
  destruct a as [|c1 [|c2 a]]; simpl; auto.
Qed.

Lemma temp_parts_well_split (sp : SplitPath) (tick : N) :
  well_split sp -> well_split (temp_parts sp tick).
Proof.
  intros [Hdrive Hnd Hdir Hfname Hext].
  constructor; cbn [temp_parts sp_drive sp_dir sp_fname sp_ext].
  - exact Hdrive.
  - intros Hd. specialize (Hnd Hd). rewrite app_assoc in Hnd.
    replace (sp_dir sp ++ (sp_fname sp ++ L "_label_tmp_" ++ to_wstring tick) ++ L ".png")
      with ((sp_dir sp ++ sp_fname sp) ++ L "_label_tmp_" ++ (to_wstring tick ++ L ".png"))
      by (rewrite <- !app_assoc; reflexivity).
    eapply no_drive_temp, Hnd.
  - exact Hdir.
  - apply free_of_app. split; [exact Hfname |].
    apply free_of_app. split; [repeat constructor |].
    pose proof (to_wstring_free tick) as H.
    apply free_of_chars_app in H as [_ H]. exact H.
  - right. exists (L "png"). split; [reflexivity | repeat constructor].
Qed.

(** What [GetTempSiblingPath] returns, whether or not the parts of the path
    fit the buffers of [_wsplitpath_s]. *)
Lemma GetTempSiblingPath_shape (P : wstring) (tick : N) (q : wstring) :
  GetTempSiblingPath P tick = Some q ->
  q = join (temp_parts (wsplitpath_s P) tick)
  /\ wsplitpath q = temp_parts (wsplitpath_s P) tick
  /\ fits q MAX_PATH = true.
Proof.
  unfold GetTempSiblingPath, wmakepath_s, swprintf_s.
  pose proof (wsplitpath_s_well_split P) as Hws.
  rewrite (wmakepath_folder _ Hws).
  destruct (fits (sp_drive _ ++ sp_dir _) MAX_PATH); cbv beta iota; [| discriminate].
  intros H.
  assert (Hq : (sp_drive (wsplitpath_s P) ++ sp_dir (wsplitpath_s P))
               ++ sp_fname (wsplitpath_s P) ++ L "_label_tmp_" ++ to_wstring tick ++ L ".png"
               = join (temp_parts (wsplitpath_s P) tick)).
  { unfold join, temp_parts. simpl. rewrite <- !app_assoc. reflexivity. }
  rewrite Hq in H. destruct (fits _ MAX_PATH) eqn:Hfit; [| discriminate].
  injection H as <-. split; [reflexivity |]. split; [| exact Hfit].
  apply wsplitpath_join, temp_parts_well_split, Hws.
Qed.

(** ** [GetTempSiblingPath] *)

Lemma fits_length (s : wstring) (size : nat) : fits s size = true <-> (length s < size)%nat.
Proof. unfold fits. apply Nat.ltb_lt. Qed.

Lemma well_split_drive_fits (sp : SplitPath) :
  well_split sp -> fits (sp_drive sp) _MAX_DRIVE = true.
Proof. intros [[->|[c ->]] _ _ _ _]; reflexivity. Qed.

Lemma wsplitpath_s_fits (P : wstring) :
  fits (sp_dir (wsplitpath P)) _MAX_DIR && fits (sp_fname (wsplitpath P)) _MAX_FNAME
    && fits (sp_ext (wsplitpath P)) _MAX_EXT = true ->
  wsplitpath_s P = wsplitpath P.
Proof.
  intros H. unfold wsplitpath_s.
  rewrite (well_split_drive_fits _ (proj1 (wsplitpath_well_split P))).
  apply andb_true_iff in H as [H H3]. apply andb_true_iff in H as [H1 H2].
  rewrite H1, H2, H3. reflexivity.
Qed.

Lemma temp_parts_tick_inj (sp : SplitPath) (t1 t2 : N) :
  join (temp_parts sp t1) = join (temp_parts sp t2) -> t1 = t2.
Proof.
  unfold join, temp_parts. cbn [sp_drive sp_dir sp_fname sp_ext].
  rewrite <- !app_assoc. intros H.
  do 4 apply app_inv_head in H. apply app_inv_tail in H.
  apply to_wstring_inj, H.
Qed.

(** C6, as the code has it.  For a path whose parts fit the buffers of the
    CRT, [GetTempSiblingPath] returns the drive and directory of the path
    followed by [<stem>_label_tmp_<token>.png], the token being the decimal
    text of the tick count read at the call; another call on the same path
    returns the same sibling exactly when it reads the same tick count. *)
Theorem temp_sibling_path (P : wstring) (tick : N) :
  let sp := wsplitpath P in
  fits (sp_dir sp) _MAX_DIR && fits (sp_fname sp) _MAX_FNAME
    && fits (sp_ext sp) _MAX_EXT = true ->
  fits (join (temp_parts sp tick)) MAX_PATH = true ->
  GetTempSiblingPath P tick = Some (join (temp_parts sp tick))
  /\ wsplitpath (join (temp_parts sp tick)) = temp_parts sp tick
  /\ forall tick', GetTempSiblingPath P tick' = Some (join (temp_parts sp tick))
                   <-> tick' = tick.
Proof.
  intros sp Hparts Hfit.
  pose proof (wsplitpath_s_fits P Hparts) as Hs.
  pose proof (proj1 (wsplitpath_well_split P)) as Hws. fold sp in Hws.
  assert (Hret : GetTempSiblingPath P tick = Some (join (temp_parts sp tick))).
  { unfold GetTempSiblingPath, wmakepath_s, swprintf_s. rewrite Hs. fold sp.
    rewrite (wmakepath_folder sp Hws).
    assert (Hfolder : fits (sp_drive sp ++ sp_dir sp) MAX_PATH = true).
    { apply fits_length. apply fits_length in Hfit.
      unfold join, temp_parts in Hfit. cbn [sp_drive sp_dir sp_fname sp_ext] in Hfit.
      rewrite !length_app in Hfit. rewrite length_app. lia. }
    rewrite Hfolder.
    replace ((sp_drive sp ++ sp_dir sp) ++ sp_fname sp ++ L "_label_tmp_"
             ++ to_wstring tick ++ L ".png")
      with (join (temp_parts sp tick))
      by (unfold join, temp_parts; cbn [sp_drive sp_dir sp_fname sp_ext];
          rewrite <- !app_assoc; reflexivity).
    rewrite Hfit. reflexivity. }
  split; [exact Hret |]. split.
  - apply wsplitpath_join, temp_parts_well_split, Hws.
  - intros tick'. split.
    + intros H. apply GetTempSiblingPath_shape in H as (H & _ & _).
      rewrite Hs in H. fold sp in H. symmetry in H.
      apply temp_parts_tick_inj in H. exact H.
    + intros ->. exact Hret.
Qed.

Lemma temp_sibling_path_witness :
  GetTempSiblingPath (L "C:\pics\photo.png") 1000
  = Some (L "C:\pics\photo_label_tmp_1000.png")
  /\ wsplitpath (L "C:\pics\photo_label_tmp_1000.png")
     = mkSplitPath (L "C:") (L "\pics\") (L "photo_label_tmp_1000") (L ".png")
  /\ forall tick', GetTempSiblingPath (L "C:\pics\photo.png") tick'
                   = Some (L "C:\pics\photo_label_tmp_1000.png") <-> tick' = 1000%N.
Proof.
  exact (temp_sibling_path (L "C:\pics\photo.png") 1000 eq_refl eq_refl).
Defined.

(** C6 as stated fails: two successive calls that read the same tick count
    return the same path.  And for a path of 247 characters the sibling does
    not fit the buffer of [MAX_PATH] characters: no path is returned. *)
Lemma temp_sibling_path_counterexample :
  ~ (forall P t1 t2 q1 q2, successive_ticks t1 t2 ->
       GetTempSiblingPath P t1 = Some q1 -> GetTempSiblingPath P t2 = Some q2 ->
       q1 <> q2)
  /\ length Sample.long_photo = 247%nat
  /\ GetTempSiblingPath Sample.long_photo 1000 = None.
Proof.
  split; [| split; reflexivity].
  intros H.
  apply (H (L "C:\pics\photo.png") 1000%N 1000%N
           (L "C:\pics\photo_label_tmp_1000.png") (L "C:\pics\photo_label_tmp_1000.png")).
  - unfold successive_ticks. lia.
  - reflexivity.
  - reflexivity.
  - reflexivity.
Qed.

(** The temporary sibling is never the path itself. *)
Lemma temp_sibling_differs (P : wstring) (tick : N) (q : wstring) :
  GetTempSiblingPath P tick = Some q -> q <> P.
Proof.
  intros H ->. apply GetTempSiblingPath_shape in H as (Hq & Hsplit & Hfit).
  unfold wsplitpath_s in *.
  destruct (_ && _) eqn:Hfits.
  - apply (f_equal sp_fname) in Hsplit. unfold temp_parts in Hsplit.
    cbn [sp_fname] in Hsplit. apply (f_equal length) in Hsplit.
    rewrite !length_app in Hsplit.
    change (length (L "_label_tmp_")) with 11%nat in Hsplit. lia.
  - rewrite Hsplit in Hfits. unfold temp_parts in Hfits.
    cbn [sp_drive sp_dir sp_fname sp_ext] in Hfits.
    change (fits [] _MAX_DRIVE) with true in Hfits.
    change (fits [] _MAX_DIR) with true in Hfits.
    change (fits (L ".png") _MAX_EXT) with true in Hfits.
    rewrite andb_true_r in Hfits. cbn [andb] in Hfits.
    rewrite Hq in Hfit. apply fits_length in Hfit.
    unfold join, temp_parts in Hfit. cbn [sp_drive sp_dir sp_fname sp_ext] in Hfit.
    rewrite !length_app in Hfit. change (length (L ".png")) with 4%nat in Hfit.
    assert (Hlt : fits ([] ++ L "_label_tmp_" ++ to_wstring tick) _MAX_FNAME = true).
    { apply fits_length. unfold _MAX_FNAME. unfold MAX_PATH in Hfit.
      rewrite !length_app. simpl length in *. lia. }
    congruence.
Qed.

(** ** [GetEncoderClsid] *)

Lemma wcscmp_eq_true (a b : wstring) : wcscmp_eq a b = true <-> a = b.
Proof. unfold wcscmp_eq. apply bool_decide_eq_true. Qed.



Lemma int_of_UINT_small (j : Z) : 0 <= j < 2 ^ 31 -> int_of_UINT j = j.
Proof.
  intros H. unfold int_of_UINT. rewrite Z.mod_small by lia.
  destruct (j <? 2 ^ 31) eqn:E; [reflexivity | apply Z.ltb_ge in E; lia].
Qed.





(** ** Floating point: rounding to nearest *)

Section FloatFacts.
Import Float.
Local Open Scope Q_scope.

Lemma pow2_pos (k : Z) : 0 < pow2 k.
Proof. apply Qpower_0_lt. reflexivity. Qed.

Lemma pow2_add (a b : Z) : pow2 (a + b) == pow2 a * pow2 b.
Proof. apply Qpower_plus. discriminate. Qed.

Lemma pow2_le (a b : Z) : (a <= b)%Z -> pow2 a <= pow2 b.
Proof. intros H. apply Qpower_le_compat_l; [exact H | discriminate]. Qed.

Lemma pow2_lt (a b : Z) : (a < b)%Z -> pow2 a < pow2 b.
Proof. intros H. apply Qpower_lt_compat_l; [exact H | reflexivity]. Qed.

Lemma pow2_Z (k : Z) : (0 <= k)%Z -> pow2 k == inject_Z (2 ^ k).
Proof. intros H. unfold pow2. rewrite Zpower_Qpower by exact H. reflexivity. Qed.

Lemma pow2_succ (k : Z) : pow2 (k + 1) == 2 * pow2 k.
Proof. rewrite pow2_add. change (pow2 1) with 2. ring. Qed.

Lemma pow2_opp (k : Z) : pow2 (- k) * pow2 k == 1.
Proof. rewrite <- pow2_add. replace (- k + k)%Z with 0%Z by lia. reflexivity. Qed.

Lemma Z_log2_bounds (n : Z) : (0 < n)%Z ->
  inject_Z (2 ^ Z.log2 n) <= inject_Z n /\ inject_Z n < 2 * inject_Z (2 ^ Z.log2 n).
Proof.
  intros Hn. destruct (Z.log2_spec n Hn) as [Hlo Hhi].
  rewrite Z.pow_succ_r in Hhi by apply Z.log2_nonneg.
  split.
  - rewrite <- Zle_Qle. exact Hlo.
  - change 2 with (inject_Z 2). rewrite <- inject_Z_mult, <- Zlt_Qlt. exact Hhi.
Qed.

Lemma ilog2_spec (x : Q) : 0 < x -> pow2 (ilog2 x) <= x /\ x < pow2 (ilog2 x + 1).
Proof.
  intros Hx. unfold ilog2.
  set (a := Z.log2 (Qnum x)). set (b := Z.log2 (Zpos (Qden x))).
  assert (Hn : (0 < Qnum x)%Z).
  { unfold Qlt in Hx. simpl in Hx. lia. }
  destruct (Z_log2_bounds (Qnum x) Hn) as [Ha1 Ha2]. fold a in Ha1, Ha2.
  destruct (Z_log2_bounds (Zpos (Qden x)) eq_refl) as [Hb1 Hb2]. fold b in Hb1, Hb2.
  assert (Ha0 : (0 <= a)%Z) by apply Z.log2_nonneg.
  assert (Hb0 : (0 <= b)%Z) by apply Z.log2_nonneg.
  rewrite <- !pow2_Z in Ha1, Ha2, Hb1, Hb2 by assumption.
  assert (HA : 0 < pow2 a) by apply pow2_pos.
  assert (HB : 0 < pow2 b) by apply pow2_pos.
  assert (Hd : 0 < inject_Z (Zpos (Qden x))) by reflexivity.
  assert (Hxd : x * inject_Z (Zpos (Qden x)) == inject_Z (Qnum x)).
  { destruct x as [n d]. cbn [Qnum Qden]. rewrite (Qmake_Qdiv n d). field.
    intros H. discriminate H. }
  assert (Hab : pow2 (a - b) * pow2 b == pow2 a).
  { rewrite <- pow2_add. replace (a - b + b)%Z with a by lia. reflexivity. }
  assert (Hhi : x < pow2 (a - b + 1)).
  { rewrite pow2_succ. nra. }
  assert (Hlo : pow2 (a - b - 1) <= x).
  { assert (H2 : 2 * pow2 (a - b - 1) == pow2 (a - b)).
    { rewrite <- pow2_succ. replace (a - b - 1 + 1)%Z with (a - b)%Z by lia. reflexivity. }
    assert (0 < pow2 (a - b - 1)) by apply pow2_pos. nra. }
  destruct (Qle_bool (pow2 (a - b)) x) eqn:Hc.
  - apply Qle_bool_iff in Hc. split; assumption.
  - assert (Hlt : x < pow2 (a - b)).
    { apply Qnot_le_lt. intros H. apply Qle_bool_iff in H. congruence. }
    replace (a - b - 1 + 1)%Z with (a - b)%Z by lia. split; assumption.
Qed.

Lemma ilog2_unique (x : Q) (e : Z) : pow2 e <= x -> x < pow2 (e + 1) -> ilog2 x = e.
Proof.
  intros Hlo Hhi.
  assert (Hx : 0 < x) by (eapply Qlt_le_trans; [apply pow2_pos | exact Hlo]).
  destruct (ilog2_spec x Hx) as [Hlo' Hhi'].
  assert (H1 : (e < ilog2 x + 1)%Z).
  { apply (Qpower_lt_compat_l_inv 2); [| reflexivity]. fold (pow2 e) (pow2 (ilog2 x + 1)). lra. }
  assert (H2 : (ilog2 x < e + 1)%Z).
  { apply (Qpower_lt_compat_l_inv 2); [| reflexivity]. fold (pow2 (ilog2 x)) (pow2 (e + 1)). lra. }
  lia.
Qed.

(** ** Rounding to the nearest integer *)

Lemma nearest_even_spec (m : Q) :
  let f := Qfloor m in
  let r := m - inject_Z f in
  0 <= r /\ r < 1
  /\ ((r < 1 # 2 /\ nearest_even m = f)
      \/ (1 # 2 < r /\ nearest_even m = (f + 1)%Z)
      \/ (r == 1 # 2 /\ nearest_even m = if Z.even f then f else (f + 1)%Z)).
Proof.
  intros f r. pose proof (Qfloor_le m) as Hlo. pose proof (Qlt_floor m) as Hhi.
  fold f in Hlo, Hhi. rewrite inject_Z_plus in Hhi. change (inject_Z 1) with 1 in Hhi.
  split; [subst r; lra |]. split; [subst r; lra |].
  unfold nearest_even. fold f. fold r.
  destruct (Qcompare r (1 # 2)) eqn:Hc.
  - right; right. apply Qeq_alt in Hc. auto.
  - left. apply Qlt_alt in Hc. auto.
  - right; left. apply Qgt_alt in Hc. auto.
Qed.

Lemma nearest_even_near (m : Q) :
  inject_Z (nearest_even m) - (1 # 2) <= m /\ m <= inject_Z (nearest_even m) + (1 # 2).
Proof.
  destruct (nearest_even_spec m) as (H0 & H1 & [[Hr ->] | [[Hr ->] | [Hr ->]]]);
    try destruct (Z.even (Qfloor m)); rewrite ?inject_Z_plus; change (inject_Z 1) with 1; lra.
Qed.

Lemma nearest_even_mono (m m' : Q) : m <= m' -> (nearest_even m <= nearest_even m')%Z.
Proof.
  intros Hm. pose proof (Qfloor_resp_le m m' Hm) as Hf.
  destruct (nearest_even_spec m) as (H0 & H1 & Hk).
  destruct (nearest_even_spec m') as (H0' & H1' & Hk').
  cbv zeta in *.
  destruct (Z.eq_dec (Qfloor m) (Qfloor m')) as [He|Hne].
  - rewrite <- He in *.
    destruct Hk as [[Hr ->] | [[Hr ->] | [Hr ->]]];
      destruct Hk' as [[Hr' ->] | [[Hr' ->] | [Hr' ->]]];
      try destruct (Z.even (Qfloor m)); try lia; exfalso; lra.
  - assert (nearest_even m <= Qfloor m + 1)%Z.
    { destruct Hk as [[_ ->] | [[_ ->] | [_ ->]]]; try destruct (Z.even (Qfloor m)); lia. }
    assert (Qfloor m' <= nearest_even m')%Z.
    { destruct Hk' as [[_ ->] | [[_ ->] | [_ ->]]]; try destruct (Z.even (Qfloor m')); lia. }
    lia.
Qed.

Lemma nearest_even_Z (j : Z) : nearest_even (inject_Z j) = j.
Proof.
  destruct (nearest_even_spec (inject_Z j)) as (_ & _ & Hk).
  rewrite Qfloor_Z in Hk.
  destruct Hk as [[_ ->] | [[Hr _] | [Hr _]]]; [reflexivity | exfalso; lra | exfalso; lra].
Qed.

Lemma nearest_even_compat (m m' : Q) : m == m' -> nearest_even m = nearest_even m'.
Proof.
  intros H. apply Z.le_antisymm; apply nearest_even_mono; rewrite H; apply Qle_refl.
Qed.

Lemma nearest_even_ge (j : Z) (m : Q) : inject_Z j <= m -> (j <= nearest_even m)%Z.
Proof. intros H. rewrite <- (nearest_even_Z j). apply nearest_even_mono, H. Qed.

Lemma nearest_even_le (j : Z) (m : Q) : m <= inject_Z j -> (nearest_even m <= j)%Z.
Proof. intros H. rewrite <- (nearest_even_Z j). apply nearest_even_mono, H. Qed.

(** ** Rounding to a significand of [p] bits *)

Section Rounding.
Variable p : Z.
Hypothesis Hp : (1 <= p)%Z.

Lemma ilog2_compat (x y : Q) : 0 < x -> x == y -> ilog2 x = ilog2 y.
Proof.
  intros Hx Hxy. symmetry. destruct (ilog2_spec x Hx) as [Hlo Hhi].
  apply ilog2_unique; rewrite <- Hxy; assumption.
Qed.

Lemma scaled_bounds (x : Q) : 0 < x ->
  pow2 (p - 1) <= x * pow2 (- (ilog2 x - p + 1))
  /\ x * pow2 (- (ilog2 x - p + 1)) < pow2 p.
Proof.
  intros Hx. destruct (ilog2_spec x Hx) as [Hlo Hhi].
  set (e := ilog2 x) in *. set (s := pow2 (- (e - p + 1))).
  assert (Hs : 0 < s) by apply pow2_pos.
  assert (H1 : pow2 (p - 1) == pow2 e * s).
  { unfold s. rewrite <- pow2_add. replace (e + - (e - p + 1))%Z with (p - 1)%Z by lia.
    reflexivity. }
  assert (H2 : pow2 p == pow2 (e + 1) * s).
  { unfold s. rewrite <- pow2_add. replace (e + 1 + - (e - p + 1))%Z with p by lia.
    reflexivity. }
  rewrite H1, H2. split.
  - apply Qmult_le_compat_r; [exact Hlo | apply Qlt_le_weak, Hs].
  - apply Qmult_lt_compat_r; assumption.
Qed.

Lemma significand_bounds (x : Q) : 0 < x ->
  (2 ^ (p - 1) <= nearest_even (x * pow2 (- (ilog2 x - p + 1))) <= 2 ^ p)%Z.
Proof.
  intros Hx. destruct (scaled_bounds x Hx) as [Hlo Hhi]. split.
  - apply nearest_even_ge. rewrite <- pow2_Z by lia. exact Hlo.
  - apply nearest_even_le. rewrite <- pow2_Z by lia. apply Qlt_le_weak, Hhi.
Qed.

Lemma round_pos_bounds (x : Q) : 0 < x ->
  pow2 (ilog2 x) <= round_pos p x /\ round_pos p x <= pow2 (ilog2 x + 1).
Proof.
  intros Hx. destruct (significand_bounds x Hx) as [Hlo Hhi]. unfold round_pos.
  set (e := ilog2 x) in *. set (k := nearest_even _) in *.
  assert (Hu : 0 < pow2 (e - p + 1)) by apply pow2_pos.
  assert (H1 : pow2 e == inject_Z (2 ^ (p - 1)) * pow2 (e - p + 1)).
  { rewrite <- pow2_Z, <- pow2_add by lia. replace (p - 1 + (e - p + 1))%Z with e by lia.
    reflexivity. }
  assert (H2 : pow2 (e + 1) == inject_Z (2 ^ p) * pow2 (e - p + 1)).
  { rewrite <- pow2_Z, <- pow2_add by lia. replace (p + (e - p + 1))%Z with (e + 1)%Z by lia.
    reflexivity. }
  rewrite H1, H2. split; (apply Qmult_le_compat_r; [| apply Qlt_le_weak, Hu]);
    rewrite <- Zle_Qle; assumption.
Qed.

Lemma round_pos_error (x : Q) : 0 < x ->
  Qabs (round_pos p x - x) <= pow2 (ilog2 x - p)
  /\ pow2 (ilog2 x - p) <= x * pow2 (- p).
Proof.
  intros Hx. destruct (ilog2_spec x Hx) as [Hlo _]. unfold round_pos.
  set (e := ilog2 x) in *. set (u := (e - p + 1)%Z).
  set (m := x * pow2 (- u)). destruct (nearest_even_near m) as [Hn1 Hn2].
  set (k := inject_Z (nearest_even m)) in *.
  assert (Hu : 0 < pow2 u) by apply pow2_pos.
  assert (Hx' : x == m * pow2 u).
  { unfold m. rewrite <- Qmult_assoc, pow2_opp. ring. }
  assert (Hh : pow2 (e - p) * 2 == pow2 u).
  { unfold u. rewrite (pow2_succ (e - p)). ring. }
  split.
  - apply Qabs_Qle_condition. split; nra.
  - assert (He : pow2 (e - p) == pow2 e * pow2 (- p)).
    { rewrite <- pow2_add. reflexivity. }
    rewrite He. apply Qmult_le_compat_r; [exact Hlo | apply Qlt_le_weak, pow2_pos].
Qed.

Lemma round_pos_mono (x y : Q) : 0 < x -> x <= y -> round_pos p x <= round_pos p y.
Proof.
  intros Hx Hxy. assert (Hy : 0 < y) by lra.
  destruct (ilog2_spec x Hx) as [Hxl Hxh]. destruct (ilog2_spec y Hy) as [Hyl Hyh].
  assert (Hle : (ilog2 x <= ilog2 y)%Z).
  { assert (ilog2 x < ilog2 y + 1)%Z; [| lia].
    apply (Qpower_lt_compat_l_inv 2); [| reflexivity].
    fold (pow2 (ilog2 x)) (pow2 (ilog2 y + 1)). lra. }
  destruct (Z.eq_dec (ilog2 x) (ilog2 y)) as [He|Hne].
  - unfold round_pos. rewrite He.
    apply Qmult_le_compat_r; [| apply Qlt_le_weak, pow2_pos].
    rewrite <- Zle_Qle. apply nearest_even_mono.
    apply Qmult_le_compat_r; [exact Hxy | apply Qlt_le_weak, pow2_pos].
  - destruct (round_pos_bounds x Hx) as [_ H1]. destruct (round_pos_bounds y Hy) as [H2 _].
    assert (pow2 (ilog2 x + 1) <= pow2 (ilog2 y)) by (apply pow2_le; lia). lra.
Qed.

Lemma round_pos_compat (x y : Q) : 0 < x -> x == y -> round_pos p x == round_pos p y.
Proof.
  intros Hx Hxy. unfold round_pos. rewrite <- (ilog2_compat x y Hx Hxy).
  rewrite (nearest_even_compat _ (y * pow2 (- (ilog2 x - p + 1)))); [reflexivity |].
  apply Qmult_comp; [exact Hxy | reflexivity].
Qed.

(** A significand of fewer than [p] bits and any exponent: rounding is exact. *)
Lemma round_pos_exact (j v : Z) : (0 < j < 2 ^ p)%Z ->
  round_pos p (inject_Z j * pow2 v) == inject_Z j * pow2 v.
Proof.
  intros [Hj0 Hjp]. set (x := inject_Z j * pow2 v).
  destruct (Z_log2_bounds j Hj0) as [Hl1 Hl2].
  assert (Hl0 : (0 <= Z.log2 j)%Z) by apply Z.log2_nonneg.
  assert (Hlp : (Z.log2 j < p)%Z) by (apply Z.log2_lt_pow2; lia).
  rewrite <- pow2_Z in Hl1, Hl2 by exact Hl0.
  assert (Hv : 0 < pow2 v) by apply pow2_pos.
  assert (He : ilog2 x = (Z.log2 j + v)%Z).
  { apply ilog2_unique; unfold x.
    - rewrite pow2_add. apply Qmult_le_compat_r; [exact Hl1 | apply Qlt_le_weak, Hv].
    - replace (Z.log2 j + v + 1)%Z with (Z.log2 j + 1 + v)%Z by lia.
      rewrite pow2_add, pow2_succ. apply Qmult_lt_compat_r; assumption. }
  unfold round_pos. rewrite He.
  set (u := (Z.log2 j + v - p + 1)%Z).
  assert (Hm : x * pow2 (- u) == inject_Z (j * 2 ^ (v - u))).
  { unfold x. rewrite inject_Z_mult, <- pow2_Z by (unfold u; lia).
    rewrite <- Qmult_assoc, <- pow2_add. replace (v + - u)%Z with (v - u)%Z by lia.
    reflexivity. }
  rewrite (nearest_even_compat _ _ Hm), nearest_even_Z.
  rewrite inject_Z_mult, <- pow2_Z by (unfold u; lia).
  rewrite <- Qmult_assoc, <- pow2_add. replace (v - u + u)%Z with v by lia. reflexivity.
Qed.

End Rounding.

Section Round.
Variable p : Z.
Hypothesis Hp : (1 <= p)%Z.

Lemma round_compat (x y : Q) : x == y -> round p x = round p y.
Proof. intros H. unfold round. rewrite (Qred_complete x y H). reflexivity. Qed.

Lemma round_positive (x : Q) : 0 < x -> round p x == round_pos p x.
Proof.
  intros Hx. unfold round. pose proof (Qred_correct x) as Hr.
  assert (Hr0 : 0 < Qred x) by (rewrite Hr; exact Hx).
  destruct (Qred x) as [n d] eqn:E. unfold Qlt in Hr0. cbn [Qnum Qden] in *.
  destruct n as [|n|n]; try lia.
  rewrite Qred_correct. apply round_pos_compat; [reflexivity | exact Hr].
Qed.

Lemma round_negative (x : Q) : x < 0 -> round p x == - round_pos p (- x).
Proof.
  intros Hx. unfold round. pose proof (Qred_correct x) as Hr.
  assert (Hr0 : Qred x < 0) by (rewrite Hr; exact Hx).
  destruct (Qred x) as [n d] eqn:E. unfold Qlt in Hr0. cbn [Qnum Qden] in *.
  destruct n as [|n|n]; try lia.
  rewrite Qred_correct. apply Qopp_comp. apply round_pos_compat.
  - reflexivity.
  - rewrite Hr. reflexivity.
Qed.

Lemma round_zero (x : Q) : x == 0 -> round p x == 0.
Proof.
  intros Hx. rewrite (round_compat x 0 Hx). reflexivity.
Qed.

Lemma round_pos_positive (x : Q) : 0 < x -> 0 < round_pos p x.
Proof.
  intros Hx. destruct (round_pos_bounds p Hp x Hx) as [H _].
  eapply Qlt_le_trans; [apply pow2_pos | exact H].
Qed.

Lemma round_opp (x : Q) : round p (- x) == - round p x.
Proof.
  destruct (Q_dec x 0) as [[Hx | Hx] | Hx].
  - rewrite (round_negative x Hx), (round_positive (- x)) by lra. ring.
  - rewrite (round_positive x Hx), (round_negative (- x)) by lra.
    apply Qopp_comp. apply round_pos_compat; [lra | ring].
  - rewrite (round_zero x Hx), (round_zero (- x)) by lra. reflexivity.
Qed.

(** Rounding is monotone. *)
Lemma round_mono (x y : Q) : x <= y -> round p x <= round p y.
Proof.
  intros Hxy.
  destruct (Q_dec x 0) as [[Hx | Hx] | Hx]; destruct (Q_dec y 0) as [[Hy | Hy] | Hy];
    try (exfalso; lra).
  - rewrite (round_negative x Hx), (round_negative y Hy).
    apply Qopp_le_compat. apply round_pos_mono; [exact Hp | lra | lra].
  - rewrite (round_negative x Hx), (round_positive y Hy).
    pose proof (round_pos_positive (- x)). pose proof (round_pos_positive y). lra.
  - rewrite (round_negative x Hx), (round_zero y Hy).
    pose proof (round_pos_positive (- x)). lra.
  - rewrite (round_positive x Hx), (round_positive y Hy).
    apply round_pos_mono; assumption.
  - rewrite (round_zero x Hx), (round_positive y Hy).
    pose proof (round_pos_positive y). lra.
  - rewrite (round_zero x Hx), (round_zero y Hy). apply Qle_refl.
Qed.

(** The relative error of rounding is at most [2 ^ (- p)]. *)
Lemma round_error (x : Q) : Qabs (round p x - x) <= Qabs x * pow2 (- p).
Proof.
  destruct (Q_dec x 0) as [[Hx | Hx] | Hx].
  - rewrite (round_negative x Hx).
    destruct (round_pos_error p (- x)) as [H1 H2]; [lra |].
    rewrite (Qabs_neg x) by lra.
    assert (Heq : - round_pos p (- x) - x == - (round_pos p (- x) - - x)) by ring.
    rewrite Heq, Qabs_opp. lra.
  - rewrite (round_positive x Hx).
    destruct (round_pos_error p x Hx) as [H1 H2].
    rewrite (Qabs_pos x) by lra. lra.
  - rewrite (round_zero x Hx). rewrite Hx. vm_compute. discriminate.
Qed.

(** A significand of fewer than [p] bits and any exponent: rounding is exact. *)
Lemma round_exact (j v : Z) : (Z.abs j < 2 ^ p)%Z ->
  round p (inject_Z j * pow2 v) == inject_Z j * pow2 v.
Proof.
  intros Hj. pose proof (pow2_pos v) as Hv.
  destruct (Z.lt_trichotomy j 0) as [Hn | [-> | Hpos]].
  - assert (Hx : inject_Z j * pow2 v < 0).
    { assert (inject_Z j < 0) by (rewrite Zlt_Qlt in Hn; exact Hn). nra. }
    rewrite (round_negative _ Hx).
    assert (He : - (inject_Z j * pow2 v) == inject_Z (- j) * pow2 v).
    { rewrite inject_Z_opp. ring. }
    assert (Hx' : 0 < - (inject_Z j * pow2 v)) by lra.
    rewrite (round_pos_compat p _ _ Hx' He).
    rewrite (round_pos_exact p (- j) v) by lia. rewrite inject_Z_opp. ring.
  - rewrite round_zero; [| ring]. ring.
  - assert (Hx : 0 < inject_Z j * pow2 v).
    { assert (0 < inject_Z j) by (rewrite Zlt_Qlt in Hpos; exact Hpos). nra. }
    rewrite (round_positive _ Hx). apply round_pos_exact. lia.
Qed.

(** What rounding returns has a significand of at most [p] bits. *)
Lemma round_representable (x : Q) :
  exists j v, (Z.abs j < 2 ^ p)%Z /\ round p x == inject_Z j * pow2 v.
Proof.
  assert (Hpos : forall y, 0 < y ->
            exists j v, (0 < j < 2 ^ p)%Z /\ round_pos p y == inject_Z j * pow2 v).
  { intros y Hy. destruct (significand_bounds p Hp y Hy) as [Hlo Hhi].
    assert (H2 : (0 < 2 ^ (p - 1))%Z) by (apply Z.pow_pos_nonneg; lia).
    assert (H3 : (2 ^ p = 2 * 2 ^ (p - 1))%Z).
    { rewrite <- Z.pow_succ_r by lia. f_equal. lia. }
    unfold round_pos. set (k := nearest_even _) in *. set (u := (ilog2 y - p + 1)%Z).
    destruct (Z.eq_dec k (2 ^ p)%Z) as [Hk | Hk].
    - exists (2 ^ (p - 1))%Z, (u + 1)%Z. split; [lia |].
      rewrite Hk, H3, inject_Z_mult, pow2_succ. change (inject_Z 2) with 2. ring.
    - exists k, u. split; [lia | reflexivity]. }
  destruct (Q_dec x 0) as [[Hx | Hx] | Hx].
  - destruct (Hpos (- x)) as (j & v & Hj & He); [lra |].
    exists (- j)%Z, v. split; [lia |].
    rewrite (round_negative x Hx), He, inject_Z_opp. ring.
  - destruct (Hpos x Hx) as (j & v & Hj & He).
    exists j, v. split; [lia |]. rewrite (round_positive x Hx). exact He.
  - exists 0%Z, 0%Z. split; [| rewrite (round_zero x Hx); reflexivity].
    assert (0 < 2 ^ p)%Z by (apply Z.pow_pos_nonneg; lia). simpl. lia.
Qed.

(** Rounding twice is rounding once. *)
Lemma round_idempotent (x : Q) : round p (round p x) == round p x.
Proof.
  destruct (round_representable x) as (j & v & Hj & He).
  rewrite (round_compat _ _ He), He. apply round_exact, Hj.
Qed.

(** The values that rounding leaves alone are closed under doubling and
    negation, and no rounded value lies strictly between such a value and
    what is rounded. *)
Lemma round_fixed_double (x : Q) : round p x == x -> round p (2 * x) == 2 * x.
Proof.
  intros Hx. destruct (round_representable x) as (j & v & Hj & He).
  rewrite Hx in He.
  assert (H2 : 2 * x == inject_Z j * pow2 (v + 1)).
  { rewrite He, pow2_succ. ring. }
  rewrite (round_compat _ _ H2), H2. apply round_exact, Hj.
Qed.

Lemma round_fixed_opp (x : Q) : round p x == x -> round p (- x) == - x.
Proof. intros Hx. rewrite round_opp, Hx. reflexivity. Qed.

Lemma round_ge_fixed (f x : Q) : round p f == f -> f <= x -> f <= round p x.
Proof. intros Hf Hfx. rewrite <- Hf. apply round_mono, Hfx. Qed.

Lemma round_le_fixed (f x : Q) : round p f == f -> x <= f -> round p x <= f.
Proof. intros Hf Hfx. rewrite <- Hf. apply round_mono, Hfx. Qed.

Lemma round_Z (n : Z) : (Z.abs n < 2 ^ p)%Z -> round p (inject_Z n) == inject_Z n.
Proof.
  intros Hn. pose proof (round_exact n 0 Hn) as H.
  assert (He : inject_Z n * pow2 0 == inject_Z n) by (change (pow2 0) with 1; ring).
  rewrite (round_compat _ _ He) in H. rewrite H. exact He.
Qed.

End Round.

End FloatFacts.

(** ** [REAL] and [double] *)

Section RealFacts.
Local Open Scope Q_scope.

Lemma Qltb_lt (a b : Q) : Qltb a b = true <-> a < b.
Proof.
  unfold Qltb. rewrite negb_true_iff. split.
  - intros H. apply Qnot_le_lt. intros Hle. apply Qle_bool_iff in Hle. congruence.
  - intros H. destruct (Qle_bool b a) eqn:E; [| reflexivity].
    apply Qle_bool_iff in E. apply Qlt_not_le in H. contradiction.
Qed.

Lemma Qltb_ge (a b : Q) : Qltb a b = false <-> b <= a.
Proof.
  unfold Qltb. rewrite negb_false_iff. apply Qle_bool_iff.
Qed.

Lemma std_max_Qmax (a b : Q) : std_max a b == Qmax a b.
Proof.
  unfold std_max. destruct (Qltb a b) eqn:E.
  - apply Qltb_lt in E. symmetry. apply Q.max_r. apply Qlt_le_weak, E.
  - apply Qltb_ge in E. symmetry. apply Q.max_l, E.
Qed.

Lemma std_min_Qmin (a b : Q) : std_min a b == Qmin a b.
Proof.
  unfold std_min. destruct (Qltb b a) eqn:E.
  - apply Qltb_lt in E. symmetry. apply Q.min_r. apply Qlt_le_weak, E.
  - apply Qltb_ge in E. symmetry. apply Q.min_l, E.
Qed.

Lemma Qmax_cases (a b : Q) : (a <= b /\ Qmax a b == b) \/ (b <= a /\ Qmax a b == a).
Proof.
  destruct (Qlt_le_dec a b) as [H | H].
  - left. split; [apply Qlt_le_weak, H | apply Q.max_r, Qlt_le_weak, H].
  - right. split; [exact H | apply Q.max_l, H].
Qed.

Lemma Qmin_cases (a b : Q) : (a <= b /\ Qmin a b == a) \/ (b <= a /\ Qmin a b == b).
Proof.
  destruct (Qlt_le_dec a b) as [H | H].
  - left. split; [apply Qlt_le_weak, H | apply Q.min_l, Qlt_le_weak, H].
  - right. split; [exact H | apply Q.min_r, H].
Qed.

Lemma bits24 : (1 <= 24)%Z.
Proof. lia. Qed.

Lemma bits53 : (1 <= 53)%Z.
Proof. lia. Qed.

Lemma to_REAL_compat (x y : Q) : x == y -> to_REAL x == to_REAL y.
Proof. intros H. unfold to_REAL. rewrite (round_compat 24 x y H). reflexivity. Qed.

Lemma to_double_compat (x y : Q) : x == y -> to_double x == to_double y.
Proof. intros H. unfold to_double. rewrite (round_compat 53 x y H). reflexivity. Qed.

#[global] Instance to_REAL_Proper : Proper (Qeq ==> Qeq) to_REAL.
Proof. intros x y H. apply to_REAL_compat, H. Qed.

#[global] Instance to_double_Proper : Proper (Qeq ==> Qeq) to_double.
Proof. intros x y H. apply to_double_compat, H. Qed.

Lemma to_REAL_mono (x y : Q) : x <= y -> to_REAL x <= to_REAL y.
Proof. apply round_mono, bits24. Qed.

Lemma to_double_mono (x y : Q) : x <= y -> to_double x <= to_double y.
Proof. apply round_mono, bits53. Qed.

Lemma to_REAL_idempotent (x : Q) : to_REAL (to_REAL x) == to_REAL x.
Proof. apply round_idempotent, bits24. Qed.

Lemma to_REAL_ge (f x : Q) : to_REAL f == f -> f <= x -> f <= to_REAL x.
Proof. apply round_ge_fixed, bits24. Qed.

Lemma to_REAL_le (f x : Q) : to_REAL f == f -> x <= f -> to_REAL x <= f.
Proof. apply round_le_fixed, bits24. Qed.

Lemma to_double_ge (f x : Q) : to_double f == f -> f <= x -> f <= to_double x.
Proof. apply round_ge_fixed, bits53. Qed.

Lemma to_double_le (f x : Q) : to_double f == f -> x <= f -> to_double x <= f.
Proof. apply round_le_fixed, bits53. Qed.

Lemma to_REAL_twice (x : Q) : to_REAL (2 * to_REAL x) == 2 * to_REAL x.
Proof. apply round_fixed_double; [apply bits24 | apply to_REAL_idempotent]. Qed.

Lemma to_REAL_max (a b : Q) : to_REAL (Qmax a b) == Qmax (to_REAL a) (to_REAL b).
Proof.
  destruct (Qmax_cases a b) as [[H E] | [H E]]; rewrite E.
  - symmetry. apply Q.max_r, to_REAL_mono, H.
  - symmetry. apply Q.max_l, to_REAL_mono, H.
Qed.

Lemma to_REAL_min (a b : Q) : to_REAL (Qmin a b) == Qmin (to_REAL a) (to_REAL b).
Proof.
  destruct (Qmin_cases a b) as [[H E] | [H E]]; rewrite E.
  - symmetry. apply Q.min_l, to_REAL_mono, H.
  - symmetry. apply Q.min_r, to_REAL_mono, H.
Qed.

(** The relative error of a rounding: at most [2 ^ -24] in [REAL] and
    [2 ^ -53] in [double]. *)
Lemma to_REAL_near (x : Q) :
  0 <= x -> x - x * (1 # 16777216) <= to_REAL x /\ to_REAL x <= x + x * (1 # 16777216).
Proof.
  intros Hx. pose proof (round_error 24 x) as H.
  assert (E : Float.pow2 (- 24) == 1 # 16777216) by reflexivity. rewrite E in H. clear E. rewrite (Qabs_pos x Hx) in H.
  apply Qabs_Qle_condition in H. unfold to_REAL. lra.
Qed.

Lemma to_REAL_near_neg (x : Q) :
  x <= 0 -> x + x * (1 # 16777216) <= to_REAL x /\ to_REAL x <= x - x * (1 # 16777216).
Proof.
  intros Hx. pose proof (round_error 24 x) as H.
  assert (E : Float.pow2 (- 24) == 1 # 16777216) by reflexivity. rewrite E in H. clear E. rewrite (Qabs_neg x Hx) in H.
  apply Qabs_Qle_condition in H. unfold to_REAL. lra.
Qed.

Lemma to_double_near (x : Q) :
  0 <= x -> x - x * (1 # 9007199254740992) <= to_double x
            /\ to_double x <= x + x * (1 # 9007199254740992).
Proof.
  intros Hx. pose proof (round_error 53 x) as H.
  assert (E : Float.pow2 (- 53) == 1 # 9007199254740992) by reflexivity. rewrite E in H. clear E. rewrite (Qabs_pos x Hx) in H.
  apply Qabs_Qle_condition in H. unfold to_double. lra.
Qed.

Lemma to_REAL_positive (x : Q) : 0 < x -> 0 < to_REAL x.
Proof. intros Hx. destruct (to_REAL_near x) as [H _]; lra. Qed.

Lemma to_REAL_negative (x : Q) : x < 0 -> to_REAL x < 0.
Proof. intros Hx. destruct (to_REAL_near_neg x) as [_ H]; lra. Qed.

Lemma to_REAL_nonneg (x : Q) : 0 <= x -> 0 <= to_REAL x.
Proof. intros Hx. destruct (to_REAL_near x) as [H _]; lra. Qed.

(** A [UINT] is a [double]; a [UINT] below [2 ^ 24] is a [REAL]. *)
Lemma to_double_UINT (n : Z) : UINT_range n -> to_double (inject_Z n) == inject_Z n.
Proof.
  intros [H0 H1]. apply round_Z; [apply bits53 |].
  rewrite Z.abs_eq by exact H0. eapply Z.lt_trans; [exact H1 | reflexivity].
Qed.

Lemma to_REAL_small (n : Z) : (0 <= n < 2 ^ 24)%Z -> to_REAL (inject_Z n) == inject_Z n.
Proof.
  intros [H0 H1]. apply round_Z; [apply bits24 |].
  rewrite Z.abs_eq by exact H0. exact H1.
Qed.

Lemma to_REAL_UINT (n : Z) : UINT_range n ->
  inject_Z n - inject_Z n * (1 # 16777216) <= to_REAL (inject_Z n)
  /\ to_REAL (inject_Z n) <= inject_Z n + inject_Z n * (1 # 16777216).
Proof.
  intros [H0 _]. apply to_REAL_near. change 0 with (inject_Z 0). rewrite <- Zle_Qle. exact H0.
Qed.

(** [(double)h * k] for a [UINT] [h] and a positive literal [k]. *)
Lemma double_product (k : Q) (n : Z) : 0 < k -> UINT_range n ->
  let x := to_double (to_double (inject_Z n) * to_double k) in
  let z := k * inject_Z n in
  0 <= z /\ z - z * (1 # 1125899906842624) <= x /\ x <= z + z * (1 # 1125899906842624).
Proof.
  intros Hk Hn x z. subst x.
  assert (Hh : 0 <= inject_Z n).
  { destruct Hn as [H0 _]. change 0 with (inject_Z 0). rewrite <- Zle_Qle. exact H0. }
  rewrite (to_double_compat _ (inject_Z n * to_double k))
    by (rewrite (to_double_UINT n Hn); reflexivity).
  destruct (to_double_near k) as [Hk1 Hk2]; [lra |].
  set (kd := to_double k) in *.
  assert (Hy : 0 <= inject_Z n * kd) by nra.
  destruct (to_double_near (inject_Z n * kd) Hy) as [Hx1 Hx2].
  set (y := inject_Z n * kd) in *. set (x := to_double y) in *.
  assert (Hz : 0 <= z) by (subst z; nra).
  assert (Hy1 : z - z * (1 # 9007199254740992) <= y) by (subst y z; nra).
  assert (Hy2 : y <= z + z * (1 # 9007199254740992)) by (subst y z; nra).
  split; [exact Hz |]. split; lra.
Qed.

End RealFacts.

(** ** Label geometry *)

(** The geometry is compared with the rounding functions kept folded: the
    rectangles and their fields unfold before the casts do. *)
Strategy 1000 [to_REAL to_double Float.round].

Section GeometryFacts.
Local Open Scope Q_scope.

Lemma literal_8 : 8.0 == 8.
Proof. reflexivity. Qed.

Lemma literal_10 : 10.0 == 10.
Proof. reflexivity. Qed.

Lemma literal_18 : 18.0 == 18.
Proof. reflexivity. Qed.

Lemma pad_REAL (h : Z) : to_REAL (pad h) == pad h.
Proof. apply to_REAL_idempotent. Qed.

Lemma pad_ge_8 (h : Z) : 8 <= pad h.
Proof.
  unfold pad. apply to_REAL_ge; [reflexivity |].
  rewrite std_max_Qmax, literal_8. apply Q.le_max_l.
Qed.

Lemma two_pad (h : Z) : to_REAL (2 * pad h) == 2 * pad h.
Proof. unfold pad. apply to_REAL_twice. Qed.

(** The clamp survives the rounding: the scrim height is the rounded sum
    clamped between the rounded bounds, the upper bound last. *)
Lemma scrimH_clamp (h : Z) (t : Q) :
  scrimH h t
  == clamp_upper_last (to_REAL (t + 2 * pad h)) (scrim_lower h) (scrim_upper h).
Proof.
  unfold scrimH, clamp_upper_last, scrim_lower, scrim_upper.
  set (lo := std_max _ 18.0). set (up := to_double _).
  rewrite std_min_Qmin, to_REAL_min, to_REAL_idempotent.
  rewrite std_max_Qmax, to_REAL_max, to_REAL_idempotent.
  rewrite (to_REAL_compat (t + to_REAL (2 * pad h)) (t + 2 * pad h))
    by (rewrite two_pad; reflexivity).
  reflexivity.
Qed.

Lemma scrimH_le_upper (h : Z) (t : Q) : scrimH h t <= scrim_upper h.
Proof. rewrite scrimH_clamp. apply Q.le_min_r. Qed.

Lemma scrimH_ge_lower (h : Z) (t : Q) :
  scrim_lower h <= scrim_upper h -> scrim_lower h <= scrimH h t.
Proof.
  intros H. rewrite scrimH_clamp. unfold clamp_upper_last.
  apply Q.min_glb; [apply Q.le_max_r | exact H].
Qed.

Lemma scrimH_upper_wins (h : Z) (t : Q) :
  scrim_upper h <= scrim_lower h -> scrimH h t == scrim_upper h.
Proof.
  intros H. rewrite scrimH_clamp. unfold clamp_upper_last.
  apply Q.min_r. eapply Qle_trans; [exact H | apply Q.le_max_r].
Qed.

Lemma scrimH_REAL (h : Z) (t : Q) : to_REAL (scrimH h t) == scrimH h t.
Proof. unfold scrimH. apply to_REAL_idempotent. Qed.

Lemma scrim_lower_ge_18 (h : Z) : 18 <= scrim_lower h.
Proof.
  unfold scrim_lower. apply to_REAL_ge; [reflexivity |].
  rewrite std_max_Qmax, literal_18. apply Q.le_max_r.
Qed.

Lemma double_of_le (h n : Z) (k : Q) : (h <= n)%Z -> UINT_range n -> 0 < k ->
  to_double (to_double (inject_Z h) * to_double k)
  <= to_double (inject_Z n * to_double k).
Proof.
  intros Hle Hn Hk. apply to_double_mono.
  assert (Hh : to_double (inject_Z h) <= inject_Z n).
  { apply to_double_le; [apply to_double_UINT, Hn | rewrite <- Zle_Qle; exact Hle]. }
  destruct (to_double_near k) as [Hk1 _]; [lra |]. nra.
Qed.

Lemma double_of_ge (h n : Z) (k : Q) : (n <= h)%Z -> UINT_range n -> 0 < k ->
  to_double (inject_Z n * to_double k)
  <= to_double (to_double (inject_Z h) * to_double k).
Proof.
  intros Hle Hn Hk. apply to_double_mono.
  assert (Hh : inject_Z n <= to_double (inject_Z h)).
  { apply to_double_ge; [apply to_double_UINT, Hn | rewrite <- Zle_Qle; exact Hle]. }
  destruct (to_double_near k) as [Hk1 _]; [lra |]. nra.
Qed.

Lemma UINT_119 : UINT_range 119.
Proof. split; [discriminate | reflexivity]. Qed.

Lemma UINT_120 : UINT_range 120.
Proof. split; [discriminate | reflexivity]. Qed.

(** Below 120 rows the upper bound is under 18; from 120 rows on the lower
    bound does not exceed the upper. *)
Lemma scrim_upper_small (h : Z) : (h < 120)%Z -> scrim_upper h < 18.
Proof.
  intros Hh. unfold scrim_upper.
  eapply Qle_lt_trans.
  - apply to_REAL_mono. apply (double_of_le h 119 0.15); [lia | apply UINT_119 | reflexivity].
  - reflexivity.
Qed.

Lemma scrim_bounds_order (h : Z) : (120 <= h)%Z -> scrim_lower h <= scrim_upper h.
Proof.
  intros Hh. unfold scrim_lower, scrim_upper. apply to_REAL_mono.
  rewrite std_max_Qmax, literal_18. apply Q.max_lub.
  - apply to_double_mono.
    assert (H0 : 0 <= to_double (inject_Z h)).
    { apply to_double_ge; [reflexivity |]. change 0 with (inject_Z 0). rewrite <- Zle_Qle. lia. }
    assert (Hc : to_double 0.05 <= to_double 0.15) by (apply Qle_bool_iff; reflexivity).
    nra.
  - eapply Qle_trans; [| apply (double_of_ge h 120 0.15); [exact Hh | apply UINT_120 | reflexivity]].
    apply Qle_bool_iff. reflexivity.
Qed.

#[global] Instance close_to_Proper : Proper (Qeq ==> Qeq ==> iff) close_to.
Proof. intros x x' Hx y y' Hy. unfold close_to. rewrite Hx, Hy. reflexivity. Qed.

(** How far the rounded values are from the exact ones. *)
Lemma rounded_close (z x : Q) :
  0 <= z -> z - z * (1 # 1125899906842624) <= x -> x <= z + z * (1 # 1125899906842624) ->
  close_to (to_REAL x) z.
Proof.
  intros Hz H1 H2. assert (Hx : 0 <= x) by lra.
  destruct (to_REAL_near x Hx) as [H3 H4].
  unfold close_to. rewrite (Qabs_pos z Hz). apply Qabs_Qle_condition. lra.
Qed.

Lemma rounded_max_close (c z x : Q) :
  0 < c -> 0 <= z ->
  z - z * (1 # 1125899906842624) <= x -> x <= z + z * (1 # 1125899906842624) ->
  close_to (to_REAL (Qmax c x)) (Qmax c z).
Proof.
  intros Hc Hz H1 H2.
  assert (Hm : 0 <= Qmax c x).
  { eapply Qle_trans; [| apply Q.le_max_l]. lra. }
  destruct (to_REAL_near (Qmax c x) Hm) as [H3 H4].
  set (r := to_REAL (Qmax c x)) in *.
  assert (Hmz : 0 <= Qmax c z).
  { eapply Qle_trans; [| apply Q.le_max_l]. lra. }
  unfold close_to. rewrite (Qabs_pos _ Hmz). apply Qabs_Qle_condition.
  destruct (Qmax_cases c x) as [[Hx Ex] | [Hx Ex]];
    destruct (Qmax_cases c z) as [[Hz' Ez] | [Hz' Ez]];
    rewrite Ex in H3, H4; rewrite Ez; lra.
Qed.

Lemma pad_close (h : Z) : UINT_range h -> close_to (pad h) (Qmax 8 (0.012 * inject_Z h)).
Proof.
  intros Hh. destruct (double_product 0.012 h eq_refl Hh) as (Hz & H1 & H2).
  unfold pad. rewrite std_max_Qmax, literal_8. apply rounded_max_close; [reflexivity | assumption ..].
Qed.

Lemma fontPt_close (h : Z) :
  UINT_range h -> close_to (fontPt h) (Qmax 10 (0.042 * inject_Z h)).
Proof.
  intros Hh. destruct (double_product 0.042 h eq_refl Hh) as (Hz & H1 & H2).
  unfold fontPt. rewrite std_max_Qmax, literal_10. apply rounded_max_close; [reflexivity | assumption ..].
Qed.

Lemma scrim_lower_close (h : Z) :
  UINT_range h -> close_to (scrim_lower h) (Qmax 18 (0.05 * inject_Z h)).
Proof.
  intros Hh. destruct (double_product 0.05 h eq_refl Hh) as (Hz & H1 & H2).
  unfold scrim_lower. rewrite std_max_Qmax, literal_18, Q.max_comm.
  apply rounded_max_close; [reflexivity | assumption ..].
Qed.

Lemma scrim_upper_close (h : Z) :
  UINT_range h -> close_to (scrim_upper h) (0.15 * inject_Z h).
Proof.
  intros Hh. destruct (double_product 0.15 h eq_refl Hh) as (Hz & H1 & H2).
  unfold scrim_upper. apply rounded_close; assumption.
Qed.

Lemma close_to_bounds (x y : Q) : 0 <= y -> close_to x y ->
  y - y * (1 # 8388608) <= x /\ x <= y + y * (1 # 8388608).
Proof.
  intros Hy H. unfold close_to in H. rewrite (Qabs_pos y Hy) in H.
  apply Qabs_Qle_condition in H. lra.
Qed.

Lemma UINT_nonneg (n : Z) : UINT_range n -> 0 <= inject_Z n.
Proof. intros [H _]. change 0 with (inject_Z 0). rewrite <- Zle_Qle. exact H. Qed.

End GeometryFacts.

Section ScrimBounds.
Local Open Scope Q_scope.

(** C2.  For a bitmap height [h] in the range of [UINT] and any measured text
    height, the scrim height is at most the [REAL] value of [0.15 h], which
    is within a relative [2 ^ -23] of [0.15 h].  From 120 rows on it is at
    least the [REAL] value of [max (18, 0.05 h)], which is within the same
    distance of [max (18, 0.05 h)].  Below 120 rows the upper clamp, applied
    last, decides: the scrim height is the [REAL] value of [0.15 h], under
    the lower bound. *)
Theorem scrim_height_bounds (h : Z) (boundsHeight : Q) :
  UINT_range h ->
  (scrimH h boundsHeight <= scrim_upper h
   /\ scrim_upper h <= 0.15 * inject_Z h * (1 + (1 # 8388608)))
  /\ ((120 <= h)%Z ->
      scrim_lower h <= scrimH h boundsHeight
      /\ Qmax 18 (0.05 * inject_Z h) * (1 - (1 # 8388608)) <= scrim_lower h)
  /\ ((h < 120)%Z ->
      scrimH h boundsHeight == scrim_upper h
      /\ scrimH h boundsHeight < Qmax 18 (0.05 * inject_Z h)).
Proof.
  intros Hh. pose proof (UINT_nonneg h Hh) as H0. split; [split |].
  - apply scrimH_le_upper.
  - assert (Hu : 0 <= 0.15 * inject_Z h) by lra.
    destruct (close_to_bounds _ _ Hu (scrim_upper_close h Hh)) as [_ H]. lra.
  - split.
    + intros H120. split.
      * apply scrimH_ge_lower, scrim_bounds_order, H120.
      * assert (Hm : 0 <= Qmax 18 (0.05 * inject_Z h)).
        { eapply Qle_trans; [| apply Q.le_max_l]. discriminate. }
        destruct (close_to_bounds _ _ Hm (scrim_lower_close h Hh)) as [H _]. lra.
    + intros Hsmall. pose proof (scrim_upper_small h Hsmall) as Hu.
      pose proof (scrim_lower_ge_18 h) as Hl.
      assert (He : scrimH h boundsHeight == scrim_upper h).
      { apply scrimH_upper_wins. lra. }
      split; [exact He |]. rewrite He.
      eapply Qlt_le_trans; [exact Hu | apply Q.le_max_l].
Qed.

Lemma scrim_height_bounds_witness :
  scrim_lower 1200 <= scrimH 1200 90 /\ scrimH 100 20 == scrim_upper 100.
Proof.
  assert (H1 : UINT_range 1200) by (split; [discriminate | reflexivity]).
  assert (H2 : UINT_range 100) by (split; [discriminate | reflexivity]).
  split.
  - apply (proj1 (proj2 (scrim_height_bounds 1200 90 H1))). discriminate.
  - apply (proj2 (proj2 (scrim_height_bounds 100 20 H2))). reflexivity.
Defined.

Lemma scrim_height_bounds_counterexample :
  (scrimH 100 20 == 15
   /\ ~ (Qmax 18 (0.05 * inject_Z 100) <= scrimH 100 20
         /\ scrimH 100 20 <= 0.15 * inject_Z 100))
  /\ ~ (scrimH 119 2 <= 0.15 * inject_Z 119)
  /\ ~ (Qmax 18 (0.05 * inject_Z 361) <= scrimH 361 2).
Proof.
  split; [split |].
  - reflexivity.
  - intros [H _]. revert H. apply Qlt_not_le. reflexivity.
  - split; apply Qlt_not_le; reflexivity.
Qed.

End ScrimBounds.

(** ** The calls that draw the label *)

Lemma gdi_calls_list (pf : Platform) (label : wstring) (w h : Z) :
  let font := label_font (Segoe_IsAvailable pf) h in
  let t := Height (MeasureString pf label font (layoutRect w h) label_format) in
  draw_label pf label w h []
  = (t, [MeasureStringCall label font (layoutRect w h) label_format;
         DrawingCall (FillRectangle scrim_brush (scrimRect w h t));
         DrawingCall (DrawString label font (shadowRect w h t) label_format shadow_brush);
         DrawingCall (DrawString label font (textRect w h t) label_format white_brush)]).
Proof. reflexivity. Qed.

Lemma composite_render (pf : Platform) (label : wstring) (bmp : Bitmap) :
  let w := GetWidth bmp in
  let h := GetHeight bmp in
  let font := label_font (Segoe_IsAvailable pf) h in
  let t := Height (MeasureString pf label font (layoutRect w h) label_format) in
  composite pf label bmp = render (raster pf) t (draw_calls w h label font t) bmp.
Proof. reflexivity. Qed.

Section LabelGeometry.
Local Open Scope Q_scope.

(** C4.  For a bitmap height [h] in the range of [UINT]: [pad] and the font
    size are [max (8, 0.012 h)] and [max (10, 0.042 h)] up to a relative
    [2 ^ -23]; the scrim height is the sum of the measured text height and
    [2 pad], rounded to [REAL], clamped between the [REAL] values of
    [max (18, 0.05 h)] and of [0.15 h], the upper bound last, and these are
    the exact bounds up to a relative [2 ^ -23]; when [max (18, 0.05 h)]
    exceeds [0.15 h] the scrim height is the upper bound.  Every call that
    measures or draws the label takes a bold font of that size in points,
    and the scrim that is filled is as high as the scrim height computed
    from the height [MeasureString] reported; the drawing calls among them,
    with that height for the text, are what the bitmap is composited
    from. *)
Theorem label_geometry (pf : Platform) (label : wstring) (w h : Z) :
  let font := label_font (Segoe_IsAvailable pf) h in
  let t := Height (MeasureString pf label font (layoutRect w h) label_format) in
  UINT_range h ->
  close_to (pad h) (Qmax 8 (0.012 * inject_Z h))
  /\ close_to (fontPt h) (Qmax 10 (0.042 * inject_Z h))
  /\ scrimH h t
     == clamp_upper_last (to_REAL (t + 2 * pad h)) (scrim_lower h) (scrim_upper h)
  /\ close_to (scrim_lower h) (Qmax 18 (0.05 * inject_Z h))
  /\ close_to (scrim_upper h) (0.15 * inject_Z h)
  /\ (0.15 * inject_Z h < Qmax 18 (0.05 * inject_Z h) -> scrimH h t == scrim_upper h)
  /\ Forall (fun c => match font_of c with
                      | Some f => bold_points (fontPt h) f
                      | None => True
                      end) (gdi_calls pf label w h)
  /\ In (DrawingCall (FillRectangle scrim_brush
                        (mkRectF 0 (to_REAL (to_REAL (inject_Z h) - scrimH h t))
                                 (to_REAL (inject_Z w)) (scrimH h t))))
        (gdi_calls pf label w h)
  /\ (forall bmp : Bitmap,
        GetWidth bmp = w -> GetHeight bmp = h ->
        composite pf label bmp
        = render (raster pf) t (drawing_calls (gdi_calls pf label w h)) bmp).
Proof.
  intros font t Hh. pose proof (UINT_nonneg h Hh) as H0.
  split; [apply pad_close, Hh |]. split; [apply fontPt_close, Hh |].
  split; [apply scrimH_clamp |]. split; [apply scrim_lower_close, Hh |].
  split; [apply scrim_upper_close, Hh |]. split; [| split; [| split]].
  - intros Hlt. apply scrimH_upper_wins.
    destruct (Z_lt_le_dec h 120) as [Hs | Hb].
    + pose proof (scrim_upper_small h Hs). pose proof (scrim_lower_ge_18 h). lra.
    + exfalso. assert (H120 : 120 <= inject_Z h).
      { change 120 with (inject_Z 120). rewrite <- Zle_Qle. exact Hb. }
      destruct (Qmax_cases 18 (0.05 * inject_Z h)) as [[_ E] | [_ E]]; rewrite E in Hlt; lra.
  - unfold gdi_calls. rewrite gdi_calls_list. cbn [snd].
    repeat constructor; reflexivity.
  - unfold gdi_calls. rewrite gdi_calls_list. cbn [snd]. right. left. reflexivity.
  - intros bmp Hw Hb. subst font t. subst w h. rewrite composite_render.
    unfold gdi_calls. rewrite gdi_calls_list. reflexivity.
Qed.

Lemma label_geometry_witness :
  let pf := Sample.platform Sample.photo 800 100 20 (PressOK (L "Hello")) IDNO Sample.encoders Ok
                            None in
  close_to (pad 100) (Qmax 8 (0.012 * inject_Z 100))
  /\ scrimH 100 20 == scrim_upper 100.
Proof.
  intros pf.
  destruct (label_geometry pf (L "Hello") 800 100) as (Hpad & _ & _ & _ & _ & Hup & _);
    [split; [discriminate | reflexivity] |].
  split; [exact Hpad |]. apply Hup. reflexivity.
Defined.

Lemma label_geometry_counterexample :
  ~ pad 1200 == Qmax 8 (0.012 * inject_Z 1200)
  /\ ~ fontPt 1200 == Qmax 10 (0.042 * inject_Z 1200)
  /\ ~ scrimH 119 2
       == clamp_upper_last (2 + 2 * Qmax 8 (0.012 * inject_Z 119))
                           (Qmax 18 (0.05 * inject_Z 119)) (0.15 * inject_Z 119).
Proof.
  split; [| split]; intros H; vm_compute in H; discriminate H.
Qed.

End LabelGeometry.

(** ** What the drawing calls paint *)

Section RenderingFacts.
Local Open Scope Q_scope.

Lemma apply_call_unpainted raster t bmp c x y :
  row_painted t c y = false -> pixel (apply_call raster t bmp c) x y = pixel bmp x y.
Proof. intros H. unfold apply_call. cbn [pixel]. rewrite H. reflexivity. Qed.

Lemma render_unpainted raster t calls bmp x y :
  Forall (fun c => row_painted t c y = false) calls ->
  pixel (render raster t calls bmp) x y = pixel bmp x y.
Proof.
  unfold render. revert bmp. induction calls as [|c calls IH]; intros bmp H.
  - reflexivity.
  - apply Forall_cons in H as [Hc H]. cbn [fold_left].
    rewrite (IH _ H). apply apply_call_unpainted, Hc.
Qed.

Lemma render_size raster t calls bmp :
  GetWidth (render raster t calls bmp) = GetWidth bmp
  /\ GetHeight (render raster t calls bmp) = GetHeight bmp.
Proof.
  unfold render. revert bmp. induction calls as [|c calls IH]; intros bmp.
  - split; reflexivity.
  - cbn [fold_left]. destruct (IH (apply_call raster t bmp c)) as [-> ->].
    split; reflexivity.
Qed.

Lemma row_above_unpainted t c (y : Z) :
  inject_Z y + 1 <= block_top t c -> row_painted t c y = false.
Proof.
  unfold block_top, row_painted. destruct (painted_rows t c) as [a b]. cbn [fst].
  intros Hy. apply andb_false_iff. left. apply Qltb_ge. exact Hy.
Qed.

(** Where the three calls start to paint. *)
Lemma block_top_scrim (w h : Z) (t : Q) :
  block_top t (FillRectangle scrim_brush (scrimRect w h t)) = Y (scrimRect w h t).
Proof. reflexivity. Qed.

Lemma block_top_text (r : RectF) (t : Q) label font brush :
  block_top t (DrawString label font r label_format brush) = Y r + (Height r - t) / 2.
Proof. reflexivity. Qed.

Lemma shadow_below_text (w h : Z) (t : Q) :
  Y (textRect w h t) <= Y (shadowRect w h t).
Proof.
  cbn [shadowRect Y]. apply to_REAL_ge; [| lra].
  cbn [textRect Y]. apply to_REAL_idempotent.
Qed.


Lemma draw_calls_tops (w h : Z) (t : Q) label font :
  Y (scrimRect w h t)
  <= block_top t (DrawString label font (textRect w h t) label_format white_brush) ->
  Forall (fun c => Y (scrimRect w h t) <= block_top t c) (draw_calls w h label font t).
Proof.
  intros Htext. pose proof (shadow_below_text w h t) as Hs.
  unfold draw_calls. repeat apply Forall_cons_2; [| | | apply Forall_nil_2].
  - rewrite block_top_scrim. apply Qle_refl.
  - rewrite block_top_text in *. cbn [shadowRect textRect Height] in *.
    unfold Qdiv in *. change (/ 2) with (1 # 2) in *. lra.
  - exact Htext.
Qed.

(** The scrim rectangle of a bitmap of at least one row. *)
Lemma scrimH_nonneg (h : Z) (t : Q) : UINT_range h -> 0 <= scrimH h t.
Proof.
  intros Hh. pose proof (UINT_nonneg h Hh) as H0.
  rewrite scrimH_clamp. unfold clamp_upper_last. apply Q.min_glb.
  - eapply Qle_trans; [| apply Q.le_max_r].
    eapply Qle_trans; [| apply scrim_lower_ge_18]. discriminate.
  - assert (Hu : 0 <= 0.15 * inject_Z h) by lra.
    destruct (close_to_bounds _ _ Hu (scrim_upper_close h Hh)) as [H _]. lra.
Qed.

Lemma scrimH_le_part (h : Z) (t : Q) :
  UINT_range h -> scrimH h t <= inject_Z h * (151 # 1000).
Proof.
  intros Hh. pose proof (UINT_nonneg h Hh) as H0.
  pose proof (scrimH_le_upper h t) as H1.
  assert (Hu : 0 <= 0.15 * inject_Z h) by lra.
  destruct (close_to_bounds _ _ Hu (scrim_upper_close h Hh)) as [_ H]. lra.
Qed.

Lemma scrim_top (w h : Z) (t : Q) : UINT_range h ->
  let top := to_REAL (inject_Z h) - scrimH h t in
  inject_Z h * (849 # 1000) - inject_Z h * (1 # 16777216) <= top
  /\ top <= inject_Z h + inject_Z h * (1 # 16777216)
  /\ top - top * (1 # 16777216) <= Y (scrimRect w h t)
  /\ Y (scrimRect w h t) <= top + top * (1 # 16777216).
Proof.
  intros Hh top. pose proof (UINT_nonneg h Hh) as H0.
  destruct (to_REAL_UINT h Hh) as [Hr1 Hr2].
  pose proof (scrimH_nonneg h t Hh) as Hs0. pose proof (scrimH_le_part h t Hh) as Hs1.
  assert (Htop : 0 <= top) by (subst top; lra).
  destruct (to_REAL_near top Htop) as [Hy1 Hy2]. cbn [scrimRect Y]. fold top.
  split; [subst top; lra |]. split; [subst top; lra |]. split; assumption.
Qed.

Lemma scrim_rect_position (w h : Z) (t : Q) : (1 <= h)%Z -> UINT_range h ->
  0 < Y (scrimRect w h t)
  /\ Qabs (Y (scrimRect w h t) + Height (scrimRect w h t) - inject_Z h)
     <= inject_Z h * (1 # 4194304).
Proof.
  intros H1 Hh. assert (Hq : 1 <= inject_Z h).
  { change 1 with (inject_Z 1). rewrite <- Zle_Qle. exact H1. }
  destruct (scrim_top w h t Hh) as (Ha & Hb & Hc & Hd). cbv zeta in *.
  destruct (to_REAL_UINT h Hh) as [Hr1 Hr2].
  set (top := to_REAL (inject_Z h) - scrimH h t) in *.
  change (Height (scrimRect w h t)) with (scrimH h t).
  split; [lra |]. apply Qabs_Qle_condition. subst top. split; lra.
Qed.

(** When the measured text is lower than the scrim by more than the
    rounding of the rectangles can make up for, the text block starts in the
    band. *)
Lemma pad_le_part (h : Z) : UINT_range h ->
  pad h <= 8 + inject_Z h * (121 # 10000) + (1 # 1000).
Proof.
  intros Hh. pose proof (UINT_nonneg h Hh) as H0.
  assert (Hm : 0 <= Qmax 8 (0.012 * inject_Z h)).
  { eapply Qle_trans; [| apply Q.le_max_l]. discriminate. }
  destruct (close_to_bounds _ _ Hm (pad_close h Hh)) as [_ H].
  destruct (Qmax_cases 8 (0.012 * inject_Z h)) as [[_ E] | [_ E]]; rewrite E in H; lra.
Qed.

Lemma text_block_in_band (w h : Z) (t : Q) label font : UINT_range h ->
  t + (inject_Z h + 16) * (1 # 4194304) <= scrimH h t ->
  Y (scrimRect w h t)
  <= block_top t (DrawString label font (textRect w h t) label_format white_brush).
Proof.
  intros Hh Hfit. pose proof (UINT_nonneg h Hh) as H0.
  rewrite block_top_text. cbn [textRect Y Height].
  change (to_REAL (to_REAL (inject_Z h) - scrimH h t)) with (Y (scrimRect w h t)).
  destruct (scrim_top w h t Hh) as (Ha & Hb & Hc & Hd). cbv zeta in *.
  set (ys := Y (scrimRect w h t)) in *.
  pose proof (pad_ge_8 h) as Hp8. pose proof (pad_le_part h Hh) as Hp.
  pose proof (scrimH_nonneg h t Hh) as Hs0. pose proof (scrimH_le_part h t Hh) as Hs1.
  assert (Hys : 0 <= ys) by lra.
  destruct (to_REAL_near (ys + pad h)) as [Hy1 _]; [lra |].
  rewrite (to_REAL_compat (scrimH h t - to_REAL (2 * pad h)) (scrimH h t - 2 * pad h))
    by (rewrite two_pad; reflexivity).
  assert (Hht : scrimH h t - 2 * pad h
                - (scrimH h t + 2 * pad h) * (1 # 16777216)
                <= to_REAL (scrimH h t - 2 * pad h)).
  { destruct (Qlt_le_dec (scrimH h t - 2 * pad h) 0) as [Hn | Hpz].
    - destruct (to_REAL_near_neg (scrimH h t - 2 * pad h)) as [H _]; lra.
    - destruct (to_REAL_near (scrimH h t - 2 * pad h) Hpz) as [H _]. lra. }
  unfold Qdiv. change (/ 2) with (1 # 2). lra.
Qed.

End RenderingFacts.

Section Drawing.
Local Open Scope Q_scope.

(** C3, as the code has it.  On a bitmap of [h >= 1] rows the scrim
    rectangle starts below the top of the image and ends within
    [h * 2 ^ -22] of its bottom edge.  Drawing keeps the size of the bitmap,
    and every pixel of a row that lies wholly above the scrim rectangle and
    above the text block (the measured text, centred on [textRect] and not
    clipped) is the pixel of the input.  When the text block starts at or
    below the top of the scrim rectangle, the fill and both text passes start
    to paint at or below that top, and every pixel of a row wholly above the
    scrim rectangle is the pixel of the input; the text block does start
    there when the measured height is below the scrim height by
    [(h + 16) * 2 ^ -22] or more. *)
Theorem rows_above_scrim (pf : Platform) (label : wstring) (bmp : Bitmap) :
  let w := GetWidth bmp in
  let h := GetHeight bmp in
  let font := label_font (Segoe_IsAvailable pf) h in
  let t := Height (MeasureString pf label font (layoutRect w h) label_format) in
  let scrim := scrimRect w h t in
  let text_pass := DrawString label font (textRect w h t) label_format white_brush in
  (1 <= h)%Z -> UINT_range h ->
  (0 < Y scrim
   /\ Qabs (Y scrim + Height scrim - inject_Z h) <= inject_Z h * (1 # 4194304))
  /\ (GetWidth (composite pf label bmp) = w /\ GetHeight (composite pf label bmp) = h)
  /\ (forall x y : Z,
        inject_Z y + 1 <= Y scrim -> inject_Z y + 1 <= block_top t text_pass ->
        pixel (composite pf label bmp) x y = pixel bmp x y)
  /\ (Y scrim <= block_top t text_pass ->
      Forall (fun c => Y scrim <= block_top t c)
             (drawing_calls (gdi_calls pf label w h))
      /\ forall x y : Z, inject_Z y + 1 <= Y scrim ->
           pixel (composite pf label bmp) x y = pixel bmp x y)
  /\ (t + (inject_Z h + 16) * (1 # 4194304) <= scrimH h t ->
      Y scrim <= block_top t text_pass).
Proof.
  intros w h font t scrim text_pass H1 Hh.
  assert (Hcalls : drawing_calls (gdi_calls pf label w h) = draw_calls w h label font t).
  { unfold gdi_calls. rewrite gdi_calls_list. reflexivity. }
  assert (Hframe : forall x y : Z,
            inject_Z y + 1 <= Y scrim -> inject_Z y + 1 <= block_top t text_pass ->
            pixel (composite pf label bmp) x y = pixel bmp x y).
  { intros x y Hy1 Hy2. rewrite composite_render. fold w h font t.
    apply render_unpainted.
    assert (Htops : Forall (fun c => inject_Z y + 1 <= block_top t c)
                           (draw_calls w h label font t)).
    { pose proof (shadow_below_text w h t) as Hs.
      unfold text_pass in Hy2.
      unfold draw_calls. repeat apply Forall_cons_2; [| | | apply Forall_nil_2].
      - rewrite block_top_scrim. exact Hy1.
      - rewrite block_top_text in *. cbn [shadowRect textRect Height] in *.
        unfold Qdiv in *. change (/ 2) with (1 # 2) in *. lra.
      - exact Hy2. }
    eapply Forall_impl; [exact Htops |]. intros c Hc. apply row_above_unpainted, Hc. }
  split; [apply scrim_rect_position; assumption |].
  split.
  { rewrite composite_render. fold w h font t. apply render_size. }
  split; [exact Hframe |]. split.
  - intros Htop. rewrite Hcalls. split.
    + apply draw_calls_tops, Htop.
    + intros x y Hy. apply Hframe; [exact Hy | lra].
  - intros Hfit. apply text_block_in_band; assumption.
Qed.

Lemma rows_above_scrim_witness :
  let pf := Sample.platform Sample.photo 800 600 45 (PressOK (L "Hello")) IDNO Sample.encoders Ok
                            None in
  scrimH 600 45 == 61
  /\ pixel (composite pf (L "Hello") (Sample.bitmap 800 600)) 20 538 = Sample.red.
Proof.
  intros pf. split; [reflexivity |].
  assert (H1 : (1 <= GetHeight (Sample.bitmap 800 600))%Z) by (vm_compute; discriminate).
  assert (H2 : UINT_range (GetHeight (Sample.bitmap 800 600)))
    by (split; [discriminate | reflexivity]).
  destruct (rows_above_scrim pf (L "Hello") (Sample.bitmap 800 600) H1 H2)
    as (_ & _ & _ & Hband & Hfit).
  apply (proj2 (Hband (Hfit ltac:(apply Qle_bool_iff; reflexivity))) 20%Z 538%Z).
  apply Qle_bool_iff. reflexivity.
Defined.

(** C3 as stated fails, in two ways.  On an image 1000 pixels high whose
    label measures 240 pixels high (several lines), the scrim is cut to 150
    pixels and the band starts at row 850; the foreground pass, among the
    calls the program makes, is laid out centred on a text rectangle 126
    pixels high and is not clipped, so that its block covers rows 805 to
    1045: row 820, a row of [[0, H - Hscrim)], is one of those it paints.  On
    an image 600 pixels high whose label measures 45.75 pixels high the scrim
    rectangle starts at 538.25: row 538 is a row of [[0, H - Hscrim)], and
    the fill reaches into it. *)
Lemma rows_above_scrim_counterexample :
  (let pf := Sample.platform Sample.photo 1000 1000 240 (PressOK (L "Hello")) IDNO
                             Sample.encoders Ok None in
   let text_pass := DrawString (L "Hello") (label_font true 1000) (textRect 1000 1000 240)
                               label_format white_brush in
   In text_pass (drawing_calls (gdi_calls pf (L "Hello") 1000 1000))
   /\ inject_Z 1000 - scrimH 1000 240 == 850
   /\ (fst (painted_rows 240 text_pass) == 805 /\ snd (painted_rows 240 text_pass) == 1045)
   /\ row_painted 240 text_pass 820 = true
   /\ ~ Forall (spares_rows_above 1000 240)
               (drawing_calls (gdi_calls pf (L "Hello") 1000 1000)))
  /\ (let pf := Sample.platform Sample.photo 800 600 45.75 (PressOK (L "Hello")) IDNO
                                Sample.encoders Ok None in
      let fill := FillRectangle scrim_brush (scrimRect 800 600 45.75) in
      In fill (drawing_calls (gdi_calls pf (L "Hello") 800 600))
      /\ inject_Z 600 - scrimH 600 45.75 == 538.25
      /\ row_painted 45.75 fill 538 = true
      /\ ~ Forall (spares_rows_above 600 45.75)
                  (drawing_calls (gdi_calls pf (L "Hello") 800 600))).
Proof.
  split.
  - intros pf text_pass.
    assert (Hin : In text_pass (drawing_calls (gdi_calls pf (L "Hello") 1000 1000))).
    { right. right. left. reflexivity. }
    assert (Hrow : row_painted 240 text_pass 820 = true) by (vm_compute; reflexivity).
    split; [exact Hin |]. split; [vm_compute; reflexivity |].
    split; [split; vm_compute; reflexivity |]. split; [exact Hrow |].
    intros Hall. pose proof (proj1 (List.Forall_forall _ _) Hall text_pass Hin 820%Z) as H.
    rewrite H in Hrow; [discriminate Hrow | discriminate | reflexivity].
  - intros pf fill.
    assert (Hin : In fill (drawing_calls (gdi_calls pf (L "Hello") 800 600))).
    { left. reflexivity. }
    assert (Hrow : row_painted 45.75 fill 538 = true) by (vm_compute; reflexivity).
    split; [exact Hin |]. split; [vm_compute; reflexivity |]. split; [exact Hrow |].
    intros Hall. pose proof (proj1 (List.Forall_forall _ _) Hall fill Hin 538%Z) as H.
    rewrite H in Hrow; [discriminate Hrow | discriminate | reflexivity].
Qed.




End Drawing.
(** ** The save protocol *)

Section SaveFacts.
Variable pf : Platform.

Lemma Save_other (bmp : Bitmap) (path other : wstring) (clsid : CLSID) (fs fs' : FS) s :
  Save pf bmp path clsid fs = (s, fs') -> other <> path -> fs' !! other = fs !! other.
Proof.
  unfold Save. destruct (Bitmap_Save pf bmp path clsid (fs !! path)) as [s' [bytes|]];
    intros [= _ <-] Hne.
  - apply lookup_insert_ne. congruence.
  - apply lookup_delete_ne. congruence.
Qed.

Lemma MoveFileExW_failed (existing new : wstring) (fs fs' : FS) (e : N) :
  MoveFileExW pf existing new fs = (Some e, fs') -> fs' = fs.
Proof.
  unfold MoveFileExW. destruct (fs !! existing); [| intros [= _ <-]; reflexivity].
  destruct (MoveFileExW_error pf existing new fs); intros [= <-]; congruence.
Qed.

Lemma DeleteFileW_other (path other : wstring) (fs : FS) :
  other <> path -> DeleteFileW pf path fs !! other = fs !! other.
Proof.
  intros Hne. unfold DeleteFileW. destruct (DeleteFileW_ok pf path fs); [| reflexivity].
  apply lookup_delete_ne. congruence.
Qed.


(** In Overwrite mode a run that does not succeed leaves the source file
    as it was. *)
Lemma overwrite_failure_keeps_source (srcPath label : wstring) (fs : FS) :
  succeeded (fst (ProcessAndSave pf srcPath label true fs)) = false ->
  snd (ProcessAndSave pf srcPath label true fs) !! srcPath = fs !! srcPath.
Proof.
  unfold ProcessAndSave.
  destruct (negb (GdiplusStartup pf =? Ok)); [reflexivity |].
  destruct (Bitmap_FromFile pf (fs !! srcPath)) as [loaded|]; [| reflexivity].
  destruct (GetEncoderClsid _ _ _) as [found pngClsid].
  destruct (found =? -1); [reflexivity |].
  destruct (GetTempSiblingPath srcPath (GetTickCount pf)) as [tmp|] eqn:Etmp;
    [| reflexivity].
  apply temp_sibling_differs in Etmp.
  destruct (Save pf _ tmp pngClsid fs) as [s fs1] eqn:Esave.
  pose proof (Save_other _ _ srcPath _ _ _ _ Esave (not_eq_sym Etmp)) as H1.
  destruct (negb (s =? Ok)); [intros _; exact H1 |].
  destruct (MoveFileExW pf tmp srcPath fs1) as [[e|] fs2] eqn:Emove.
  - intros _. apply MoveFileExW_failed in Emove. subst fs2. cbn [snd].
    rewrite DeleteFileW_other by (apply not_eq_sym, Etmp). exact H1.
  - cbn [fst succeeded saved ok]. discriminate.
Qed.

End SaveFacts.



(** ** The prompt and the exit code *)

Lemma skip_leading_blank (iswspace : wchar -> bool) (s : wstring) :
  Forall (fun c => iswspace c = true) s -> skip_leading iswspace s = [].
Proof.
  induction 1 as [|c s Hc _ IH]; simpl; [reflexivity |]. rewrite Hc. exact IH.
Qed.

Lemma Trim_blank (iswspace : wchar -> bool) (s : wstring) :
  Forall (fun c => iswspace c = true) s -> Trim iswspace s = [].
Proof.
  intros H. unfold Trim. rewrite (skip_leading_blank _ _ H). reflexivity.
Qed.

Lemma PromptForText_no_label (pf : Platform) (out : wstring) :
  no_label pf -> PromptForText pf out = (false, out).
Proof.
  unfold no_label, PromptForText. destruct (prompt_event pf) as [|text| |]; try reflexivity.
  intros H. rewrite Trim_blank by exact H. reflexivity.
Qed.

(** C8.  The claim fails on the code at one input.  Started on an existing
    image whose path has 247 characters, with a label given and the answer
    Yes, the program reaches [GetTempSiblingPath]; the sibling has 262
    characters and does not fit [WCHAR tmp[MAX_PATH]], so [swprintf_s] has
    the CRT end the process.  Nothing is saved, nothing is shown, and the
    process ends with none of the exit codes 0 to 3, where the claim has 3
    for a run in which persistence fails. *)
Theorem long_path_ends_process (fs : FS) :
  let pf := Sample.platform Sample.long_photo 800 600 45 (PressOK (L "Hello")) IDYES
                            Sample.encoders Ok None in
  fs !! Sample.long_photo = Some Sample.old_bytes ->
  length Sample.long_photo = 247%nat
  /\ PathFileExistsW pf Sample.long_photo = true
  /\ PromptForText pf (L "") = (true, L "Hello")
  /\ GetTempSiblingPath Sample.long_photo (GetTickCount pf) = None
  /\ wWinMain pf fs = (Terminated, fs, [])
  /\ forall code, fst (fst (wWinMain pf fs)) <> Returned code.
Proof.
  intros pf Hfile.
  assert (Hrun : wWinMain pf fs = (Terminated, fs, [])).
  { unfold wWinMain, pf.
    cbn [argv PathFileExistsW Sample.platform].
    rewrite bool_decide_true by reflexivity. cbn [negb].
    change (PromptForText _ (L "")) with (true, L "Hello").
    cbn [negb MessageBox_choice Sample.platform].
    change (IDYES =? IDCANCEL) with false. change (IDYES =? IDYES) with true.
    cbv beta iota.
    unfold ProcessAndSave.
    cbn [GdiplusStartup Bitmap_FromFile ImageEncoders GetTickCount Sample.platform].
    rewrite Hfile.
    change (negb (Ok =? Ok)) with false. cbv beta iota.
    change (GetEncoderClsid Sample.encoders (L "image/png") 0%N) with (2, 3%N).
    change (2 =? -1) with false. cbv beta iota.
    change (GetTempSiblingPath Sample.long_photo 1000) with (@None (list N)).
    reflexivity. }
  split; [reflexivity |].
  split; [apply bool_decide_eq_true; reflexivity |].
  split; [reflexivity |]. split; [reflexivity |]. split; [exact Hrun |].
  intros code. rewrite Hrun. discriminate.
Qed.

Lemma long_path_ends_process_witness :
  wWinMain (Sample.platform Sample.long_photo 800 600 45 (PressOK (L "Hello")) IDYES
                            Sample.encoders Ok None)
           {[ Sample.long_photo := Sample.old_bytes ]}
  = (Terminated, {[ Sample.long_photo := Sample.old_bytes ]}, []).
Proof.
  apply (long_path_ends_process {[ Sample.long_photo := Sample.old_bytes ]}).
  apply lookup_singleton_eq.
Defined.

(** * Further properties of the code *)

(** ** [Trim] *)

Section TrimFacts.
Variable iswspace : wchar -> bool.

Lemma skip_leading_spec (s : wstring) :
  exists lead, s = lead ++ skip_leading iswspace s /\ blank iswspace lead
               /\ match skip_leading iswspace s with
                  | [] => True
                  | c :: _ => iswspace c = false
                  end.
Proof.
  induction s as [|c s IH]; simpl.
  - exists []. split; [reflexivity |]. split; [constructor | exact I].
  - destruct (iswspace c) eqn:Ec.
    + destruct IH as (lead & Hs & Hb & Hh). exists (c :: lead).
      split; [simpl; congruence |]. split; [constructor; assumption | exact Hh].
    + exists []. split; [reflexivity |]. split; [constructor | exact Ec].
Qed.

Lemma skip_trailing_spec (s : wstring) :
  exists trail, s = skip_trailing iswspace s ++ trail /\ blank iswspace trail
                /\ match last (skip_trailing iswspace s) with
                   | None => True
                   | Some c => iswspace c = false
                   end
                /\ match s with
                   | [] => True
                   | c :: _ => iswspace c = false ->
                               exists r, skip_trailing iswspace s = c :: r
                   end.
Proof.
  induction s as [|c s IH]; simpl.
  - exists []. repeat split; constructor.
  - destruct IH as (trail & Hs & Hb & Hl & _).
    destruct (skip_trailing iswspace s) as [|k kept] eqn:Ek.
    + destruct (iswspace c) eqn:Ec.
      * exists (c :: trail). simpl in Hs. subst s.
        split; [reflexivity |]. split; [constructor; assumption |].
        split; [exact I | discriminate].
      * exists trail. simpl in Hs. subst s.
        split; [reflexivity |]. split; [exact Hb |].
        split; [exact Ec | intros _; eauto].
    + exists trail. split; [simpl; f_equal; exact Hs |]. split; [exact Hb |].
      split; [| intros _; eauto].
      change (last (c :: k :: kept)) with (last (k :: kept)). exact Hl.
Qed.

Lemma skip_leading_padded (lead m : wstring) :
  blank iswspace lead ->
  match m with [] => True | c :: _ => iswspace c = false end ->
  m <> [] -> skip_leading iswspace (lead ++ m) = m.
Proof.
  intros Hb Hm Hne. induction Hb as [|c lead Hc _ IH]; simpl.
  - destruct m as [|c m]; [contradiction |]. simpl. rewrite Hm. reflexivity.
  - rewrite Hc. exact IH.
Qed.

Lemma skip_trailing_blank (s : wstring) :
  blank iswspace s -> skip_trailing iswspace s = [].
Proof.
  induction 1 as [|c s Hc _ IH]; simpl; [reflexivity |]. rewrite IH, Hc. reflexivity.
Qed.

Lemma skip_trailing_padded (m trail : wstring) :
  blank iswspace trail ->
  match last m with None => True | Some c => iswspace c = false end ->
  skip_trailing iswspace (m ++ trail) = m.
Proof.
  intros Hb. induction m as [|c m IH]; intros Hl.
  - simpl. apply skip_trailing_blank, Hb.
  - simpl. destruct m as [|k m].
    + simpl in *. rewrite (skip_trailing_blank _ Hb), Hl. reflexivity.
    + change (last (c :: k :: m)) with (last (k :: m)) in Hl.
      rewrite (IH Hl). reflexivity.
Qed.

Lemma Trim_parts (s : wstring) :
  exists lead trail,
    s = lead ++ Trim iswspace s ++ trail
    /\ blank iswspace lead /\ blank iswspace trail
    /\ trimmed iswspace (Trim iswspace s).
Proof.
  unfold Trim.
  destruct (skip_leading_spec s) as (lead & Hs & Hlead & Hhead).
  destruct (skip_trailing_spec (skip_leading iswspace s)) as (trail & Ht & Htrail & Hlast & Hkeep).
  exists lead, trail. split; [rewrite <- Ht; exact Hs |].
  split; [exact Hlead |]. split; [exact Htrail |]. split; [| exact Hlast].
  destruct (skip_leading iswspace s) as [|c r]; [exact I |].
  destruct (Hkeep Hhead) as [r' ->]. exact Hhead.
Qed.

Lemma Trim_around (lead m trail : wstring) :
  blank iswspace lead -> blank iswspace trail -> trimmed iswspace m ->
  Trim iswspace (lead ++ m ++ trail) = m.
Proof.
  intros Hlead Htrail [Hhead Hlast]. unfold Trim.
  destruct m as [|c m].
  - simpl. unfold blank in *.
    rewrite (skip_leading_blank iswspace (lead ++ trail)) by (apply Forall_app; auto).
    reflexivity.
  - rewrite (skip_leading_padded lead ((c :: m) ++ trail) Hlead Hhead) by discriminate.
    apply skip_trailing_padded; assumption.
Qed.

Lemma Trim_nil_blank (s : wstring) :
  Trim iswspace s = [] -> blank iswspace s.
Proof.
  intros H. destruct (Trim_parts s) as (lead & trail & Hs & Hlead & Htrail & _).
  rewrite H in Hs. rewrite Hs. apply Forall_app. auto.
Qed.

(** X1.  [Trim s] is [s] without a leading and a trailing run of white
    space; it neither starts nor ends with white space, and it is no longer
    than [s]. *)
Theorem Trim_decompose (s : wstring) :
  (exists lead trail,
     s = lead ++ Trim iswspace s ++ trail
     /\ blank iswspace lead /\ blank iswspace trail)
  /\ trimmed iswspace (Trim iswspace s)
  /\ (length (Trim iswspace s) <= length s)%nat.
Proof.
  destruct (Trim_parts s) as (lead & trail & Hs & Hlead & Htrail & Ht).
  split; [exists lead, trail; auto |]. split; [exact Ht |].
  rewrite Hs at 2. rewrite !length_app. lia.
Qed.

(** X2.  White space around a text that neither starts nor ends with white
    space is all that [Trim] removes: white space inside the text stays. *)
Theorem Trim_padded (lead m trail : wstring) :
  blank iswspace lead -> blank iswspace trail -> trimmed iswspace m ->
  Trim iswspace (lead ++ m ++ trail) = m.
Proof.
  apply Trim_around.
Qed.

(** X3.  [Trim] returns the empty text exactly for a text of white space
    only (the empty text included). *)
Theorem Trim_empty_iff (s : wstring) :
  Trim iswspace s = [] <-> blank iswspace s.
Proof.
  split; [apply Trim_nil_blank | apply Trim_blank].
Qed.

(** X4.  [Trim] leaves a text as it is exactly when the text neither starts
    nor ends with white space; trimming twice is trimming once. *)
Theorem Trim_fixed_point (s : wstring) :
  (Trim iswspace s = s <-> trimmed iswspace s)
  /\ Trim iswspace (Trim iswspace s) = Trim iswspace s.
Proof.
  assert (Hfix : forall m, trimmed iswspace m -> Trim iswspace m = m).
  { intros m Hm.
    assert (Hnil : blank iswspace []) by constructor.
    pose proof (Trim_around [] m [] Hnil Hnil Hm) as H.
    cbn [app] in H. rewrite app_nil_r in H. exact H. }
  split; [split |].
  - intros H. rewrite <- H.
    destruct (Trim_parts s) as (_ & _ & _ & _ & _ & Ht). exact Ht.
  - apply Hfix.
  - apply Hfix. destruct (Trim_parts s) as (_ & _ & _ & _ & _ & Ht). exact Ht.
Qed.
End TrimFacts.

Lemma Trim_padded_witness :
  Trim Sample.iswspace (L "  " ++ L "add  a label" ++ L "   ") = L "add  a label".
Proof.
  apply (Trim_padded Sample.iswspace (L "  ") (L "add  a label") (L "   ")).
  - repeat constructor.
  - repeat constructor.
  - split; reflexivity.
Defined.

Lemma Trim_empty_iff_witness :
  Trim Sample.iswspace (L "   ") = [].
Proof.
  apply (proj2 (Trim_empty_iff Sample.iswspace (L "   "))). repeat constructor.
Defined.

Lemma Trim_fixed_point_witness :
  Trim Sample.iswspace (L "add  a label") = L "add  a label".
Proof.
  apply (proj1 (Trim_fixed_point Sample.iswspace (L "add  a label"))). split; reflexivity.
Defined.

(** ** [PromptForText] *)

Lemma Trim_length (iswspace : wchar -> bool) (s : wstring) :
  (length (Trim iswspace s) <= length s)%nat.
Proof.
  destruct (Trim_parts iswspace s) as (lead & trail & Hs & _).
  rewrite Hs at 2. rewrite !length_app. lia.
Qed.

(** X5.  The prompt hands out a label exactly when OK was pressed on a text
    whose first 1023 characters are not all white space.  The label is then
    those characters trimmed: not empty, at most 1023 characters, without
    white space at either end.  In every other case [out] is left alone. *)
Theorem PromptForText_label (pf : Platform) (out : wstring) :
  (fst (PromptForText pf out) = true <->
   exists text, prompt_event pf = PressOK text
                /\ ~ blank (iswspace pf) (take 1023 text))
  /\ (forall text, prompt_event pf = PressOK text ->
        fst (PromptForText pf out) = true ->
        snd (PromptForText pf out) = Trim (iswspace pf) (take 1023 text)
        /\ snd (PromptForText pf out) <> []
        /\ (length (snd (PromptForText pf out)) <= 1023)%nat
        /\ trimmed (iswspace pf) (snd (PromptForText pf out)))
  /\ (fst (PromptForText pf out) = false -> snd (PromptForText pf out) = out).
Proof.
  unfold PromptForText.
  destruct (prompt_event pf) as [|text| |]; cbn [fst snd].
  1,3,4: split; [split; [discriminate | intros (t & Ht & _); discriminate] |];
         split; [discriminate | reflexivity].
  destruct (decide (Trim (iswspace pf) (take 1023 text) = [])) as [He|Hne].
  - rewrite bool_decide_true by exact He. cbn [negb].
    split; [| split; [discriminate | reflexivity]].
    split; [discriminate |]. intros (t & [= <-] & Hnb). exfalso.
    apply Hnb, Trim_nil_blank, He.
  - rewrite bool_decide_false by exact Hne. cbn [negb].
    split; [| split; [| discriminate]].
    + split; [| reflexivity]. intros _. exists text. split; [reflexivity |].
      intros Hb. apply Hne, Trim_blank, Hb.
    + intros t [= <-] _. split; [reflexivity |]. split; [exact Hne |]. split.
      * etransitivity; [apply Trim_length |]. rewrite length_take. lia.
      * destruct (Trim_parts (iswspace pf) (take 1023 text))
          as (_ & _ & _ & _ & _ & Ht). exact Ht.
Qed.

Lemma PromptForText_label_witness :
  snd (PromptForText (Sample.platform Sample.photo 800 600 45 (PressOK (L "  Hello  ")) IDNO
                                      Sample.encoders Ok None) (L ""))
  = L "Hello".
Proof.
  destruct (proj1 (proj2 (PromptForText_label
              (Sample.platform Sample.photo 800 600 45 (PressOK (L "  Hello  ")) IDNO
                               Sample.encoders Ok None) (L "")))
              (L "  Hello  ") eq_refl eq_refl) as [H _].
  rewrite H. reflexivity.
Defined.

(** ** [PathWithSuffixBeforeExt] *)

(** The place where the suffix goes depends on the path alone. *)
Lemma PathWithSuffixBeforeExt_split (P : wstring) :
  exists a b, P = a ++ b
              /\ forall sfx, PathWithSuffixBeforeExt P sfx = a ++ sfx ++ b.
Proof.
  unfold PathWithSuffixBeforeExt, winsert.
  destruct (find_last_of DOT P) as [d|].
  - destruct (find_last_of SEPARATORS P) as [k|].
    + destruct (d <? k)%nat.
      * exists P, []. split; [symmetry; apply app_nil_r |].
        intros sfx. rewrite app_nil_r. reflexivity.
      * exists (take d P), (drop d P). split; [symmetry; apply take_drop | reflexivity].
    + exists (take d P), (drop d P). split; [symmetry; apply take_drop | reflexivity].
  - exists P, []. split; [symmetry; apply app_nil_r |].
    intros sfx. rewrite app_nil_r. reflexivity.
Qed.

(** X6.  [PathWithSuffixBeforeExt] only adds the suffix: the result is as long
    as path and suffix together, the empty suffix gives the path back, a
    suffix that is not empty gives another path, and two suffixes that give
    the same result are equal. *)
Theorem PathWithSuffixBeforeExt_adds (P sfx : wstring) :
  length (PathWithSuffixBeforeExt P sfx) = (length P + length sfx)%nat
  /\ PathWithSuffixBeforeExt P [] = P
  /\ (sfx <> [] -> PathWithSuffixBeforeExt P sfx <> P)
  /\ (forall sfx', PathWithSuffixBeforeExt P sfx = PathWithSuffixBeforeExt P sfx' ->
                   sfx = sfx').
Proof.
  destruct (PathWithSuffixBeforeExt_split P) as (a & b & HP & Hins).
  assert (Hlen : length (PathWithSuffixBeforeExt P sfx) = (length P + length sfx)%nat).
  { rewrite Hins, HP, !length_app. lia. }
  split; [exact Hlen |]. split; [rewrite Hins; symmetry; exact HP |]. split.
  - intros Hne Heq. rewrite Heq in Hlen. destruct sfx; [contradiction | simpl in Hlen; lia].
  - intros sfx' Heq. rewrite !Hins in Heq.
    apply app_inv_head in Heq. apply app_inv_tail in Heq. exact Heq.
Qed.

Lemma PathWithSuffixBeforeExt_adds_witness :
  PathWithSuffixBeforeExt Sample.photo (L "_labeled") <> Sample.photo.
Proof.
  apply (proj1 (proj2 (proj2 (PathWithSuffixBeforeExt_adds Sample.photo (L "_labeled"))))).
  discriminate.
Defined.

(** X7.  [PathWithSuffixBeforeExt] works on the last component of the path:
    everything up to and including the last separator is kept, and what
    follows is treated as a path of its own. *)
Theorem PathWithSuffixBeforeExt_last_component (dir name sfx : wstring) (c : wchar) :
  wchar_in c SEPARATORS = true -> free_of SEPARATORS name ->
  PathWithSuffixBeforeExt (dir ++ c :: name) sfx
  = dir ++ c :: PathWithSuffixBeforeExt name sfx.
Proof.
  intros Hc Hname.
  destruct (find_last_of DOT name) as [d|] eqn:Ed.
  - apply find_last_of_Some in Ed as (k & ext & Hn & _ & Hk & Hext).
    apply in_DOT in Hk. subst k.
    assert (Hfree : free_of (DOT ++ SEPARATORS) ext).
    { apply free_of_chars_app. split; [exact Hext |].
      rewrite Hn in Hname. apply free_of_app in Hname as [_ Hname].
      apply Forall_cons in Hname as [_ Hname]. exact Hname. }
    rewrite Hn.
    rewrite (PathWithSuffixBeforeExt_ext (take d name) ext sfx Hfree).
    replace (dir ++ c :: take d name ++ wc "." :: ext)
      with ((dir ++ c :: take d name) ++ wc "." :: ext)
      by (rewrite <- app_assoc; reflexivity).
    rewrite (PathWithSuffixBeforeExt_ext _ ext sfx Hfree).
    rewrite <- app_assoc. reflexivity.
  - apply find_last_of_None in Ed.
    rewrite (PathWithSuffixBeforeExt_dir_dot dir name sfx c Hc Ed).
    rewrite (PathWithSuffixBeforeExt_no_dot name sfx Ed).
    rewrite <- app_assoc. reflexivity.
Qed.

Lemma PathWithSuffixBeforeExt_last_component_witness :
  PathWithSuffixBeforeExt (L "C:\pics.2024" ++ wc "\" :: L "photo.png") (L "_labeled")
  = L "C:\pics.2024" ++ wc "\" :: L "photo_labeled.png".
Proof.
  rewrite (PathWithSuffixBeforeExt_last_component (L "C:\pics.2024") (L "photo.png")
             (L "_labeled") (wc "\")).
  - reflexivity.
  - reflexivity.
  - repeat constructor.
Defined.

(** ** [GetTempSiblingPath] *)

(** X8.  Whatever the path, a sibling that [GetTempSiblingPath] returns is not
    the path itself, fits a buffer of [MAX_PATH] characters, ends in the tick
    count followed by [.png], which is its extension, and is returned for no
    other tick count. *)
Theorem temp_sibling_any_path (P : wstring) (tick : N) (q : wstring) :
  GetTempSiblingPath P tick = Some q ->
  q <> P
  /\ (length q < MAX_PATH)%nat
  /\ (exists front, q = front ++ L "_label_tmp_" ++ to_wstring tick ++ L ".png")
  /\ sp_ext (wsplitpath q) = L ".png"
  /\ forall tick', GetTempSiblingPath P tick' = Some q -> tick' = tick.
Proof.
  intros H. pose proof (temp_sibling_differs _ _ _ H) as Hne.
  pose proof H as H'. apply GetTempSiblingPath_shape in H' as (Hq & Hsplit & Hfit).
  split; [exact Hne |]. split; [apply fits_length, Hfit |]. split; [| split].
  - exists (sp_drive (wsplitpath_s P) ++ sp_dir (wsplitpath_s P) ++ sp_fname (wsplitpath_s P)).
    rewrite Hq. unfold join, temp_parts. cbn [sp_drive sp_dir sp_fname sp_ext].
    rewrite <- !app_assoc. reflexivity.
  - rewrite Hsplit. reflexivity.
  - intros tick' H2. apply GetTempSiblingPath_shape in H2 as (Hq' & _ & _).
    rewrite Hq in Hq'. apply temp_parts_tick_inj in Hq'. symmetry. exact Hq'.
Qed.

Lemma temp_sibling_any_path_witness :
  L "C:\pics\photo_label_tmp_1000.png" <> Sample.photo
  /\ forall tick', GetTempSiblingPath Sample.photo tick'
                   = Some (L "C:\pics\photo_label_tmp_1000.png") -> tick' = 1000%N.
Proof.
  destruct (temp_sibling_any_path Sample.photo 1000 (L "C:\pics\photo_label_tmp_1000.png")
              eq_refl) as (H1 & _ & _ & _ & H2).
  split; assumption.
Defined.

(** The decimal text of a 32-bit value has at most ten digits. *)
Lemma L_length (s : string) : length (L s) = String.length s.
Proof.
  unfold L. rewrite length_map. induction s as [|a s IH]; simpl; [reflexivity |].
  rewrite IH. reflexivity.
Qed.

Lemma string_of_uint_length (d : Decimal.uint) :
  String.length (NilEmpty.string_of_uint d) = Decimal.nb_digits d.
Proof. induction d; simpl; try rewrite IHd; reflexivity. Qed.

Lemma usize_nb_digits (d : Decimal.uint) :
  DecimalPos.Unsigned.usize d = N.of_nat (Decimal.nb_digits d).
Proof.
  induction d; cbn [DecimalPos.Unsigned.usize Decimal.nb_digits];
    try rewrite IHd; lia.
Qed.

Lemma of_uint_acc_lower (d : Decimal.uint) (acc : positive) :
  (10 ^ DecimalPos.Unsigned.usize d <= Npos (Pos.of_uint_acc d acc))%N.
Proof.
  rewrite DecimalPos.Unsigned.of_uint_acc_rev.
  generalize (10 ^ DecimalPos.Unsigned.usize d)%N (DecimalPos.Unsigned.of_lu (Decimal.rev d)).
  intros a b. nia.
Qed.

Lemma Pos_to_uint_digits (p : positive) :
  (10 ^ N.of_nat (Decimal.nb_digits (Pos.to_uint p) - 1) <= Npos p)%N.
Proof.
  pose proof (DecimalPos.Unsigned.of_to p) as Hof.
  pose proof (DecimalPos.Unsigned.to_uint_nonzero p) as Hnz.
  pose proof (DecimalPos.Unsigned.to_uint_nonnil p) as Hnn.
  destruct (Pos.to_uint p) as [|d|d|d|d|d|d|d|d|d|d] eqn:E; [congruence | ..];
    cbn [Decimal.nb_digits]; rewrite Nat.sub_succ, Nat.sub_0_r, <- usize_nb_digits;
    try (rewrite <- Hof; cbn [Pos.of_uint]; apply of_uint_acc_lower).
  exfalso. cbn [Pos.of_uint] in Hof.
  pose proof (DecimalPos.Unsigned.to_of d) as Hto. rewrite Hof in Hto.
  cbn [N.to_uint] in Hto. rewrite E in Hto.
  destruct d as [|d|d|d|d|d|d|d|d|d|d]; [apply Hnz; reflexivity | ..].
  all: match type of Hto with
       | _ = Decimal.unorm ?u =>
           assert (Hu : u <> Decimal.Nil) by discriminate;
           pose proof (DecimalFacts.nb_digits_unorm u Hu) as Hle;
           rewrite <- Hto in Hle; cbn [Decimal.nb_digits] in Hle; lia
       end.
Qed.

Lemma to_wstring_length (n : N) :
  (n < 2 ^ 32)%N -> (1 <= length (to_wstring n) <= 10)%nat.
Proof.
  intros Hn. unfold to_wstring. rewrite L_length.
  assert (Hs : NilZero.string_of_uint (N.to_uint n) = NilEmpty.string_of_uint (N.to_uint n)).
  { pose proof (N_to_uint_nonnil n). destruct (N.to_uint n); [congruence | ..]; reflexivity. }
  rewrite Hs, string_of_uint_length.
  destruct n as [|p]; [cbn; lia |].
  cbn [N.to_uint]. pose proof (Pos_to_uint_digits p) as Hlow.
  pose proof (DecimalPos.Unsigned.to_uint_nonnil p) as Hnn.
  assert (Hpos : (1 <= Decimal.nb_digits (Pos.to_uint p))%nat).
  { destruct (Pos.to_uint p); [congruence | ..]; cbn [Decimal.nb_digits]; lia. }
  split; [exact Hpos |].
  destruct (le_lt_dec (Decimal.nb_digits (Pos.to_uint p)) 10) as [Hle|Hgt]; [exact Hle |].
  exfalso.
  assert (Hpow : (10 ^ 10 <= 10 ^ N.of_nat (Decimal.nb_digits (Pos.to_uint p) - 1))%N).
  { apply N.pow_le_mono_r; lia. }
  change (10 ^ 10)%N with 10000000000%N in Hpow.
  change (2 ^ 32)%N with 4294967296%N in Hn. lia.
Qed.

Lemma GetTempSiblingPath_fitting (P : wstring) (tick : N) :
  wsplitpath_s P = wsplitpath P ->
  fits (join (temp_parts (wsplitpath P) tick)) MAX_PATH = true ->
  GetTempSiblingPath P tick = Some (join (temp_parts (wsplitpath P) tick)).
Proof.
  intros Hs Hfit.
  pose proof (proj1 (wsplitpath_well_split P)) as Hws.
  unfold GetTempSiblingPath, wmakepath_s, swprintf_s. rewrite Hs.
  rewrite (wmakepath_folder _ Hws).
  assert (Hfolder : fits (sp_drive (wsplitpath P) ++ sp_dir (wsplitpath P)) MAX_PATH = true).
  { apply fits_length. apply fits_length in Hfit.
    unfold join, temp_parts in Hfit. cbn [sp_drive sp_dir sp_fname sp_ext] in Hfit.
    rewrite !length_app in Hfit. rewrite length_app. lia. }
  rewrite Hfolder.
  replace ((sp_drive (wsplitpath P) ++ sp_dir (wsplitpath P)) ++ sp_fname (wsplitpath P)
           ++ L "_label_tmp_" ++ to_wstring tick ++ L ".png")
    with (join (temp_parts (wsplitpath P) tick))
    by (unfold join, temp_parts; cbn [sp_drive sp_dir sp_fname sp_ext];
        rewrite <- !app_assoc; reflexivity).
  rewrite Hfit. reflexivity.
Qed.

(** X9.  For a 32-bit tick count and a path of at most 234 characters
    [GetTempSiblingPath] always returns: the sibling, at most 25 characters
    longer than the path, fits its buffer. *)
Theorem temp_sibling_short_path (P : wstring) (tick : N) :
  (tick < 2 ^ 32)%N -> (length P <= 234)%nat ->
  GetTempSiblingPath P tick = Some (join (temp_parts (wsplitpath P) tick))
  /\ (length (join (temp_parts (wsplitpath P) tick)) <= length P + 25)%nat.
Proof.
  intros Htick Hlen.
  pose proof (proj2 (wsplitpath_well_split P)) as Hjoin.
  pose proof (to_wstring_length tick Htick) as [_ Hdigits].
  assert (Hparts : (length (sp_drive (wsplitpath P)) + length (sp_dir (wsplitpath P))
                    + length (sp_fname (wsplitpath P)) + length (sp_ext (wsplitpath P))
                    = length P)%nat).
  { rewrite <- Hjoin at 5. unfold join. rewrite !length_app. lia. }
  assert (Hsib : (length (join (temp_parts (wsplitpath P) tick)) <= length P + 25)%nat).
  { unfold join, temp_parts. cbn [sp_drive sp_dir sp_fname sp_ext].
    rewrite !length_app. change (length (L "_label_tmp_")) with 11%nat.
    change (length (L ".png")) with 4%nat. lia. }
  split; [| exact Hsib].
  apply GetTempSiblingPath_fitting.
  - apply wsplitpath_s_fits. rewrite !andb_true_iff.
    repeat split; apply fits_length; unfold _MAX_DIR, _MAX_FNAME, _MAX_EXT; lia.
  - apply fits_length. unfold MAX_PATH. lia.
Qed.

Lemma temp_sibling_short_path_witness :
  GetTempSiblingPath Sample.photo 4294967295
  = Some (L "C:\pics\photo_label_tmp_4294967295.png").
Proof.
  apply (temp_sibling_short_path Sample.photo 4294967295); [reflexivity |].
  vm_compute. lia.
Defined.

(** X10.  When the directory, the base name or the extension of the path
    does not fit its buffer, [_wsplitpath_s] hands out empty parts and the
    result is the bare name [_label_tmp_<tick>.png], without the drive and
    the directory of the path. *)
Theorem temp_sibling_oversized_part (P : wstring) (tick : N) :
  (tick < 2 ^ 32)%N ->
  fits (sp_dir (wsplitpath P)) _MAX_DIR && fits (sp_fname (wsplitpath P)) _MAX_FNAME
    && fits (sp_ext (wsplitpath P)) _MAX_EXT = false ->
  GetTempSiblingPath P tick = Some (L "_label_tmp_" ++ to_wstring tick ++ L ".png").
Proof.
  intros Htick Hparts.
  pose proof (to_wstring_length tick Htick) as [_ Hdigits].
  assert (Hs : wsplitpath_s P = mkSplitPath [] [] [] []).
  { unfold wsplitpath_s.
    rewrite (well_split_drive_fits _ (proj1 (wsplitpath_well_split P))).
    cbn [andb]. rewrite <- andb_assoc in Hparts.
    destruct (fits (sp_dir (wsplitpath P)) _MAX_DIR); cbn [andb] in *;
      [rewrite Hparts |]; reflexivity. }
  unfold GetTempSiblingPath. rewrite Hs. cbn [sp_drive sp_dir sp_fname sp_ext].
  change (wmakepath_s MAX_PATH [] [] (L "") (L "")) with (Some (@nil N)).
  cbn [app]. unfold swprintf_s.
  assert (Hfit : fits (L "_label_tmp_" ++ to_wstring tick ++ L ".png") MAX_PATH = true).
  { apply fits_length. rewrite !length_app.
    change (length (L "_label_tmp_")) with 11%nat.
    change (length (L ".png")) with 4%nat. unfold MAX_PATH. lia. }
  rewrite Hfit. reflexivity.
Qed.

Lemma temp_sibling_oversized_part_witness :
  length (L "C:\" ++ repeat (wc "d") 254 ++ L "\a") = 259%nat
  /\ GetTempSiblingPath (L "C:\" ++ repeat (wc "d") 254 ++ L "\a") 1000
     = Some (L "_label_tmp_1000.png").
Proof.
  split; [reflexivity |].
  apply (temp_sibling_oversized_part (L "C:\" ++ repeat (wc "d") 254 ++ L "\a") 1000);
    reflexivity.
Defined.

(** ** [GetEncoderClsid] *)

Lemma encoder_loop_first (format : wstring) (enc : list ImageCodecInfo) (j : Z)
    (i : nat) (e : ImageCodecInfo) :
  enc !! i = Some e -> MimeType e = format ->
  (forall (k : nat) e', (k < i)%nat -> enc !! k = Some e' -> MimeType e' <> format) ->
  encoder_loop format enc j = Some (j + Z.of_nat i, Clsid e).
Proof.
  revert j i. induction enc as [|e0 enc IH]; intros j i Hi Hm Hfirst; [discriminate |].
  simpl. destruct i as [|i].
  - injection Hi as ->. rewrite (proj2 (wcscmp_eq_true _ _) Hm).
    f_equal. f_equal. lia.
  - destruct (wcscmp_eq (MimeType e0) format) eqn:E.
    + apply wcscmp_eq_true in E. exfalso. apply (Hfirst 0%nat e0); [lia | reflexivity | exact E].
    + rewrite (IH (j + 1) i Hi Hm).
      * f_equal. f_equal. lia.
      * intros k e' Hk. apply (Hfirst (S k)). lia.
Qed.

(** X11.  When the enumeration works, [GetEncoderClsid] finds a registered
    format: it returns the index of the first encoder with the requested MIME
    type and stores its CLSID, whatever follows that encoder in the array. *)
Theorem encoder_found (gdi : EncoderEnum) (format : wstring) (pClsid : CLSID)
    (i : nat) (e : ImageCodecInfo) :
  Z.of_nat (length (enum_encoders gdi)) < 2 ^ 31 ->
  enum_size gdi <> 0%N -> enum_status gdi = Ok ->
  enum_encoders gdi !! i = Some e -> MimeType e = format ->
  (forall (k : nat) e', (k < i)%nat -> enum_encoders gdi !! k = Some e' ->
                        MimeType e' <> format) ->
  GetEncoderClsid gdi format pClsid = (Z.of_nat i, Clsid e).
Proof.
  intros Hnum Hsz Hst Hi Hm Hfirst. unfold GetEncoderClsid.
  destruct (N.eqb_spec (enum_size gdi) 0); [contradiction |].
  rewrite Hst. cbn [negb Z.eqb Ok].
  rewrite (encoder_loop_first format _ 0 i e Hi Hm Hfirst).
  assert (Hlt : (i < length (enum_encoders gdi))%nat) by (eapply lookup_lt_Some, Hi).
  rewrite int_of_UINT_small by lia. f_equal; lia.
Qed.

Lemma encoder_found_witness :
  GetEncoderClsid (mkEncoderEnum 1040%N Ok
                     (enum_encoders Sample.encoders ++ [mkCodec 9%N (L "image/png")]))
                  (L "image/png") 0%N
  = (2, 3%N).
Proof.
  apply (encoder_found _ (L "image/png") 0%N 2 (mkCodec 3%N (L "image/png")));
    try reflexivity; try discriminate.
  intros [|[|k]] e' Hk; [intros [= <-]; discriminate | intros [= <-]; discriminate | lia].
Defined.

(** ** The rectangles of the label *)

Section Rectangles.
Local Open Scope Q_scope.

Lemma pad_ge_part (h : Z) : UINT_range h -> inject_Z h * (119 # 10000) <= pad h.
Proof.
  intros Hh. pose proof (UINT_nonneg h Hh) as H0.
  assert (Hm : 0 <= Qmax 8 (0.012 * inject_Z h)).
  { eapply Qle_trans; [| apply Q.le_max_l]. discriminate. }
  destruct (close_to_bounds _ _ Hm (pad_close h Hh)) as [H _].
  pose proof (Q.le_max_r 8 (0.012 * inject_Z h)) as Hr. lra.
Qed.

Lemma scrimH_positive (h : Z) (t : Q) : (1 <= h)%Z -> UINT_range h -> 0 < scrimH h t.
Proof.
  intros H1 Hh. assert (Hq : 1 <= inject_Z h).
  { change 1 with (inject_Z 1). rewrite <- Zle_Qle. exact H1. }
  assert (Hu : 0 <= 0.15 * inject_Z h) by lra.
  destruct (close_to_bounds _ _ Hu (scrim_upper_close h Hh)) as [Hup _].
  pose proof (scrim_lower_ge_18 h) as Hlo.
  rewrite scrimH_clamp. unfold clamp_upper_last.
  destruct (Qmin_cases (Qmax (to_REAL (t + 2 * pad h)) (scrim_lower h)) (scrim_upper h))
    as [[_ E] | [_ E]]; rewrite E; [| lra].
  eapply Qlt_le_trans; [| apply Q.le_max_r]. lra.
Qed.

(** X12.  For a bitmap of [h >= 1] rows, [h] a [UINT], and any measured text
    height, the scrim rectangle starts at the left edge and is as wide as the
    [REAL] value of the width; its height is positive and at most the [REAL]
    value of [0.15 h], itself at most [0.15 h (1 + 2 ^ -23)]; it starts below
    the top of the image and ends within [h * 2 ^ -22] of its bottom edge. *)
Theorem scrim_rect_in_image (w h : Z) (boundsHeight : Q) :
  (1 <= h)%Z -> UINT_range h ->
  0 < Height (scrimRect w h boundsHeight)
  /\ Height (scrimRect w h boundsHeight) <= scrim_upper h
  /\ scrim_upper h <= 0.15 * inject_Z h * (1 + (1 # 8388608))
  /\ X (scrimRect w h boundsHeight) == 0
  /\ Width (scrimRect w h boundsHeight) == to_REAL (inject_Z w)
  /\ 0 < Y (scrimRect w h boundsHeight)
  /\ Qabs (Y (scrimRect w h boundsHeight) + Height (scrimRect w h boundsHeight) - inject_Z h)
     <= inject_Z h * (1 # 4194304).
Proof.
  intros H1 Hh. pose proof (UINT_nonneg h Hh) as H0.
  split; [apply scrimH_positive; assumption |].
  split; [apply scrimH_le_upper |]. split.
  { assert (Hu : 0 <= 0.15 * inject_Z h) by lra.
    destruct (close_to_bounds _ _ Hu (scrim_upper_close h Hh)) as [_ H]. lra. }
  split; [reflexivity |]. split; [reflexivity |].
  apply scrim_rect_position; assumption.
Qed.

Lemma scrim_rect_in_image_witness :
  0 < Y (scrimRect 800 1200 90)
  /\ Qabs (Y (scrimRect 800 1200 90) + Height (scrimRect 800 1200 90) - inject_Z 1200)
     <= inject_Z 1200 * (1 # 4194304).
Proof.
  destruct (scrim_rect_in_image 800 1200 90) as (_ & _ & _ & _ & _ & H);
    [discriminate | split; [discriminate | reflexivity] |].
  exact H.
Defined.

(** The bottom edge is not met exactly in general. *)
Example scrim_rect_bottom_rounded :
  ~ Y (scrimRect 800 1200 90) + Height (scrimRect 800 1200 90) == inject_Z 1200.
Proof. intros H. vm_compute in H. discriminate H. Qed.

Lemma UINT_106 : UINT_range 106.
Proof. split; [discriminate | reflexivity]. Qed.

Lemma UINT_107 : UINT_range 107.
Proof. split; [discriminate | reflexivity]. Qed.

(** X13.  On an image lower than 107 pixels the text rectangle has a negative
    height, whatever the label: the scrim, at most the [REAL] value of
    [0.15 H], is lower than twice the pad of 8 pixels. *)
Theorem small_image_text_rect (w h : Z) (boundsHeight : Q) :
  (h < 107)%Z -> Height (textRect w h boundsHeight) < 0.
Proof.
  intros Hh. cbn [textRect Height]. apply to_REAL_negative.
  rewrite two_pad. pose proof (pad_ge_8 h) as Hp.
  pose proof (scrimH_le_upper h boundsHeight) as Hs.
  assert (Hu : scrim_upper h < 16).
  { unfold scrim_upper. eapply Qle_lt_trans.
    - apply to_REAL_mono.
      apply (double_of_le h 106 0.15); [lia | apply UINT_106 | reflexivity].
    - reflexivity. }
  lra.
Qed.

Lemma small_image_text_rect_witness : Height (textRect 200 100 18) < 0.
Proof. apply (small_image_text_rect 200 100 18). lia. Defined.

Lemma scrimH_ge_two_pad (h : Z) (t : Q) :
  (107 <= h)%Z -> UINT_range h -> 0 <= t -> 2 * pad h <= scrimH h t.
Proof.
  intros H107 Hh Ht. pose proof (UINT_nonneg h Hh) as H0.
  assert (Hq : 107 <= inject_Z h).
  { change 107 with (inject_Z 107). rewrite <- Zle_Qle. exact H107. }
  rewrite scrimH_clamp. unfold clamp_upper_last. apply Q.min_glb.
  - eapply Qle_trans; [| apply Q.le_max_l].
    apply to_REAL_ge; [apply two_pad | lra].
  - unfold scrim_upper. apply to_REAL_ge; [apply two_pad |].
    destruct (double_product 0.15 h eq_refl Hh) as (_ & Hd & _). cbv zeta in Hd.
    pose proof (pad_le_part h Hh) as Hp.
    assert (Hm : 0 <= Qmax 8 (0.012 * inject_Z h)).
    { eapply Qle_trans; [| apply Q.le_max_l]. discriminate. }
    destruct (close_to_bounds _ _ Hm (pad_close h Hh)) as [_ Hc].
    destruct (Qmax_cases 8 (0.012 * inject_Z h)) as [[_ E] | [_ E]]; rewrite E in Hc; lra.
Qed.

(** X14.  On a bitmap of at least 107 rows and of fewer than [2 ^ 24]
    columns, for a text height that is not negative, the text rectangle has a
    height that is not negative, and the text rectangle and the shadow
    rectangle lie inside the scrim rectangle. *)
Theorem text_rects_in_scrim (w h : Z) (boundsHeight : Q) :
  (107 <= h)%Z -> UINT_range h -> (0 <= w < 2 ^ 24)%Z -> 0 <= boundsHeight ->
  0 <= Height (textRect w h boundsHeight)
  /\ rect_within (textRect w h boundsHeight) (scrimRect w h boundsHeight)
  /\ rect_within (shadowRect w h boundsHeight) (scrimRect w h boundsHeight).
Proof.
  intros H107 Hh Hw Ht. set (t := boundsHeight). pose proof (UINT_nonneg h Hh) as H0.
  assert (Hq : 107 <= inject_Z h).
  { change 107 with (inject_Z 107). rewrite <- Zle_Qle. exact H107. }
  assert (Hw0 : 0 <= inject_Z w).
  { change 0 with (inject_Z 0). rewrite <- Zle_Qle. lia. }
  assert (Hw1 : inject_Z w <= 16777216).
  { change 16777216 with (inject_Z (2 ^ 24)). rewrite <- Zle_Qle. lia. }
  pose proof (pad_ge_8 h) as Hp8. pose proof (pad_le_part h Hh) as Hp1.
  pose proof (pad_ge_part h Hh) as Hp2.
  pose proof (scrimH_ge_two_pad h t H107 Hh Ht) as Hs2.
  pose proof (scrimH_le_part h t Hh) as Hs1.
  destruct (scrim_top w h t Hh) as (Ha & Hb & Hc & Hd). cbv zeta in *.
  unfold rect_within.
  cbn [shadowRect textRect X Y Width Height].
  change (X (scrimRect w h t)) with 0.
  change (Width (scrimRect w h t)) with (to_REAL (inject_Z w)).
  change (Height (scrimRect w h t)) with (scrimH h t).
  change (to_REAL (to_REAL (inject_Z h) - scrimH h t)) with (Y (scrimRect w h t)).
  set (ys := Y (scrimRect w h t)) in *.
  rewrite (to_REAL_small w Hw).
  rewrite (to_REAL_compat (scrimH h t - to_REAL (2 * pad h)) (scrimH h t - 2 * pad h))
    by (rewrite two_pad; reflexivity).
  rewrite (to_REAL_compat (inject_Z w - to_REAL (2 * pad h)) (inject_Z w - 2 * pad h))
    by (rewrite two_pad; reflexivity).
  assert (Hys : 0 <= ys) by lra.
  destruct (to_REAL_near (scrimH h t - 2 * pad h)) as [Hh1 Hh2]; [lra |].
  set (ht := to_REAL (scrimH h t - 2 * pad h)) in *.
  destruct (to_REAL_near (ys + pad h)) as [Hy1 Hy2]; [lra |].
  set (yt := to_REAL (ys + pad h)) in *.
  assert (Hwt : to_REAL (inject_Z w - 2 * pad h)
                <= inject_Z w - 2 * pad h + 1 + pad h * (1 # 8388608)).
  { destruct (Qlt_le_dec (inject_Z w - 2 * pad h) 0) as [Hn | Hpz].
    - destruct (to_REAL_near_neg (inject_Z w - 2 * pad h)) as [_ H]; lra.
    - destruct (to_REAL_near (inject_Z w - 2 * pad h) Hpz) as [_ H]. lra. }
  set (wt := to_REAL (inject_Z w - 2 * pad h)) in *.
  destruct (to_REAL_near (pad h + 1)) as [Hx1 Hx2]; [lra |].
  set (xs := to_REAL (pad h + 1)) in *.
  assert (Hyt0 : 0 <= yt + 1) by lra.
  destruct (to_REAL_near (yt + 1) Hyt0) as [Hz1 Hz2].
  set (ysh := to_REAL (yt + 1)) in *.
  assert (Hyge : ys <= yt).
  { subst yt. apply to_REAL_ge; [apply to_REAL_idempotent | lra]. }
  assert (Hyge' : yt <= ysh).
  { subst ysh. apply to_REAL_ge; [apply to_REAL_idempotent | lra]. }
  assert (Hxge : pad h <= xs).
  { subst xs. apply to_REAL_ge; [apply pad_REAL | lra]. }
  split; [lra |]. split; (split; [lra |]); (split; [lra |]); (split; [lra |]); lra.
Qed.

Lemma text_rects_in_scrim_witness :
  0 <= Height (textRect 800 600 45)
  /\ Y (shadowRect 800 600 45) + Height (shadowRect 800 600 45)
     <= Y (scrimRect 800 600 45) + Height (scrimRect 800 600 45).
Proof.
  destruct (text_rects_in_scrim 800 600 45) as (H1 & _ & _ & _ & _ & H2);
    [discriminate | split; [discriminate | reflexivity] | split; [discriminate | reflexivity]
     | discriminate |].
  split; [exact H1 | exact H2].
Defined.

(** On a bitmap of [2 ^ 32 - 1] columns the difference [w - 2 pad] is lost in
    the rounding of the width, and the text rectangle ends to the right of
    the scrim rectangle. *)
Example text_rect_wide_bitmap :
  ~ rect_within (textRect 4294967295 107 0) (scrimRect 4294967295 107 0).
Proof.
  intros (_ & H & _). revert H. apply Qlt_not_le. reflexivity.
Qed.

(** X15.  A higher text never gives a lower scrim; while the sum of the text
    height and twice the pad, rounded to [REAL], stays at or under the lower
    bound the scrim does not depend on the text, and from the point where it
    reaches the upper bound the scrim is the upper bound, the [REAL] value of
    [0.15 h]. *)
Theorem scrimH_monotone (h : Z) (t1 t2 : Q) :
  (t1 <= t2 -> scrimH h t1 <= scrimH h t2)
  /\ (to_REAL (t1 + 2 * pad h) <= scrim_lower h ->
      to_REAL (t2 + 2 * pad h) <= scrim_lower h ->
      scrimH h t1 == scrimH h t2)
  /\ (scrim_upper h <= to_REAL (t1 + 2 * pad h) -> scrimH h t1 == scrim_upper h).
Proof.
  rewrite !scrimH_clamp. unfold clamp_upper_last. split; [| split].
  - intros H. apply Q.min_le_compat_r. apply Q.max_le_compat_r.
    apply to_REAL_mono. lra.
  - intros H1 H2. rewrite (Q.max_r _ _ H1), (Q.max_r _ _ H2). reflexivity.
  - intros H. apply Q.min_r. eapply Qle_trans; [exact H | apply Q.le_max_l].
Qed.

Lemma scrimH_monotone_witness :
  scrimH 600 45 <= scrimH 600 60
  /\ scrimH 600 200 == scrim_upper 600.
Proof.
  destruct (scrimH_monotone 600 45 60) as (H1 & _ & _).
  destruct (scrimH_monotone 600 200 200) as (_ & _ & H3).
  split; [apply H1; discriminate | apply H3; apply Qle_bool_iff; reflexivity].
Defined.

End Rectangles.

(** ** [ProcessAndSave]: what is drawn *)

Section DrawingMore.
Local Open Scope Q_scope.

(** X16.  Drawing the label keeps the size of the bitmap, and, whatever the
    text height, keeps every pixel of a row that lies wholly above the scrim
    rectangle and above the text block, which is the measured text centred on
    [textRect] as the code computes it in [REAL]. *)
Theorem composite_keeps_rows_above (pf : Platform) (label : wstring) (bmp : Bitmap) :
  let w := GetWidth bmp in
  let h := GetHeight bmp in
  let font := label_font (Segoe_IsAvailable pf) h in
  let t := Height (MeasureString pf label font (layoutRect w h) label_format) in
  GetWidth (composite pf label bmp) = w
  /\ GetHeight (composite pf label bmp) = h
  /\ forall x y : Z,
       inject_Z y + 1 <= Y (scrimRect w h t) ->
       inject_Z y + 1 <= Y (textRect w h t) + (Height (textRect w h t) - t) / 2 ->
       pixel (composite pf label bmp) x y = pixel bmp x y.
Proof.
  intros w h font t. rewrite composite_render. fold w h font t.
  destruct (render_size (raster pf) t (draw_calls w h label font t) bmp) as [Hw Hh].
  split; [exact Hw |]. split; [exact Hh |].
  intros x y Hy1 Hy2. apply render_unpainted.
  pose proof (shadow_below_text w h t) as Hs.
  unfold draw_calls. repeat apply Forall_cons_2; [| | | apply Forall_nil_2];
    apply row_above_unpainted.
  - rewrite block_top_scrim. exact Hy1.
  - rewrite block_top_text.
    cbn [shadowRect Height].
    unfold Qdiv in *. change (/ 2) with (1 # 2) in *. lra.
  - rewrite block_top_text. exact Hy2.
Qed.

Lemma composite_keeps_rows_above_witness :
  pixel (composite (Sample.platform Sample.photo 1000 1000 240 (PressOK (L "Hello")) IDNO
                                    Sample.encoders Ok None)
                   (L "Hello") (Sample.bitmap 1000 1000)) 20 804
  = Sample.red.
Proof.
  apply (proj2 (proj2 (composite_keeps_rows_above
           (Sample.platform Sample.photo 1000 1000 240 (PressOK (L "Hello")) IDNO
                            Sample.encoders Ok None)
           (L "Hello") (Sample.bitmap 1000 1000))) 20%Z 804%Z);
    apply Qle_bool_iff; reflexivity.
Defined.

(** On a bitmap of 1520 rows whose label measures 228 pixels high, as high
    as the scrim, the rounding of [textRect] puts the top of the text block
    just above row 1292, where the scrim rectangle starts. *)
Example text_block_rounded_above :
  Y (scrimRect 800 1520 228) == 1292
  /\ Y (textRect 800 1520 228) + (Height (textRect 800 1520 228) - 228) / 2 < 1292.
Proof. split; reflexivity. Qed.

End DrawingMore.

(** ** [ProcessAndSave]: what is written *)

Section SaveMoreFacts.
Variable pf : Platform.

Lemma Save_at (bmp : Bitmap) (path : wstring) (clsid : CLSID) (fs fs' : FS) s :
  Save pf bmp path clsid fs = (s, fs') ->
  Bitmap_Save pf bmp path clsid (fs !! path) = (s, fs' !! path).
Proof.
  unfold Save. destruct (Bitmap_Save pf bmp path clsid (fs !! path)) as [s' [bytes|]];
    intros [= <- <-].
  - rewrite lookup_insert_eq. reflexivity.
  - rewrite lookup_delete_eq. reflexivity.
Qed.

Lemma MoveFileExW_done (existing new : wstring) (fs fs' : FS) :
  MoveFileExW pf existing new fs = (None, fs') ->
  exists bytes, fs !! existing = Some bytes
                /\ fs' = <[new := bytes]> (delete existing fs).
Proof.
  unfold MoveFileExW. destruct (fs !! existing) as [bytes|]; [| discriminate].
  destruct (MoveFileExW_error pf existing new fs); [discriminate |].
  intros [= <-]. eauto.
Qed.

Lemma labeled_differs (srcPath : wstring) :
  PathWithSuffixBeforeExt srcPath (L "_labeled") <> srcPath.
Proof.
  destruct (PathWithSuffixBeforeExt_split srcPath) as (a & b & HP & Hins).
  intros Heq. apply (f_equal length) in Heq.
  rewrite Hins, HP, !length_app in Heq.
  change (length (L "_labeled")) with 8%nat in Heq. lia.
Qed.

Lemma copy_frame (srcPath label : wstring) (fs : FS) (p : wstring) :
  p <> PathWithSuffixBeforeExt srcPath (L "_labeled") ->
  snd (ProcessAndSave pf srcPath label false fs) !! p = fs !! p.
Proof.
  intros Hp. unfold ProcessAndSave.
  destruct (negb (GdiplusStartup pf =? Ok)); [reflexivity |].
  destruct (Bitmap_FromFile pf (fs !! srcPath)) as [loaded|]; [| reflexivity].
  destruct (GetEncoderClsid _ _ _) as [found pngClsid].
  destruct (found =? -1); [reflexivity |].
  destruct (Save pf _ _ pngClsid fs) as [s fs1] eqn:Esave.
  pose proof (Save_other pf _ _ p _ _ _ _ Esave Hp) as H.
  destruct (s =? Ok); exact H.
Qed.

Lemma overwrite_frame (srcPath label : wstring) (fs : FS) (p : wstring) :
  p <> srcPath ->
  GetTempSiblingPath srcPath (GetTickCount pf) <> Some p ->
  snd (ProcessAndSave pf srcPath label true fs) !! p = fs !! p.
Proof.
  intros Hsrc Htmp. unfold ProcessAndSave.
  destruct (negb (GdiplusStartup pf =? Ok)); [reflexivity |].
  destruct (Bitmap_FromFile pf (fs !! srcPath)) as [loaded|]; [| reflexivity].
  destruct (GetEncoderClsid _ _ _) as [found pngClsid].
  destruct (found =? -1); [reflexivity |].
  destruct (GetTempSiblingPath srcPath (GetTickCount pf)) as [tmp|]; [| reflexivity].
  assert (Hp : p <> tmp) by congruence.
  destruct (Save pf _ tmp pngClsid fs) as [s fs1] eqn:Esave.
  pose proof (Save_other pf _ _ p _ _ _ _ Esave Hp) as H1.
  destruct (negb (s =? Ok)); [exact H1 |].
  destruct (MoveFileExW pf tmp srcPath fs1) as [[e|] fs2] eqn:Emove.
  - apply MoveFileExW_failed in Emove as ->. cbn [snd].
    rewrite DeleteFileW_other by exact Hp. exact H1.
  - apply MoveFileExW_done in Emove as (bytes & _ & ->). cbn [snd].
    rewrite lookup_insert_ne by congruence. rewrite lookup_delete_ne by congruence.
    exact H1.
Qed.

Lemma ProcessAndSave_result (srcPath label : wstring) (overwrite : bool) (fs : FS)
    (r : SaveResult) :
  fst (ProcessAndSave pf srcPath label overwrite fs) = Returned r ->
  (ok r = true /\ outError r = []
   /\ outSavedPath r = if overwrite then srcPath
                       else PathWithSuffixBeforeExt srcPath (L "_labeled"))
  \/ (ok r = false /\ outSavedPath r = [] /\ outError r <> []).
Proof.
  assert (Hfail : forall e : wstring, e <> [] ->
            ok (failed e) = false /\ outSavedPath (failed e) = [] /\ outError (failed e) <> []).
  { intros e He. split; [reflexivity |]. split; [reflexivity | exact He]. }
  unfold ProcessAndSave.
  destruct (negb (GdiplusStartup pf =? Ok)).
  { intros [= <-]. right. apply Hfail. discriminate. }
  destruct (Bitmap_FromFile pf (fs !! srcPath)) as [loaded|].
  2: { intros [= <-]. right. apply Hfail. discriminate. }
  destruct (GetEncoderClsid _ _ _) as [found pngClsid].
  destruct (found =? -1).
  { intros [= <-]. right. apply Hfail. discriminate. }
  destruct overwrite.
  - destruct (GetTempSiblingPath srcPath (GetTickCount pf)) as [tmp|]; [| discriminate].
    destruct (Save pf _ tmp pngClsid fs) as [s fs1].
    destruct (negb (s =? Ok)).
    { intros [= <-]. right. apply Hfail. discriminate. }
    destruct (MoveFileExW pf tmp srcPath fs1) as [[e|] fs2]; intros [= <-].
    + right. apply Hfail. discriminate.
    + left. repeat split.
  - destruct (Save pf _ _ pngClsid fs) as [s fs1].
    destruct (s =? Ok); intros [= <-].
    + left. repeat split.
    + right. apply Hfail. discriminate.
Qed.

End SaveMoreFacts.

(** X17.  [ProcessAndSave] changes the file system only after GDI+ has
    started, the source has been decoded and the PNG encoder has been
    found. *)
Theorem writes_need_encoder (pf : Platform) (srcPath label : wstring) (overwrite : bool)
    (fs : FS) :
  snd (ProcessAndSave pf srcPath label overwrite fs) <> fs ->
  GdiplusStartup pf = Ok
  /\ (exists loaded, Bitmap_FromFile pf (fs !! srcPath) = Some loaded)
  /\ fst (GetEncoderClsid (ImageEncoders pf) (L "image/png") 0%N) <> -1.
Proof.
  unfold ProcessAndSave.
  destruct (Z.eqb_spec (GdiplusStartup pf) Ok) as [Hs|Hs]; cbn [negb];
    [| intros H; contradiction].
  destruct (Bitmap_FromFile pf (fs !! srcPath)) as [loaded|]; [| intros H; contradiction].
  destruct (GetEncoderClsid _ _ _) as [found pngClsid]. cbn [fst].
  destruct (Z.eqb_spec found (-1)) as [Hf|Hf]; [intros H; contradiction |].
  intros _. split; [exact Hs |]. split; [eauto | exact Hf].
Qed.

Lemma writes_need_encoder_witness :
  let pf := Sample.platform Sample.photo 800 600 45 (PressOK (L "Hello")) IDNO Sample.encoders Ok
                            None in
  GdiplusStartup pf = Ok
  /\ (exists loaded, Bitmap_FromFile pf (Sample.disk !! Sample.photo) = Some loaded)
  /\ fst (GetEncoderClsid (ImageEncoders pf) (L "image/png") 0%N) <> -1.
Proof.
  intros pf. apply (writes_need_encoder pf Sample.photo (L "Hello") false Sample.disk).
  intros H. apply (f_equal (fun fs : FS => fs !! L "C:\pics\photo_labeled.png")) in H.
  vm_compute in H. discriminate H.
Defined.

(** X18.  In Copy mode the destination is the source path with [_labeled]
    before the extension, which is never the source path; the run always
    returns, changes no file but the destination, so that the source holds
    what it held, and when it succeeds it reports the destination, which
    then holds what the encoder wrote. *)
Theorem copy_mode_run (pf : Platform) (srcPath label : wstring) (fs : FS) :
  let dst := PathWithSuffixBeforeExt srcPath (L "_labeled") in
  let run := ProcessAndSave pf srcPath label false fs in
  dst <> srcPath
  /\ (exists r, fst run = Returned r)
  /\ (forall p, p <> dst -> snd run !! p = fs !! p)
  /\ snd run !! srcPath = fs !! srcPath
  /\ (succeeded (fst run) = true ->
      fst run = Returned (saved dst)
      /\ exists loaded,
           Bitmap_FromFile pf (fs !! srcPath) = Some loaded
           /\ Bitmap_Save pf (composite pf label loaded) dst
                (snd (GetEncoderClsid (ImageEncoders pf) (L "image/png") 0%N)) (fs !! dst)
              = (Ok, snd run !! dst)).
Proof.
  intros dst run.
  pose proof (labeled_differs srcPath) as Hne. fold dst in Hne.
  split; [exact Hne |]. split; [| split; [intros p Hp; apply copy_frame, Hp |]].
  - subst run. unfold ProcessAndSave.
    destruct (negb (GdiplusStartup pf =? Ok)); [eauto |].
    destruct (Bitmap_FromFile pf (fs !! srcPath)) as [loaded|]; [| eauto].
    destruct (GetEncoderClsid _ _ _) as [found pngClsid].
    destruct (found =? -1); [eauto |].
    destruct (Save pf _ _ pngClsid fs) as [s fs1]. destruct (s =? Ok); eauto.
  - split; [apply copy_frame, not_eq_sym, Hne |].
    subst run. unfold ProcessAndSave.
    destruct (negb (GdiplusStartup pf =? Ok)); [discriminate |].
    destruct (Bitmap_FromFile pf (fs !! srcPath)) as [loaded|]; [| discriminate].
    destruct (GetEncoderClsid _ _ _) as [found pngClsid]. cbn [snd].
    destruct (found =? -1); [discriminate |].
    fold dst. destruct (Save pf _ dst pngClsid fs) as [s fs1] eqn:Esave.
    destruct (Z.eqb_spec s Ok) as [->|Hs]; [| discriminate].
    intros _. split; [reflexivity |]. exists loaded. split; [reflexivity |].
    cbn [snd]. apply Save_at, Esave.
Qed.

Lemma copy_mode_run_witness :
  let pf := Sample.platform Sample.photo 800 600 45 (PressOK (L "Hello")) IDNO Sample.encoders Ok
                            None in
  let run := ProcessAndSave pf Sample.photo (L "Hello") false Sample.disk in
  snd run !! L "C:\pics\other.png" = None
  /\ fst run = Returned (saved (L "C:\pics\photo_labeled.png")).
Proof.
  intros pf run.
  destruct (copy_mode_run pf Sample.photo (L "Hello") Sample.disk)
    as (_ & _ & Hframe & _ & Hok).
  split.
  - unfold run. rewrite Hframe by (vm_compute; discriminate). vm_compute. reflexivity.
  - destruct Hok as [Hr _]; [vm_compute; reflexivity |]. exact Hr.
Defined.

(** X19.  When an Overwrite run succeeds it reports the source path; the
    source then holds exactly the bytes the encoder wrote to the temporary
    sibling, the temporary sibling is gone, and every other file holds what
    it held. *)
Theorem overwrite_success (pf : Platform) (srcPath label : wstring) (fs : FS) :
  let run := ProcessAndSave pf srcPath label true fs in
  succeeded (fst run) = true ->
  fst run = Returned (saved srcPath)
  /\ exists loaded tmp bytes,
       Bitmap_FromFile pf (fs !! srcPath) = Some loaded
       /\ GetTempSiblingPath srcPath (GetTickCount pf) = Some tmp
       /\ Bitmap_Save pf (composite pf label loaded) tmp
            (snd (GetEncoderClsid (ImageEncoders pf) (L "image/png") 0%N)) (fs !! tmp)
          = (Ok, Some bytes)
       /\ snd run !! srcPath = Some bytes
       /\ snd run !! tmp = None
       /\ forall p, p <> srcPath -> p <> tmp -> snd run !! p = fs !! p.
Proof.
  intros run Hok.
  assert (Hframe : forall p tmp, GetTempSiblingPath srcPath (GetTickCount pf) = Some tmp ->
                     p <> srcPath -> p <> tmp -> snd run !! p = fs !! p).
  { intros p tmp Htmp Hs Ht. apply overwrite_frame; congruence. }
  revert Hok Hframe. subst run. unfold ProcessAndSave.
  destruct (negb (GdiplusStartup pf =? Ok)); [discriminate |].
  destruct (Bitmap_FromFile pf (fs !! srcPath)) as [loaded|]; [| discriminate].
  destruct (GetEncoderClsid _ _ _) as [found pngClsid]. cbn [snd].
  destruct (found =? -1); [discriminate |].
  destruct (GetTempSiblingPath srcPath (GetTickCount pf)) as [tmp|] eqn:Etmp; [| discriminate].
  apply temp_sibling_differs in Etmp.
  destruct (Save pf _ tmp pngClsid fs) as [s fs1] eqn:Esave.
  destruct (Z.eqb_spec s Ok) as [->|Hs]; cbn [negb]; [| discriminate].
  destruct (MoveFileExW pf tmp srcPath fs1) as [[e|] fs2] eqn:Emove; [discriminate |].
  intros _ Hframe. split; [reflexivity |].
  apply MoveFileExW_done in Emove as (bytes & Hbytes & ->).
  apply Save_at in Esave. rewrite Hbytes in Esave.
  exists loaded, tmp, bytes. cbn [snd] in *.
  split; [reflexivity |]. split; [reflexivity |]. split; [exact Esave |].
  split; [apply lookup_insert_eq |].
  split; [rewrite lookup_insert_ne by congruence; apply lookup_delete_eq |].
  intros p Hp1 Hp2. apply (Hframe p tmp eq_refl Hp1 Hp2).
Qed.

Lemma overwrite_success_witness :
  let pf := Sample.platform Sample.photo 800 600 45 (PressOK (L "Hello")) IDYES Sample.encoders Ok
                            None in
  fst (ProcessAndSave pf Sample.photo (L "Hello") true Sample.disk)
  = Returned (saved Sample.photo).
Proof.
  intros pf.
  apply (overwrite_success pf Sample.photo (L "Hello") Sample.disk).
  vm_compute. reflexivity.
Defined.

(** X20.  A result that [ProcessAndSave] returns is of one of two shapes:
    success with the saved path, which is the source path in Overwrite mode
    and the [_labeled] path in Copy mode, and no error text; or failure with
    no saved path and an error text that is not empty. *)
Theorem result_shape (pf : Platform) (srcPath label : wstring) (overwrite : bool) (fs : FS)
    (r : SaveResult) :
  fst (ProcessAndSave pf srcPath label overwrite fs) = Returned r ->
  (ok r = true /\ outError r = []
   /\ outSavedPath r = if overwrite then srcPath
                       else PathWithSuffixBeforeExt srcPath (L "_labeled"))
  \/ (ok r = false /\ outSavedPath r = [] /\ outError r <> []).
Proof.
  apply ProcessAndSave_result.
Qed.

Lemma result_shape_witness :
  let pf := Sample.platform Sample.photo 800 600 45 (PressOK (L "Hello")) IDYES Sample.encoders 7
                            None in
  let r := failed (L "Save to temp failed (status 7).") in
  (ok r = true /\ outError r = [] /\ outSavedPath r = Sample.photo)
  \/ (ok r = false /\ outSavedPath r = [] /\ outError r <> []).
Proof.
  intros pf r.
  apply (result_shape pf Sample.photo (L "Hello") true Sample.disk r).
  vm_compute. reflexivity.
Defined.



(** ** [wWinMain]: the whole run *)

Lemma wWinMain_run (pf : Platform) (fs : FS) (path : wstring) :
  argv pf !! 1%nat = Some path ->
  wWinMain pf fs = (Returned 2, fs, [MsgBox (L "File not found:" ++ [10%N] ++ path)])
  \/ wWinMain pf fs = (Returned 0, fs, [])
  \/ exists label,
       PromptForText pf (L "") = (true, label)
       /\ MessageBox_choice pf <> IDCANCEL
       /\ wWinMain pf fs
       = match ProcessAndSave pf path label (MessageBox_choice pf =? IDYES) fs with
         | (Terminated, fs1) => (Terminated, fs1, [])
         | (Returned r, fs1) =>
             if negb (ok r) then
               (Returned 3, fs1, [MsgBox (L "Failed to write image:" ++ [10%N] ++ outError r)])
             else
               (Returned 0, fs1,
                [RefreshShellFor (outSavedPath r);
                 MsgBox (L "Saved:" ++ [10%N] ++ outSavedPath r)])
         end.
Proof.
  unfold wWinMain. intros Hpath.
  destruct (argv pf) as [|a0 [|path' rest]]; simpl in Hpath; try discriminate.
  injection Hpath as ->.
  destruct (negb (PathFileExistsW pf path)); [left; reflexivity |].
  destruct (PromptForText pf (L "")) as [accepted label].
  destruct accepted; cbn [negb]; [| right; left; reflexivity].
  destruct (Z.eqb_spec (MessageBox_choice pf) IDCANCEL) as [Hc | Hc];
    [right; left; reflexivity |].
  right; right. exists label. split; [reflexivity |]. split; [exact Hc | reflexivity].
Qed.

Lemma wWinMain_no_path (pf : Platform) (fs : FS) :
  argv pf !! 1%nat = None ->
  wWinMain pf fs
  = (Returned 1, fs, [MsgBox (L "Usage:" ++ [10%N] ++ L "  piclab.exe <image.png>")]).
Proof.
  unfold wWinMain.
  destruct (argv pf) as [|a0 [|path rest]]; simpl; [reflexivity | reflexivity | discriminate].
Qed.

(** X22.  The image given on the command line is replaced only by a run in
    which the user answered Yes and which exits with 0: when the answer is
    anything else, or the run ends in any other way (exit code 1, 2 or 3, or
    the process ended by the CRT), the file at that path holds what it
    held. *)
Theorem original_kept (pf : Platform) (fs : FS) (path : wstring) :
  argv pf !! 1%nat = Some path ->
  MessageBox_choice pf <> IDYES \/ fst (fst (wWinMain pf fs)) <> Returned 0 ->
  snd (fst (wWinMain pf fs)) !! path = fs !! path.
Proof.
  intros Hpath Hcase.
  destruct (wWinMain_run pf fs path Hpath) as [-> | [-> | (label & _ & _ & Hrun)]];
    [reflexivity | reflexivity |].
  rewrite Hrun in *. clear Hrun.
  destruct (Z.eqb_spec (MessageBox_choice pf) IDYES) as [Hyes|Hno].
  - destruct Hcase as [Hc | Hc]; [contradiction |].
    pose proof (overwrite_failure_keeps_source pf path label fs) as Hkeep.
    destruct (ProcessAndSave pf path label true fs) as [[r|] fs1]; cbn [fst snd] in *.
    + destruct (ok r) eqn:Hok; cbn [negb fst snd] in *; [contradiction | apply Hkeep, Hok].
    + apply Hkeep. reflexivity.
  - pose proof (copy_frame pf path label fs path
                  (not_eq_sym (labeled_differs path))) as Hkeep.
    destruct (ProcessAndSave pf path label false fs) as [[r|] fs1]; cbn [fst snd] in *.
    + destruct (ok r); exact Hkeep.
    + exact Hkeep.
Qed.

Lemma original_kept_witness :
  let pf := Sample.platform Sample.photo 800 600 45 (PressOK (L " Hello ")) IDNO
                            Sample.encoders Ok None in
  snd (fst (wWinMain pf Sample.disk)) !! Sample.photo = Some Sample.old_bytes.
Proof.
  intros pf. rewrite (original_kept pf Sample.disk Sample.photo eq_refl).
  - vm_compute. reflexivity.
  - left. discriminate.
Defined.

(** X23.  A run changes no file other than, after the answer Yes, the image
    and its temporary sibling and, after any other answer, the [_labeled]
    copy. *)
Theorem run_frame (pf : Platform) (fs : FS) (path p : wstring) :
  argv pf !! 1%nat = Some path ->
  (if MessageBox_choice pf =? IDYES
   then p <> path /\ GetTempSiblingPath path (GetTickCount pf) <> Some p
   else p <> PathWithSuffixBeforeExt path (L "_labeled")) ->
  snd (fst (wWinMain pf fs)) !! p = fs !! p.
Proof.
  intros Hpath Hp.
  destruct (wWinMain_run pf fs path Hpath) as [-> | [-> | (label & _ & _ & Hrun)]];
    [reflexivity | reflexivity |].
  rewrite Hrun. clear Hrun.
  assert (Hkeep : snd (ProcessAndSave pf path label (MessageBox_choice pf =? IDYES) fs) !! p
                  = fs !! p).
  { destruct (MessageBox_choice pf =? IDYES).
    - apply overwrite_frame; tauto.
    - apply copy_frame, Hp. }
  destruct (ProcessAndSave pf path label _ fs) as [[r|] fs1]; cbn [fst snd] in *.
  - destruct (ok r); exact Hkeep.
  - exact Hkeep.
Qed.

Lemma run_frame_witness :
  let pf := Sample.platform Sample.photo 800 600 45 (PressOK (L " Hello ")) IDYES
                            Sample.encoders Ok None in
  snd (fst (wWinMain pf Sample.disk)) !! L "C:\pics\photo_labeled.png" = None.
Proof.
  intros pf.
  rewrite (run_frame pf Sample.disk Sample.photo (L "C:\pics\photo_labeled.png") eq_refl).
  - vm_compute. reflexivity.
  - vm_compute. split; discriminate.
Defined.

(** X24.  The shell is notified only by a run that exits with 0 after a
    save: the notification is for the path [ProcessAndSave] reported, which
    is the image after the answer Yes and the [_labeled] copy otherwise, it
    is the only one, and it is followed by the dialog [Saved:] with the same
    path. *)
Theorem shell_refresh (pf : Platform) (fs : FS) (p : wstring) :
  In (RefreshShellFor p) (snd (wWinMain pf fs)) ->
  fst (fst (wWinMain pf fs)) = Returned 0
  /\ snd (wWinMain pf fs) = [RefreshShellFor p; MsgBox (L "Saved:" ++ [10%N] ++ p)]
  /\ exists path,
       argv pf !! 1%nat = Some path
       /\ p = if MessageBox_choice pf =? IDYES then path
              else PathWithSuffixBeforeExt path (L "_labeled").
Proof.
  destruct (argv pf !! 1%nat) as [path|] eqn:Hpath.
  2: { rewrite (wWinMain_no_path pf fs Hpath). cbn [snd In].
       intros [H | []]. discriminate H. }
  destruct (wWinMain_run pf fs path Hpath) as [-> | [-> | (label & Hlabel & Hchoice & ->)]].
  - cbn [snd In]. intros [H | []]. discriminate H.
  - intros [].
  - pose proof (ProcessAndSave_result pf path label (MessageBox_choice pf =? IDYES) fs) as Hshape.
    destruct (ProcessAndSave pf path label _ fs) as [[r|] fs1]; cbn [fst snd] in *.
    + destruct (Hshape r eq_refl) as [(Hok & _ & Hsaved) | (Hok & _ & _)]; rewrite Hok;
        cbn [negb fst snd In].
      * intros [[= <-] | [H | []]]; [| discriminate H].
        split; [reflexivity |]. split; [reflexivity |]. exists path. split; [reflexivity |].
        exact Hsaved.
      * intros [H | []]. discriminate H.
    + intros [].
Qed.

Lemma shell_refresh_witness :
  snd (wWinMain (Sample.platform Sample.photo 800 600 45 (PressOK (L " Hello ")) IDNO
                                 Sample.encoders Ok None) Sample.disk)
  = [RefreshShellFor (L "C:\pics\photo_labeled.png");
     MsgBox (L "Saved:" ++ [10%N] ++ L "C:\pics\photo_labeled.png")].
Proof.
  apply (shell_refresh _ Sample.disk (L "C:\pics\photo_labeled.png")).
  vm_compute. left. reflexivity.
Defined.

(** X25.  A run that exits with a code other than 0 makes exactly one
    [MsgBox] call and notifies nobody.  With the exit code 3 the label was
    accepted, the choice was not Cancel, [ProcessAndSave] returned [false],
    and the text shown is [Failed to write image:], a line feed and the
    error text that [ProcessAndSave] returned, which is not empty. *)
Theorem failure_dialog (pf : Platform) (fs : FS) (code : Z) :
  fst (fst (wWinMain pf fs)) = Returned code ->
  code <> 0 ->
  (exists text, snd (wWinMain pf fs) = [MsgBox text])
  /\ (code = 3 ->
      exists path label r fs1,
        argv pf !! 1%nat = Some path
        /\ PromptForText pf (L "") = (true, label)
        /\ ProcessAndSave pf path label (MessageBox_choice pf =? IDYES) fs = (Returned r, fs1)
        /\ ok r = false
        /\ outError r <> []
        /\ wWinMain pf fs
           = (Returned 3, fs1,
              [MsgBox (L "Failed to write image:" ++ [10%N] ++ outError r)])).
Proof.
  destruct (argv pf !! 1%nat) as [path|] eqn:Hpath.
  2: { rewrite (wWinMain_no_path pf fs Hpath). cbn [fst snd].
       intros [= <-] _. split; [eauto | discriminate]. }
  destruct (wWinMain_run pf fs path Hpath) as [-> | [-> | (label & Hlabel & Hchoice & ->)]];
    cbn [fst snd].
  - intros [= <-] _. split; [eauto | discriminate].
  - intros [= <-] H. contradiction.
  - pose proof (ProcessAndSave_result pf path label (MessageBox_choice pf =? IDYES) fs) as Hshape.
    destruct (ProcessAndSave pf path label _ fs) as [[r|] fs1] eqn:Hrun; cbn [fst snd] in *;
      [| discriminate].
    destruct (Hshape r eq_refl) as [(Hok & _ & _) | (Hok & _ & Herr)]; rewrite Hok;
      cbn [negb fst snd].
    + intros [= <-] H. contradiction.
    + intros _ _. split; [eauto |]. intros _.
      exists path, label, r, fs1. repeat split; try assumption; reflexivity.
Qed.

Lemma failure_dialog_witness :
  exists text,
    snd (wWinMain (Sample.platform Sample.photo 800 600 45 (PressOK (L " Hello ")) IDYES
                                   Sample.encoders Ok (Some 5%N)) Sample.disk)
    = [MsgBox text].
Proof.
  apply (failure_dialog _ Sample.disk 3); [vm_compute; reflexivity | discriminate].
Defined.

(** X26.  The exit code, the file system and the effects of every run.
    Without a path argument: code 1 and the usage text.  With a path that
    does not exist: code 2 and [File not found:].  When the user gives no
    label (the prompt cancelled, closed or not created, or a text whose
    first 1023 characters are all white space) or cancels the choice: code
    0, nothing written, shown or notified.  Otherwise [ProcessAndSave] runs
    on the label, in Overwrite mode exactly for the answer Yes: when it
    returns [false], code 3 and its error text; when it returns [true], code
    0, the shell notified of the saved path and [Saved:] shown; when the CRT
    ends the process inside it, no exit code and no effect. *)
Theorem exit_codes (pf : Platform) (fs : FS) :
  (argv pf !! 1%nat = None ->
   wWinMain pf fs
   = (Returned 1, fs, [MsgBox (L "Usage:" ++ [10%N] ++ L "  piclab.exe <image.png>")]))
  /\ (forall path, argv pf !! 1%nat = Some path ->
        (PathFileExistsW pf path = false ->
         wWinMain pf fs = (Returned 2, fs, [MsgBox (L "File not found:" ++ [10%N] ++ path)]))
        /\ (PathFileExistsW pf path = true ->
              (no_label pf -> wWinMain pf fs = (Returned 0, fs, []))
              /\ (forall label, PromptForText pf (L "") = (true, label) ->
                    (MessageBox_choice pf = IDCANCEL ->
                     wWinMain pf fs = (Returned 0, fs, []))
                    /\ (MessageBox_choice pf <> IDCANCEL ->
                        forall out fs1,
                          ProcessAndSave pf path label (MessageBox_choice pf =? IDYES) fs
                          = (out, fs1) ->
                          wWinMain pf fs
                          = match out with
                            | Terminated => (Terminated, fs1, [])
                            | Returned r =>
                                if ok r
                                then (Returned 0, fs1,
                                      [RefreshShellFor (outSavedPath r);
                                       MsgBox (L "Saved:" ++ [10%N] ++ outSavedPath r)])
                                else (Returned 3, fs1,
                                      [MsgBox (L "Failed to write image:" ++ [10%N]
                                               ++ outError r)])
                            end)))).
Proof.
  split; [apply wWinMain_no_path |].
  intros path Hpath. unfold wWinMain.
  destruct (argv pf) as [|a0 [|path' rest]]; simpl in Hpath; try discriminate.
  injection Hpath as ->. split.
  - intros ->. reflexivity.
  - intros ->. cbn [negb]. split.
    + intros Hno. rewrite (PromptForText_no_label pf _ Hno). reflexivity.
    + intros label ->. cbn [negb]. split.
      * intros ->. reflexivity.
      * intros Hchoice out fs1 Hrun.
        destruct (Z.eqb_spec (MessageBox_choice pf) IDCANCEL); [contradiction |].
        rewrite Hrun. destruct out as [r|]; [| reflexivity].
        destruct (ok r); reflexivity.
Qed.

Lemma exit_codes_witness :
  wWinMain (Sample.platform Sample.photo 800 600 45 (PressOK (L "   ")) IDYES Sample.encoders Ok None)
           Sample.disk
  = (Returned 0, Sample.disk, [])
  /\ fst (fst (wWinMain (Sample.platform Sample.photo 800 600 45 (PressOK (L " Hello ")) IDYES
                                         Sample.encoders Ok (Some 5%N)) Sample.disk))
     = Returned 3.
Proof.
  split.
  - apply (proj2 (exit_codes
               (Sample.platform Sample.photo 800 600 45 (PressOK (L "   ")) IDYES Sample.encoders Ok None)
               Sample.disk) Sample.photo eq_refl); [reflexivity |].
    repeat constructor.
  - destruct (proj2 (proj2 (exit_codes
               (Sample.platform Sample.photo 800 600 45 (PressOK (L " Hello ")) IDYES
                                Sample.encoders Ok (Some 5%N)) Sample.disk)
               Sample.photo eq_refl) eq_refl) as [_ H].
    destruct (H (L "Hello") eq_refl) as [_ H'].
    rewrite (H' ltac:(discriminate)
                (Returned (failed (L "Replace original failed. Win32 error 5: Access is denied.")))
                Sample.disk); [reflexivity | vm_compute; reflexivity].
Defined.
